(** * A shallow embedding of the Go package [qrcode] (AshokShau/qrcode)

    The development follows the package file by file: [reedsolomon.go]
    (GF(256) tables and arithmetic, generator polynomial, EC codewords),
    the encoder [NewQRCode] with its [BitBuffer] and BCH helper, and
    [writer.go] (the rasterizer).  The decoder, which the sources lack,
    is written from the specification.  Definitions used only to state
    and prove the properties follow, then the proofs.

    Conventions.
    - Go's [int] is embedded as [Z].  Every quantity the encoder computes
      from an in-memory input stays far below 2^63, so no wrap-around is
      reachable; shifts, remainders and xors are the [Z] ones.  [WritePNG]
      is the exception: the caller's [scale] enters its products, so its
      arithmetic is written with the 64-bit wrap-around, and the image
      allocation with the limits of the library and the run-time.
    - A Go run-time panic (index out of range, the explicit
      [panic("division by zero")]) is an [outcome] of the model, not a
      missing case.
    - The package-level arrays [expTable] and [logTable] are a store that
      every operation receives and returns, so that "nobody writes the
      tables after [init]" is a statement about the model. *)

From stdpp Require Import base numbers list list_numbers gmap strings.

Local Open Scope Z_scope.

(** ** Panics, outcomes and the table store *)

Inductive panic : Type :=
  | DivisionByZero      (* panic("division by zero") in gfDiv *)
  | IndexOutOfRange     (* run-time: index out of range *)
  | NegativeLen         (* run-time: makeslice: len out of range *)
  | ImageDimensions     (* image: NewPaletted Rectangle has huge or
                           negative dimensions *)
  | OutOfMemory         (* run-time: out of memory (fatal) *)
  | LoopFuel.           (* model only: a bounded loop ran out of fuel *)

Inductive outcome (A : Type) : Type :=
  | Ok (a : A)
  | Panic (p : panic).
Arguments Ok {A} a.
Arguments Panic {A} p.

Definition obind {A B} (m : outcome A) (k : A → outcome B) : outcome B :=
  match m with
  | Ok a => k a
  | Panic p => Panic p
  end.

(** [var ( expTable [256]int; logTable [256]int )] *)
Record Tables : Type := mkTables { expTable : list Z; logTable : list Z }.

(** Go zero-initialises package-level arrays. *)
Definition zeroTables : Tables :=
  {| expTable := replicate 256 0; logTable := replicate 256 0 |}.

(** Computations over the table store that may panic. *)
Definition M (A : Type) : Type := Tables → outcome A * Tables.

Definition ret {A} (a : A) : M A := λ t, (Ok a, t).
Definition raise {A} (p : panic) : M A := λ t, (Panic p, t).
Definition bind {A B} (m : M A) (k : A → M B) : M B :=
  λ t, match m t with
       | (Ok a, t') => k a t'
       | (Panic p, t') => (Panic p, t')
       end.
Definition liftO {A} (o : outcome A) : M A := λ t, (o, t).

Declare Scope go_scope.
Delimit Scope go_scope with go.
Notation "x <- m ;; k" := (bind m (λ x, k))
  (at level 20, m at level 99, k at level 200) : go_scope.
Notation "x <~ m ;; k" := (obind m (λ x, k))
  (at level 20, m at level 99, k at level 200) : go_scope.
Notation "' pat <~ m ;; k" :=
  (obind m (λ x, match x with pat => k end))
  (at level 20, pat pattern, m at level 99, k at level 200) : go_scope.
Local Open Scope go_scope.

(** [a[i]] as an r-value and [a[i] = v]; both panic out of range. *)
Definition index {A} (a : list A) (i : Z) : outcome A :=
  if decide (0 ≤ i) then
    match a !! Z.to_nat i with
    | Some v => Ok v
    | None => Panic IndexOutOfRange
    end
  else Panic IndexOutOfRange.

Definition assign {A} (a : list A) (i : Z) (v : A) : outcome (list A) :=
  if decide (0 ≤ i < Z.of_nat (length a)) then Ok (<[Z.to_nat i := v]> a)
  else Panic IndexOutOfRange.

(** [make([]T, n)]: panics when [n] is negative. *)
Definition make {A} (zero : A) (n : Z) : outcome (list A) :=
  if decide (0 ≤ n) then Ok (replicate (Z.to_nat n) zero)
  else Panic NegativeLen.

(** [for i := lo; i < hi; i++ { s = body i s }] *)
Fixpoint forN {S} (n : nat) (i : Z) (body : Z → S → M S) (s : S) : M S :=
  match n with
  | O => ret s
  | Datatypes.S n' => s' <- body i s ;; forN n' (i + 1) body s'
  end.
Definition forZ {S} (lo hi : Z) (body : Z → S → M S) (s : S) : M S :=
  forN (Z.to_nat (hi - lo)) lo body s.

(** Loops of code that never touches the tables: [ix] lists the values
    the loop variable takes, in order. *)
Definition loop {S} (ix : list Z) (body : Z → S → S) (s : S) : S :=
  foldl (λ s i, body i s) s ix.
Fixpoint oloop {S} (ix : list Z) (body : Z → S → outcome S) (s : S)
  : outcome S :=
  match ix with
  | [] => Ok s
  | i :: ix' => s' <~ body i s ;; oloop ix' body s'
  end.

(** [lo, lo+1, ..., hi-1] and [hi, hi-1, ..., lo]. *)
Definition range (lo hi : Z) : list Z := seqZ lo (hi - lo).
Definition downRange (hi lo : Z) : list Z := reverse (seqZ lo (hi - lo + 1)).

(** Reads and writes of the two package-level arrays. *)
Definition readExp (i : Z) : M Z := λ t, (index (expTable t) i, t).
Definition readLog (i : Z) : M Z := λ t, (index (logTable t) i, t).
Definition writeExp (i v : Z) : M unit := λ t,
  match assign (expTable t) i v with
  | Ok e => (Ok (), {| expTable := e; logTable := logTable t |})
  | Panic p => (Panic p, t)
  end.
Definition writeLog (i v : Z) : M unit := λ t,
  match assign (logTable t) i v with
  | Ok l => (Ok (), {| expTable := expTable t; logTable := l |})
  | Panic p => (Panic p, t)
  end.

(** ** reedsolomon.go *)

(** [func init()]: the loop state is the local [val]. *)
Definition init : M unit :=
  _ <- forZ 0 255 (λ i val,
         _ <- writeExp i val ;;
         _ <- writeLog val i ;;
         let val := val * 2 in
         let val := if decide (256 ≤ val) then Z.lxor val 0x11D else val in
         ret val) 1 ;;
  ret ().

(** The store every later call of the package runs in. *)
Definition initTables : Tables := (init zeroTables).2.

Definition gfAdd (x y : Z) : Z := Z.lxor x y.
Definition gfSub (x y : Z) : Z := Z.lxor x y.

Definition gfMul (x y : Z) : M Z :=
  if decide (x = 0 ∨ y = 0) then ret 0
  else
    lx <- readLog x ;;
    ly <- readLog y ;;
    readExp ((lx + ly) `rem` 255).

Definition gfDiv (x y : Z) : M Z :=
  if decide (y = 0) then raise DivisionByZero
  else if decide (x = 0) then ret 0
  else
    lx <- readLog x ;;
    ly <- readLog y ;;
    readExp ((lx + 255 - ly) `rem` 255).

(** [len(a)] as a Go [int]. *)
Definition len {A} (a : list A) : Z := Z.of_nat (length a).

(** [copy(dst, src)]: the first [min(len(dst), len(src))] elements. *)
Definition copy {A} (dst src : list A) : list A :=
  take (length dst) src ++ drop (length src) dst.

(** [a[k:]]: panics unless [0 <= k <= len(a)]. *)
Definition sliceFrom {A} (a : list A) (k : Z) : outcome (list A) :=
  if decide (0 ≤ k ≤ len a) then Ok (drop (Z.to_nat k) a)
  else Panic IndexOutOfRange.

(** [dst[k] ^= gfMul(x, y)], the statement both polynomial loops repeat. *)
Definition xorMulAt (dst : list Z) (k x y : Z) : M (list Z) :=
  m <- gfMul x y ;;
  old <- liftO (index dst k) ;;
  liftO (assign dst k (Z.lxor old m)).

Definition gfPolyMul (p q : list Z) : M (list Z) :=
  res <- liftO (make 0 (len p + len q - 1)) ;;
  forZ 0 (len p) (λ i res,
    forZ 0 (len q) (λ j res,
      pi <- liftO (index p i) ;;
      qj <- liftO (index q j) ;;
      xorMulAt res (i + j) pi qj) res) res.

Definition GenerateGeneratorPoly (numECCodewords : Z) : M (list Z) :=
  forZ 0 numECCodewords (λ i gen,
    a <- readExp i ;;
    gfPolyMul gen [1; a]) [1].

Definition CalculateECCodewords (data : list Z) (numECCodewords : Z)
  : M (list Z) :=
  generator <- GenerateGeneratorPoly numECCodewords ;;
  msg <- liftO (make 0 (len data + numECCodewords)) ;;
  let msg := copy msg data in
  remainder <- liftO (make 0 (len data + numECCodewords)) ;;
  let remainder := copy remainder data in
  remainder <- forZ 0 (len data) (λ i remainder,
    coef <- liftO (index remainder i) ;;
    if decide (coef ≠ 0) then
      forZ 0 (len generator) (λ j remainder,
        gj <- liftO (index generator j) ;;
        xorMulAt remainder (i + j) gj coef) remainder
    else ret remainder) remainder ;;
  liftO (sliceFrom remainder (len data)).

(** ** The encoder *)

Definition ModeNumeric : Z := 1.
Definition ModeAlphanumeric : Z := 2.
Definition ModeByte : Z := 4.
Definition ModeKanji : Z := 8.
Definition ModeECI : Z := 7.

Definition LevelL : Z := 1.
Definition LevelM : Z := 0.
Definition LevelQ : Z := 3.
Definition LevelH : Z := 2.

Record VersionInfo : Type := mkVersionInfo {
  TotalCodewords : Z;
  ECCodewords : Z;
  Blocks : Z
}.

Definition versionTable : gmap Z (gmap Z VersionInfo) :=
  <[1 := <[LevelL := mkVersionInfo 26 7 1]> (
         <[LevelM := mkVersionInfo 26 10 1]> (
         <[LevelQ := mkVersionInfo 26 13 1]> (
         <[LevelH := mkVersionInfo 26 17 1]> ∅)))]> (
  <[2 := <[LevelL := mkVersionInfo 44 10 1]> (
         <[LevelM := mkVersionInfo 44 16 1]> (
         <[LevelQ := mkVersionInfo 44 22 1]> (
         <[LevelH := mkVersionInfo 44 28 1]> ∅)))]> (
  <[3 := <[LevelL := mkVersionInfo 70 15 1]> (
         <[LevelM := mkVersionInfo 70 26 1]> (
         <[LevelQ := mkVersionInfo 70 36 2]> (
         <[LevelH := mkVersionInfo 70 44 2]> ∅)))]> (
  <[4 := <[LevelL := mkVersionInfo 100 20 1]> (
         <[LevelM := mkVersionInfo 100 36 2]> (
         <[LevelQ := mkVersionInfo 100 52 2]> (
         <[LevelH := mkVersionInfo 100 64 4]> ∅)))]> ∅))).

(** [versionTable[ver][level]]: a missing key at either level reads as the
    zero value of [VersionInfo]. *)
Definition versionInfoAt (ver level : Z) : VersionInfo :=
  default (mkVersionInfo 0 0 0) (versionTable !! ver ≫= (.!! level)).

Record QRCode : Type := mkQRCode {
  Version : Z;
  Level : Z;
  Size : Z;
  Modules : list (list bool)
}.

(** [errors.New("content too long or requires block interleaving (not
    implemented)")], the only [error] value [NewQRCode] returns. *)
Inductive error : Type := ErrContentTooLong.

(** *** BitBuffer *)

Record BitBuffer : Type := mkBitBuffer { Bits : list bool }.

Definition NewBitBuffer : BitBuffer := mkBitBuffer [].

Definition Put (b : BitBuffer) (num length : Z) : BitBuffer :=
  loop (range 0 length) (λ i b,
    mkBitBuffer
      (Bits b ++ [bool_decide (Z.land (num ≫ (length - 1 - i)) 1 = 1)])) b.

Definition Len (b : BitBuffer) : Z := len (Bits b).

(** *** calculateBCHFormat *)

Definition calculateBCHFormat (data : Z) : Z :=
  let d := data ≪ 10 in
  let g := 0x537 in
  let d := loop (downRange 4 0) (λ i d,
             if decide (Z.land (d ≫ (i + 10)) 1 = 1)
             then Z.lxor d (g ≪ i) else d) d in
  Z.lxor (Z.lor (data ≪ 10) d) 0x5412.

(** *** NewQRCode, phase by phase *)

(** [[]byte(content)] *)
Definition bytesOf (content : string) : list Z :=
  (λ a, Z.of_N (Ascii.N_of_ascii a)) <$> String.list_ascii_of_string content.

(** The loop [for ver := 1; ver <= 4; ver++] with its [continue] and
    [break]; [n] counts the versions still to try. *)
Fixpoint chooseVersionFrom (n : nat) (ver : Z) (data : list Z) (level : Z)
  : option (Z * VersionInfo) :=
  match n with
  | O => None
  | S n' =>
      let info := versionInfoAt ver level in
      if decide (Blocks info > 1) then
        chooseVersionFrom n' (ver + 1) data level
      else
        let totalDataBits := 4 + 8 + len data * 8 in
        if decide (totalDataBits ≤ (TotalCodewords info - ECCodewords info) * 8)
        then Some (ver, info)
        else chooseVersionFrom n' (ver + 1) data level
  end.

Definition chooseVersion (data : list Z) (level : Z)
  : option (Z * VersionInfo) :=
  chooseVersionFrom 4 1 data level.

(** Data Encoding: mode indicator, count, payload bytes. *)
Definition encodeSegment (data : list Z) : BitBuffer :=
  let bitBuffer := NewBitBuffer in
  let bitBuffer := Put bitBuffer ModeByte 4 in
  let bitBuffer := Put bitBuffer (len data) 8 in
  foldl (λ bitBuffer b, Put bitBuffer b 8) bitBuffer data.

Definition padBytes : list Z := [0xEC; 0x11].

(** [for bitBuffer.Len() < dataCapacityBits { ... }] *)
Fixpoint padLoop (fuel : nat) (dataCapacityBits : Z) (bitBuffer : BitBuffer)
    (padIdx : Z) : outcome BitBuffer :=
  if decide (Len bitBuffer < dataCapacityBits) then
    match fuel with
    | O => Panic LoopFuel
    | S fuel' =>
        pad <~ index padBytes padIdx ;;
        padLoop fuel' dataCapacityBits (Put bitBuffer pad 8)
          ((padIdx + 1) `rem` 2)
    end
  else Ok bitBuffer.

(** Terminator and Padding. *)
Definition terminate (dataCapacityBits : Z) (bitBuffer : BitBuffer)
  : BitBuffer :=
  if decide (Len bitBuffer < dataCapacityBits) then
    let term := 4 in
    let term := if decide (Len bitBuffer + term > dataCapacityBits)
                then dataCapacityBits - Len bitBuffer else term in
    Put bitBuffer 0 term
  else bitBuffer.

Definition byteAlign (bitBuffer : BitBuffer) : BitBuffer :=
  if decide (Len bitBuffer `rem` 8 ≠ 0)
  then Put bitBuffer 0 (8 - Len bitBuffer `rem` 8)
  else bitBuffer.

Definition padData (vInfo : VersionInfo) (bitBuffer : BitBuffer)
  : outcome BitBuffer :=
  let dataCapacityBits := (TotalCodewords vInfo - ECCodewords vInfo) * 8 in
  let bitBuffer := terminate dataCapacityBits bitBuffer in
  let bitBuffer := byteAlign bitBuffer in
  padLoop (Z.to_nat dataCapacityBits) dataCapacityBits bitBuffer 0.

(** Convert bits to bytes: [for i := 0; i < len(bits); i += 8]. *)
Definition toCodewords (bits : list bool) : list Z :=
  loop ((λ k, 8 * k) <$> range 0 ((len bits + 7) `quot` 8))
    (λ i dataCodewords,
      let val := loop (range 0 8) (λ j val,
                   if decide (i + j < len bits ∧
                              bits !! Z.to_nat (i + j) = Some true)
                   then Z.lor val (1 ≪ (7 - j)) else val) 0 in
      dataCodewords ++ [val]) [].

(** *** Matrix Construction *)

(** [qr.Modules] and the local [isFunction], both [[][]bool] with one
    freshly made row per index (no two rows alias). *)
Record canvas : Type := mkCanvas {
  modules : list (list bool);
  isFunction : list (list bool)
}.

Definition get2 (g : list (list bool)) (r c : Z) : outcome bool :=
  row <~ index g r ;; index row c.
Definition set2 (g : list (list bool)) (r c : Z) (b : bool)
  : outcome (list (list bool)) :=
  row <~ index g r ;;
  row <~ assign row c b ;;
  assign g r row.

(** [isFunction[r][c] = true], [qr.Modules[r][c] = b], [isFunction[r][c]] *)
Definition markFunction (cv : canvas) (r c : Z) : outcome canvas :=
  f <~ set2 (isFunction cv) r c true ;; Ok (mkCanvas (modules cv) f).
Definition setModule (cv : canvas) (r c : Z) (b : bool) : outcome canvas :=
  m <~ set2 (modules cv) r c b ;; Ok (mkCanvas m (isFunction cv)).
Definition isFunctionAt (cv : canvas) (r c : Z) : outcome bool :=
  get2 (isFunction cv) r c.

Definition newCanvas (size : Z) : outcome canvas :=
  m <~ make ([] : list bool) size ;;
  let m := (λ _, replicate (Z.to_nat size) false) <$> m in
  f <~ make ([] : list bool) size ;;
  let f := (λ _, replicate (Z.to_nat size) false) <$> f in
  Ok (mkCanvas m f).

Definition addFinderPattern (size r c : Z) (cv : canvas) : outcome canvas :=
  oloop (range 0 7) (λ i cv,
    oloop (range 0 7) (λ j cv,
      if decide (size ≤ r + i ∨ size ≤ c + j ∨ r + i < 0 ∨ c + j < 0)
      then Ok cv
      else
        cv <~ markFunction cv (r + i) (c + j) ;;
        if decide (i = 0 ∨ i = 6 ∨ j = 0 ∨ j = 6 ∨
                   (2 ≤ i ∧ i ≤ 4 ∧ 2 ≤ j ∧ j ≤ 4))
        then setModule cv (r + i) (c + j) true
        else setModule cv (r + i) (c + j) false) cv) cv.

(** [isFunction[r][c] = true; qr.Modules[r][c] = false] *)
Definition separatorCell (cv : canvas) (r c : Z) : outcome canvas :=
  cv <~ markFunction cv r c ;; setModule cv r c false.

Definition addSeparators (size : Z) (cv : canvas) : outcome canvas :=
  (* Top Left *)
  cv <~ oloop (range 0 8) (λ i cv,
    cv <~ (if decide (i < size ∧ 7 < size)
           then separatorCell cv i 7 else Ok cv) ;;
    if decide (i < size ∧ 7 < size)
    then separatorCell cv 7 i else Ok cv) cv ;;
  (* Top Right *)
  cv <~ oloop (range 0 8) (λ i cv,
    cv <~ (if decide (i < size ∧ 0 ≤ size - 8)
           then separatorCell cv i (size - 8) else Ok cv) ;;
    if decide (0 ≤ size - 1 - i ∧ 7 < size)
    then separatorCell cv 7 (size - 1 - i) else Ok cv) cv ;;
  (* Bottom Left *)
  oloop (range 0 8) (λ i cv,
    cv <~ (if decide (0 ≤ size - 1 - i ∧ 7 < size)
           then separatorCell cv (size - 1 - i) 7 else Ok cv) ;;
    if decide (i < size ∧ 0 ≤ size - 8)
    then separatorCell cv (size - 8) i else Ok cv) cv.

Definition addAlignmentPatterns (v size : Z) (cv : canvas) : outcome canvas :=
  if decide (2 ≤ v) then
    let locs : list Z :=
      match v with
      | 2 => [6; 18]
      | 3 => [6; 22]
      | 4 => [6; 26]
      | _ => []
      end in
    oloop locs (λ cx cv,
      oloop locs (λ cy cv,
        if decide ((cx < 9 ∧ cy < 9) ∨ (cx < 9 ∧ cy > size - 9) ∨
                   (cx > size - 9 ∧ cy < 9))
        then Ok cv
        else
          oloop (range (-2) 3) (λ i cv,
            oloop (range (-2) 3) (λ j cv,
              let r := cy + i in
              let c := cx + j in
              isF <~ isFunctionAt cv r c ;;
              if negb isF then
                cv <~ markFunction cv r c ;;
                if decide (i = -2 ∨ i = 2 ∨ j = -2 ∨ j = 2 ∨ (i = 0 ∧ j = 0))
                then setModule cv r c true
                else setModule cv r c false
              else Ok cv) cv) cv) cv) cv
  else Ok cv.

Definition addTimingPatterns (size : Z) (cv : canvas) : outcome canvas :=
  oloop (range 8 (size - 8)) (λ i cv,
    isF <~ isFunctionAt cv 6 i ;;
    cv <~ (if negb isF then
             cv <~ markFunction cv 6 i ;;
             setModule cv 6 i (bool_decide (i `rem` 2 = 0))
           else Ok cv) ;;
    isF <~ isFunctionAt cv i 6 ;;
    if negb isF then
      cv <~ markFunction cv i 6 ;;
      setModule cv i 6 (bool_decide (i `rem` 2 = 0))
    else Ok cv) cv.

Definition addDarkModule (size : Z) (cv : canvas) : outcome canvas :=
  cv <~ markFunction cv (size - 8) 8 ;;
  setModule cv (size - 8) 8 true.

(** [if !isFunction[r][c] { isFunction[r][c] = true }] *)
Definition reserveCell (cv : canvas) (r c : Z) : outcome canvas :=
  isF <~ isFunctionAt cv r c ;;
  if negb isF then markFunction cv r c else Ok cv.

Definition reserveFormatAreas (size : Z) (cv : canvas) : outcome canvas :=
  (* Around Top-Left Finder *)
  cv <~ oloop (range 0 9) (λ i cv,
    cv <~ reserveCell cv 8 i ;;
    reserveCell cv i 8) cv ;;
  (* Below Top-Right Finder *)
  cv <~ oloop (range 0 8) (λ i cv, reserveCell cv 8 (size - 1 - i)) cv ;;
  (* Right of Bottom-Left Finder *)
  oloop (range 0 7) (λ i cv, reserveCell cv (size - 1 - i) 8) cv.

(** The closure [getBit]. *)
Definition getBit (finalMessage : list Z) (k : Z) : outcome bool :=
  let byteIdx := k `quot` 8 in
  let bitIdx := 7 - k `rem` 8 in
  byte <~ index finalMessage byteIdx ;;
  Ok (bool_decide (Z.land (byte ≫ bitIdx) 1 = 1)).

(** The body of the zig-zag for one column pair; the state is the canvas
    and the running [idx]. *)
Definition placeColumnPair (size col : Z) (finalMessage : list Z)
    (totalBits : Z) (st : canvas * Z) : outcome (canvas * Z) :=
  oloop (range 0 size) (λ rowIter st,
    let r := rowIter in
    let r := if decide (((col + 1) `quot` 2) `rem` 2 = 0)
             then size - 1 - rowIter else r in
    oloop (downRange col (col - 1)) (λ c '(cv, idx),
      isF <~ isFunctionAt cv r c ;;
      if negb isF then
        let bit := false in
        '(bit, idx) <~ (if decide (idx < totalBits)
                        then b <~ getBit finalMessage idx ;; Ok (b, idx + 1)
                        else Ok (bit, idx)) ;;
        let mask := bool_decide ((r + c) `rem` 2 = 0) in
        let bit := if mask then negb bit else bit in
        cv <~ setModule cv r c bit ;;
        Ok (cv, idx)
      else Ok (cv, idx)) st) st.

(** [for col := qr.Size - 1; col > 0; col -= 2 { if col == 6 { col-- } ... }] *)
Fixpoint placeColumns (fuel : nat) (size col : Z) (finalMessage : list Z)
    (totalBits : Z) (st : canvas * Z) : outcome (canvas * Z) :=
  if decide (col > 0) then
    match fuel with
    | O => Panic LoopFuel
    | S fuel' =>
        let col := if decide (col = 6) then col - 1 else col in
        st <~ placeColumnPair size col finalMessage totalBits st ;;
        placeColumns fuel' size (col - 2) finalMessage totalBits st
    end
  else Ok st.

Definition placeData (size : Z) (finalMessage : list Z) (cv : canvas)
  : outcome canvas :=
  let idx := 0 in
  let totalBits := len finalMessage * 8 in
  '(cv, _) <~ placeColumns (Z.to_nat size) size (size - 1) finalMessage
                totalBits (cv, idx) ;;
  Ok cv.

Definition maskPattern : Z := 0.

Definition ecBitsOf (level : Z) : Z :=
  match level with
  | 1 => 1   (* LevelL *)
  | 0 => 0   (* LevelM *)
  | 3 => 3   (* LevelQ *)
  | 2 => 2   (* LevelH *)
  | _ => 0
  end.

(** The [switch i] of the top-left copy. *)
Definition topLeftCell (i : Z) : option (Z * Z) :=
  match i with
  | 0 => Some (0, 8)
  | 1 => Some (1, 8)
  | 2 => Some (2, 8)
  | 3 => Some (3, 8)
  | 4 => Some (4, 8)
  | 5 => Some (5, 8)
  | 6 => Some (7, 8)
  | 7 => Some (8, 8)
  | 8 => Some (8, 7)
  | 9 => Some (8, 5)
  | 10 => Some (8, 4)
  | 11 => Some (8, 3)
  | 12 => Some (8, 2)
  | 13 => Some (8, 1)
  | 14 => Some (8, 0)
  | _ => None
  end.

(** One turn of [for i := 0; i < 15; i++]: bit [i] of the format word
    goes to its cell of the top-left copy and to its cell of the second
    copy.  The closure [setModule] of the source writes [qr.Modules]
    only. *)
Definition placeFormatBit (size formatPoly i : Z) (cv : canvas)
  : outcome canvas :=
  let bit := bool_decide (Z.land (formatPoly ≫ i) 1 = 1) in
  cv <~ match topLeftCell i with
        | Some (r, c) => setModule cv r c bit
        | None => Ok cv
        end ;;
  if decide (i < 8) then setModule cv 8 (size - 1 - i) bit
  else setModule cv (size - 8 + (i - 8)) 8 bit.

(** Format Information. *)
Definition placeFormat (size level : Z) (cv : canvas) : outcome canvas :=
  let ecBits := ecBitsOf level in
  let formatData := Z.lor (ecBits ≪ 3) maskPattern in
  let formatPoly := calculateBCHFormat formatData in
  oloop (range 0 15) (placeFormatBit size formatPoly) cv.

(** Everything placed before any data: finders, separators, alignment,
    timing, dark module, reserved format areas. *)
Definition functionPatterns (v size : Z) : outcome canvas :=
  cv <~ newCanvas size ;;
  cv <~ addFinderPattern size 0 0 cv ;;
  cv <~ addFinderPattern size 0 (size - 7) cv ;;
  cv <~ addFinderPattern size (size - 7) 0 cv ;;
  cv <~ addSeparators size cv ;;
  cv <~ addAlignmentPatterns v size cv ;;
  cv <~ addTimingPatterns size cv ;;
  cv <~ addDarkModule size cv ;;
  reserveFormatAreas size cv.

Definition buildMatrix (v level : Z) (finalMessage : list Z)
  : outcome QRCode :=
  let size := 21 + 4 * (v - 1) in
  cv <~ functionPatterns v size ;;
  cv <~ placeData size finalMessage cv ;;
  cv <~ placeFormat size level cv ;;
  Ok (mkQRCode v level size (modules cv)).

Definition NewQRCode (content : string) (level : Z) : M (error + QRCode) :=
  let data := bytesOf content in
  match chooseVersion data level with
  | None => ret (inl ErrContentTooLong)
  | Some (v, vInfo) =>
      bitBuffer <- liftO (padData vInfo (encodeSegment data)) ;;
      let dataCodewords := toCodewords (Bits bitBuffer) in
      ecCodewords <- CalculateECCodewords dataCodewords (ECCodewords vInfo) ;;
      let finalMessage := dataCodewords ++ ecCodewords in
      qr <- liftO (buildMatrix v level finalMessage) ;;
      ret (inr qr)
  end.

(** A grid as rows of characters, for reading examples. *)
Definition showGrid (g : list (list bool)) : list string :=
  (λ row, String.concat "" ((λ b : bool, if b then "#" else ".") <$> row))
    <$> g.

(** ** writer.go *)

(** [WritePNG] multiplies by the caller's [scale], so in this file Go's
    [int] arithmetic is written with its wrap-around: 64 bits, two's
    complement (GOARCH amd64 and arm64).  [wrap z] is what an [int]
    operation with the mathematical result [z] yields. *)
Definition wrap (z : Z) : Z := (z + 2 ^ 63) `mod` 2 ^ 64 - 2 ^ 63.

(** The packages [image] and [image/png] of Go's standard library (1.14
    and later), as far as [WritePNG] uses them. *)

(** [image.Rectangle]; [image.Rect] puts the corners in order. *)
Record Rectangle : Type := mkRectangle {
  MinX : Z;
  MinY : Z;
  MaxX : Z;
  MaxY : Z
}.

Definition Rect (x0 y0 x1 y1 : Z) : Rectangle :=
  let '(x0, x1) := if decide (x0 > x1) then (x1, x0) else (x0, x1) in
  let '(y0, y1) := if decide (y0 > y1) then (y1, y0) else (y0, y1) in
  mkRectangle x0 y0 x1 y1.

Definition Dx (r : Rectangle) : Z := wrap (MaxX r - MinX r).
Definition Dy (r : Rectangle) : Z := wrap (MaxY r - MinY r).

(** [bits.Mul64(x, y)] on [uint64] values: the high and the low word of
    the product. *)
Definition Mul64 (x y : Z) : Z * Z :=
  ((x * y) `div` 2 ^ 64, (x * y) `mod` 2 ^ 64).

(** [mul3NonNeg]: [x * y * z], or -1 when an argument is negative or the
    product does not fit an [int]. *)
Definition mul3NonNeg (x y z : Z) : Z :=
  if decide (x < 0 ∨ y < 0 ∨ z < 0) then -1
  else
    let '(hi, lo) := Mul64 x y in
    if decide (hi ≠ 0) then -1
    else
      let '(hi, lo) := Mul64 lo z in
      if decide (hi ≠ 0) then -1
      else
        let a := wrap lo in
        if decide (a < 0) then -1 else a.

(** [pixelBufferLength(bytesPerPixel, r, "Paletted")] *)
Definition pixelBufferLength (bytesPerPixel : Z) (r : Rectangle)
  : outcome Z :=
  let totalLength := mul3NonNeg bytesPerPixel (Dx r) (Dy r) in
  if decide (totalLength < 0) then Panic ImageDimensions
  else Ok totalLength.

(** The run-time's bound on one allocation, [maxAlloc], on linux/amd64. *)
Definition maxAlloc : Z := 2 ^ 48.

(** [make([]uint8, n)] when the run-time can still obtain [avail] bytes:
    a length that is negative or beyond [maxAlloc] panics (makeslice: len
    out of range), one beyond [avail] ends the program (out of memory). *)
Definition makePix (avail n : Z) : outcome (list Z) :=
  if decide (n < 0 ∨ maxAlloc < n) then Panic NegativeLen
  else if decide (avail < n) then Panic OutOfMemory
  else Ok (replicate (Z.to_nat n) 0).

(** [image.Paletted]: [Pix] holds one palette index per pixel, row by
    row, [Stride] indices per row, for the rectangle [Bounds] (the field
    [Rect]); in the palette [WritePNG] passes, index 0 is [color.White]
    and index 1 [color.Black]. *)
Record Paletted : Type := mkPaletted {
  Pix : list Z;
  Stride : Z;
  Bounds : Rectangle
}.

(** [image.NewPaletted(r, palette)] *)
Definition NewPaletted (avail : Z) (r : Rectangle) : outcome Paletted :=
  n <~ pixelBufferLength 1 r ;;
  pix <~ makePix avail n ;;
  Ok (mkPaletted pix (wrap (1 * Dx r)) r).

(** [p.PixOffset(x, y)] *)
Definition PixOffset (p : Paletted) (x y : Z) : Z :=
  wrap (wrap (wrap (y - MinY (Bounds p)) * Stride p)
        + wrap (wrap (x - MinX (Bounds p)) * 1)).

(** [p.SetColorIndex(x, y, index)] and [p.ColorIndexAt(x, y)]: nothing,
    and 0, for a point that is not [In] the rectangle. *)
Definition SetColorIndex (p : Paletted) (x y index : Z) : outcome Paletted :=
  if decide (MinX (Bounds p) ≤ x ∧ x < MaxX (Bounds p) ∧
             MinY (Bounds p) ≤ y ∧ y < MaxY (Bounds p)) then
    pix <~ assign (Pix p) (PixOffset p x y) index ;;
    Ok (mkPaletted pix (Stride p) (Bounds p))
  else Ok p.

Definition ColorIndexAt (p : Paletted) (x y : Z) : outcome Z :=
  if decide (MinX (Bounds p) ≤ x ∧ x < MaxX (Bounds p) ∧
             MinY (Bounds p) ≤ y ∧ y < MaxY (Bounds p)) then
    index (Pix p) (PixOffset p x y)
  else Ok 0.

(** [png.Encode(w, img)], as far as the image decides its result: a
    width or height of 0 or less, or of 2^32 or more, is refused with the
    FormatError "invalid image size"; any other image is encoded and
    written to [w], and the result is the error of [w], if any. *)
Inductive pngResult : Type :=
  | InvalidImageSize (mw mh : Z)
  | Written (img : Paletted).

Definition pngEncode (img : Paletted) : pngResult :=
  let mw := Dx (Bounds img) in
  let mh := Dy (Bounds img) in
  if decide (mw ≤ 0 ∨ mh ≤ 0 ∨ 2 ^ 32 ≤ mw ∨ 2 ^ 32 ≤ mh)
  then InvalidImageSize mw mh
  else Written img.

(** [WritePNG], phase by phase. *)

(** Default to white. *)
Definition whiteFill (img : Paletted) : outcome Paletted :=
  oloop (range 0 (len (Pix img))) (λ i img,
    pix <~ assign (Pix img) i 0 ;;
    Ok (mkPaletted pix (Stride img) (Bounds img))) img.

(** Draw scaled module. *)
Definition drawModule (scale border r c : Z) (img : Paletted)
  : outcome Paletted :=
  let startX := wrap (wrap (c + border) * scale) in
  let startY := wrap (wrap (r + border) * scale) in
  oloop (range 0 scale) (λ y img,
    oloop (range 0 scale) (λ x img,
      SetColorIndex img (wrap (startX + x)) (wrap (startY + y)) 1) img) img.

Definition drawModules (qr : QRCode) (scale border : Z) (img : Paletted)
  : outcome Paletted :=
  oloop (range 0 (Size qr)) (λ r img,
    oloop (range 0 (Size qr)) (λ c img,
      m <~ get2 (Modules qr) r c ;;
      if m then drawModule scale border r c img else Ok img) img) img.

(** [avail] is the memory the run-time can still obtain when the image
    is allocated. *)
Definition WritePNG (avail : Z) (qr : QRCode) (scale : Z)
  : outcome pngResult :=
  let scale := if decide (scale < 1) then 1 else scale in
  let border := 4 in
  let dim := wrap (wrap (Size qr + wrap (2 * border)) * scale) in
  img <~ NewPaletted avail (Rect 0 0 dim dim) ;;
  img <~ whiteFill img ;;
  img <~ drawModules qr scale border img ;;
  Ok (pngEncode img).

(** ** Bit streams, for stating what the encoder writes *)

(** The low [n] bits of [v], most significant first. *)
Fixpoint msbBits (n : nat) (v : Z) : list bool :=
  match n with
  | O => []
  | S n' => Z.testbit v (Z.of_nat n') :: msbBits n' v
  end.

(** [k] pad codewords, alternating, starting with [first]. *)
Fixpoint padCodewords (k : nat) (first second : Z) : list Z :=
  match k with
  | O => []
  | S k' => first :: padCodewords k' second first
  end.

(** A byte stream as bits, each byte most significant bit first. *)
Definition bitStream (codewords : list Z) : list bool :=
  mjoin (msbBits 8 <$> codewords).

(** Capacity of (version, level) in bits, as [NewQRCode] computes it. *)
Definition capacityBits (ver level : Z) : Z :=
  (TotalCodewords (versionInfoAt ver level)
   - ECCodewords (versionInfoAt ver level)) * 8.

(** ** The decoder's side of Reed-Solomon

    [Decode] is not among the sources; what follows is its first step, as
    the specification words it, written with the package's own [gfMul],
    [gfAdd] and [expTable]. *)

(** Modelled from the spec: the outcome of decoding a block, "a tagged
    outcome (corrected-data / uncorrectable)". *)
Inductive rsResult : Type :=
  | Corrected (block : list Z)
  | UncorrectableBlock.

(** Modelled from the spec: the evaluation of the received polynomial
    (the decoder is missing from src/), "evaluating the received
    polynomial at each root"; highest coefficient first, by Horner's
    rule. *)
Definition gfPolyEval (p : list Z) (x : Z) : M Z :=
  forZ 0 (len p) (λ i acc,
    c <- liftO (index p i) ;;
    m <- gfMul acc x ;;
    ret (gfAdd m c)) 0.

(** Modelled from the spec: the syndromes of the missing decoder,
    "compute ecLen syndromes by evaluating the received polynomial at
    each root exp[i], i=0..ecLen-1". *)
Definition syndromes (block : list Z) (ecLen : Z) : M (list Z) :=
  forZ 0 ecLen (λ i syn,
    root <- readExp i ;;
    s <- gfPolyEval block root ;;
    ret (syn ++ [s])) [].

Section Decoder.

(** The error-locating and correcting branch (Berlekamp-Massey, Chien
    search, Forney) is left abstract: nothing here depends on it. *)
Variable correctErrors : list Z → Z → list Z → M rsResult.

(** Modelled from the spec: decode of the missing decoder, "if all
    syndromes are zero, the block is error-free, return as-is.
    Otherwise run the Berlekamp-Massey algorithm ...". *)
Definition rsDecode (block : list Z) (ecLen : Z) : M rsResult :=
  syn <- syndromes block ecLen ;;
  if forallb (λ s, bool_decide (s = 0)) syn then ret (Corrected block)
  else correctErrors block ecLen syn.

End Decoder.

(** ** The decoder, from the specification

    [Decode] is called by the tests and the example but is not among the
    sources.  The definitions below follow the specification's section on
    decoding, step by step, over the package's own tables, generator
    ([calculateBCHFormat]), capacity table and function-pattern rules.
    Two branches that no symbol produced by [NewQRCode] without damage
    reaches are parameters: the Reed-Solomon error correction and the
    segment modes other than byte mode. *)

(** Modelled from the spec: the failures of the missing decoder, its
    "decode entry point" errors; [UnsupportedVersion] stands for a
    version or level outside the capacity table of the sources. *)
Inductive decodeError : Type :=
  | InvalidGridSize
  | FormatInfoUnrecoverable
  | BlockUncorrectable (blockIndex : Z)
  | DataParseError
  | UnsupportedVersion.

(** Modelled from the spec: grid access of the missing decoder; a cell
    outside the grid reads as light. *)
Definition moduleAt (g : list (list bool)) (r c : Z) : bool :=
  match get2 g r c with
  | Ok b => b
  | Panic _ => false
  end.

(** Modelled from the spec: the version of the missing decoder, "derive
    version from (size-21)/4 + 1", for a grid of size 21 + 4k. *)
Definition versionOfSize (size : Z) : option Z :=
  if decide (21 ≤ size ∧ (size - 21) `mod` 4 = 0)
  then Some ((size - 21) `div` 4 + 1) else None.

(** Modelled from the spec: where the missing decoder reads the first
    copy of the format word, "the standard offsets": bit i around the
    top-left finder, as [topLeftCell] has it. *)
Definition formatCell1 (i : Z) : Z * Z := default (0, 0) (topLeftCell i).

(** Modelled from the spec: where the missing decoder reads the second
    copy of the format word, "the standard offsets": bits 0..7 leftwards
    from (8, size-1) and bits 8..14 downwards from (size-7, 8). *)
Definition formatCell2 (size i : Z) : Z * Z :=
  if decide (i < 8) then (8, size - 1 - i) else (size - 7 + (i - 8), 8).

(** Modelled from the spec: one copy of the 15-bit format word as the
    missing decoder reads it, bit [i] from the cell [cellOf i]. *)
Definition readFormatWord (g : list (list bool)) (cellOf : Z → Z * Z) : Z :=
  loop (range 0 15) (λ i w,
    let '(r, c) := cellOf i in
    if moduleAt g r c then Z.lor w (1 ≪ i) else w) 0.

(** Modelled from the spec: the number of bits in which two format words
    differ is the number of set bits, among the low 15, of their xor. *)
Definition weight15 (w : Z) : Z :=
  loop (range 0 15) (λ i n, if Z.testbit w i then n + 1 else n) 0.

(** Modelled from the spec: the BCH correction of the missing decoder,
    "the code can correct up to 3 bit errors": the 5 data bits of the
    format codeword within distance 3 of the word read, if there is one. *)
Definition bchDecode (word : Z) : option Z :=
  List.find (λ formatData,
    bool_decide (weight15 (Z.lxor word (calculateBCHFormat formatData)) ≤ 3))
    (range 0 32).

(** Modelled from the spec: format recovery of the missing decoder, "read
    both copies ... if both copies disagree after correction, fail";
    one readable copy is enough.  The result is (level, mask id). *)
Definition readFormat (g : list (list bool)) (size : Z)
  : decodeError + Z * Z :=
  let f1 := bchDecode (readFormatWord g formatCell1) in
  let f2 := bchDecode (readFormatWord g (formatCell2 size)) in
  match f1, f2 with
  | Some a, Some b =>
      if decide (a = b) then inr (a ≫ 3, Z.land a 7)
      else inl FormatInfoUnrecoverable
  | Some a, None | None, Some a => inr (a ≫ 3, Z.land a 7)
  | None, None => inl FormatInfoUnrecoverable
  end.

(** Modelled from the spec: the 8 mask functions of the missing decoder,
    "defined by parity/modulo conditions on row/column pairs"; mask 0 is
    the one [NewQRCode] applies. *)
Definition maskAt (mask r c : Z) : bool :=
  match mask with
  | 0 => bool_decide ((r + c) `mod` 2 = 0)
  | 1 => bool_decide (r `mod` 2 = 0)
  | 2 => bool_decide (c `mod` 3 = 0)
  | 3 => bool_decide ((r + c) `mod` 3 = 0)
  | 4 => bool_decide ((r `div` 2 + c `div` 3) `mod` 2 = 0)
  | 5 => bool_decide ((r * c) `mod` 2 + (r * c) `mod` 3 = 0)
  | 6 => bool_decide (((r * c) `mod` 2 + (r * c) `mod` 3) `mod` 2 = 0)
  | _ => bool_decide (((r + c) `mod` 2 + (r * c) `mod` 3) `mod` 2 = 0)
  end.

(** Modelled from the spec: the traversal of the missing decoder, "the
    identical zig-zag traversal order used at encode": the cells
    [placeColumns] visits, in its order. *)
Fixpoint zigzagCells (fuel : nat) (size col : Z) : list (Z * Z) :=
  if decide (col > 0) then
    match fuel with
    | O => []
    | S fuel' =>
        let col := if decide (col = 6) then col - 1 else col in
        mjoin ((λ rowIter,
                  let r := if decide (((col + 1) `quot` 2) `rem` 2 = 0)
                           then size - 1 - rowIter else rowIter in
                  [(r, col); (r, col - 1)]) <$> range 0 size)
        ++ zigzagCells fuel' size (col - 2)
    end
  else [].

(** Modelled from the spec: codeword extraction of the missing decoder,
    "pull bits from non-function cells, undo the mask ... accumulate into
    a codeword stream"; function cells are those [functionPatterns]
    marks, "same rules as encode". *)
Definition readDataBits (g fn : list (list bool)) (size mask : Z)
  : list bool :=
  omap (λ '(r, c),
    if moduleAt fn r c then None
    else Some (xorb (moduleAt g r c) (maskAt mask r c)))
    (zigzagCells (Z.to_nat size) size (size - 1)).

(** Modelled from the spec: the split of the stream "back into the same
    interleaved block structure": codeword [i] of block [b] of [n] equal
    blocks is the [b + i*n]-th of its part (data, then EC). *)
Definition deinterleave (codewords : list Z) (n dataLen ecLen : Z) (b : Z)
  : list Z :=
  ((λ i, default 0 (codewords !! Z.to_nat (b + i * n)))
     <$> range 0 dataLen) ++
  ((λ i, default 0 (codewords !! Z.to_nat (n * dataLen + b + i * n)))
     <$> range 0 ecLen).

(** Modelled from the spec: the integer a bit string of the missing
    decoder's stream spells, "MSB-first". *)
Definition bitsToZ (bits : list bool) : Z :=
  foldl (λ v (b : bool), 2 * v + (if b then 1 else 0)) 0 bits.

Section Decode.

(** The two branches left abstract. *)
Variable correctErrors : list Z → Z → list Z → M rsResult.
Variable otherMode : Z → Z → list bool → list Z → decodeError + list Z.

(** Modelled from the spec: the data parser of the missing decoder,
    "read 4-bit mode, the matching count indicator, then count units of
    payload ... stops at the first terminator or when no further full
    segment header is present"; the count of a byte segment has 8 bits
    up to version 9 and 16 above. *)
Fixpoint parseSegments (fuel : nat) (version : Z) (bits : list bool)
    (acc : list Z) : decodeError + list Z :=
  match fuel with
  | O => inr acc
  | S fuel' =>
      if decide (len bits < 4) then inr acc
      else
        let mode := bitsToZ (take 4 bits) in
        let bits := drop 4 bits in
        if decide (mode = 0) then inr acc
        else if decide (mode = ModeByte) then
          let countBits := if decide (version ≤ 9) then 8 else 16 in
          if decide (len bits < countBits) then inl DataParseError
          else
            let count := bitsToZ (take (Z.to_nat countBits) bits) in
            let bits := drop (Z.to_nat countBits) bits in
            if decide (len bits < 8 * count) then inl DataParseError
            else
              let payload := take (Z.to_nat (8 * count)) bits in
              parseSegments fuel' version
                (drop (Z.to_nat (8 * count)) bits)
                (acc ++ toCodewords payload)
        else otherMode mode version bits acc
  end.

(** Modelled from the spec: the per-block pass of the missing decoder,
    "pass each block through ReedSolomonCodec.decode, and concatenate
    corrected data codewords in original block order". *)
Fixpoint decodeBlocks (codewords : list Z) (n dataLen ecLen : Z)
    (blocks : list Z) : M (decodeError + list Z) :=
  match blocks with
  | [] => ret (inr [])
  | b :: blocks' =>
      r <- rsDecode correctErrors
             (deinterleave codewords n dataLen ecLen b) ecLen ;;
      match r with
      | UncorrectableBlock => ret (inl (BlockUncorrectable b))
      | Corrected block =>
          rest <- decodeBlocks codewords n dataLen ecLen blocks' ;;
          match rest with
          | inl e => ret (inl e)
          | inr data => ret (inr (take (Z.to_nat dataLen) block ++ data))
          end
      end
  end.

(** Modelled from the spec: decode of a module grid by the missing
    decoder, in the order the specification gives: version from the
    size, format word, function cells, data bits, blocks, segments. *)
Definition decodeGrid (g : list (list bool)) : M (decodeError + list Z) :=
  let size := len g in
  match versionOfSize size with
  | None => ret (inl InvalidGridSize)
  | Some version =>
      match readFormat g size with
      | inl e => ret (inl e)
      | inr (level, mask) =>
          let info := versionInfoAt version level in
          match functionPatterns version size with
          | Panic _ => ret (inl UnsupportedVersion)
          | Ok cv =>
              if decide (Blocks info < 1) then ret (inl UnsupportedVersion)
              else
                let bits := readDataBits g (isFunction cv) size mask in
                let codewords :=
                  take (Z.to_nat (TotalCodewords info)) (toCodewords bits) in
                let n := Blocks info in
                let dataLen :=
                  (TotalCodewords info - ECCodewords info) `div` n in
                let ecLen := ECCodewords info `div` n in
                r <- decodeBlocks codewords n dataLen ecLen (range 0 n) ;;
                match r with
                | inl e => ret (inl e)
                | inr data =>
                    let dataBits := bitStream data in
                    ret (parseSegments (length dataBits) version dataBits [])
                end
          end
      end
  end.

End Decode.

(** * Definitions for the proofs *)

(** ** Proof-level views of the initialised tables

    The tables [init] leaves behind, as a value, and total readers of
    them; [gmul] is what [gfMul] returns on these tables. *)

Definition tableValues : Tables := Eval vm_compute in initTables.

Definition expAt (i : Z) : Z :=
  default 0 (expTable tableValues !! Z.to_nat i).
Definition logAt (x : Z) : Z :=
  default 0 (logTable tableValues !! Z.to_nat x).
Definition gmul (x y : Z) : Z :=
  if decide (x = 0 ∨ y = 0) then 0
  else expAt ((logAt x + logAt y) `mod` 255).

Definition okWith (o : outcome Z) (v : Z) : bool :=
  match o with
  | Ok a => bool_decide (a = v)
  | Panic _ => false
  end.

(** A computation that leaves the store as it found it. *)
Definition readonly {A} (m : M A) : Prop := ∀ t, (m t).2 = t.

(** [m], started in the initialised tables, returns [a] (and, as every
    operation after [init], leaves the tables alone). *)
Definition runs {A} (m : M A) (a : A) : Prop :=
  m initTables = (Ok a, initTables).

(** Multiplication by the generator 2 of the field, bit by bit: shift,
    and reduce by the primitive polynomial when bit 7 was set. *)
Definition dbl (y : Z) : Z :=
  Z.lxor (y ≪ 1) (if Z.testbit y 7 then 0x11D else 0).

(** Field elements as Go stores them. *)
Definition byteVal (v : Z) : Prop := 0 ≤ v < 256.
Definition byteList (l : list Z) : Prop := Forall byteVal l.

(** [x^n] in the field, and a polynomial (highest coefficient first, as
    the package keeps them) evaluated at [x] by Horner's rule. *)
Fixpoint gpow (x : Z) (n : nat) : Z :=
  match n with
  | O => 1
  | S n' => gmul x (gpow x n')
  end.
Definition hornerStep (x acc c : Z) : Z := Z.lxor (gmul acc x) c.
Definition peval (p : list Z) (x : Z) : Z := foldl (hornerStep x) 0 p.
Definition pxor (a b : list Z) : list Z := zip_with Z.lxor a b.

(** ** GF(2) polynomials as bit vectors

    What "remainder under GF(2) polynomial division" and "multiple of the
    generator" mean for the BCH format word: bit [i] of a word is the
    coefficient of [x^i]. *)

(** Carry-less product: the xor of [b] shifted to every set bit of [a]. *)
Definition clmul (a b : Z) : Z :=
  foldl (λ acc i, if Z.testbit a i then Z.lxor acc (b ≪ i) else acc)
        0 (seqZ 0 (Z.log2 a + 1)).

(** Long division: cancel the leading term of [a] with [g] shifted under
    it, from the top degree of [a] down to the degree of [g]. *)
Definition gf2Mod (a g : Z) : Z :=
  foldl (λ r i, if Z.testbit r (i + Z.log2 g) then Z.lxor r (g ≪ i) else r)
        a (reverse (seqZ 0 (Z.log2 a - Z.log2 g + 1))).

(** ** Well-formed grids *)

(** A [size] x [size] grid, and a canvas of two of them. *)
Definition squareGrid (size : Z) (g : list (list bool)) : Prop :=
  len g = size ∧ Forall (λ row, len row = size) g.
Definition wfCanvas (size : Z) (cv : canvas) : Prop :=
  squareGrid size (modules cv) ∧ squareGrid size (isFunction cv).

Definition squareGridb (size : Z) (g : list (list bool)) : bool :=
  bool_decide (len g = size) &&
  forallb (λ row, bool_decide (len row = size)) g.

(** ** Version selection, as specified and as implemented *)

(** Bits of the byte-mode segment with its header (4-bit mode, 8-bit
    count) and the 4-bit terminator. *)
Definition segmentBits (data : list Z) : Z := 4 + 8 + 8 * len data + 4.

(** The rule in the specification's words: the smallest version of 1..40
    whose data capacity holds the segment. *)
Definition specSelects (data : list Z) (level v : Z) : Prop :=
  1 ≤ v ≤ 40 ∧ segmentBits data ≤ capacityBits v level ∧
  ∀ v', 1 ≤ v' < v → capacityBits v' level < segmentBits data.

(** What [NewQRCode] asks of a version: a single block and room for the
    segment. *)
Definition fits (data : list Z) (level v : Z) : Prop :=
  Blocks (versionInfoAt v level) ≤ 1 ∧
  segmentBits data ≤ capacityBits v level.

Definition thirtyBytes : string := "123456789012345678901234567890".

(** The content of [TestQRVersion2]. *)
Definition v2TestContent : string :=
  "This is a longer string for V2 QR Code!!".

(** The symbol [NewQRCode] returns on the initialised tables, if any. *)
Definition encoded (content : string) (level : Z) : option QRCode :=
  match (NewQRCode content level initTables).1 with
  | Ok (inr qr) => Some qr
  | _ => None
  end.

(** The module at row [r], column [c] of a symbol is dark. *)
Definition darkAt (qr : QRCode) (r c : Z) : Prop :=
  0 ≤ r < Size qr ∧ 0 ≤ c < Size qr ∧ get2 (Modules qr) r c = Ok true.

(** [img] is a [dim] x [dim] image whose foreground pixels are exactly
    those in [D]. *)
Definition paints (dim : Z) (img : Paletted) (D : Z → Z → Prop) : Prop :=
  Stride img = dim ∧ Bounds img = mkRectangle 0 0 dim dim ∧
  len (Pix img) = dim * dim ∧ dim * dim ≤ maxAlloc ∧
  ∀ x y, 0 ≤ x < dim → 0 ≤ y < dim →
    ∃ v, ColorIndexAt img x y = Ok v ∧ (v = 0 ∨ v = 1) ∧ (v = 1 ↔ D x y).

(** An image of [n] pixels can be allocated: [n] bytes are within the
    run-time's bound on one allocation and within the memory at hand. *)
Definition allocatable (avail n : Z) : Prop := n ≤ maxAlloc ∧ n ≤ avail.

(** The pixels of the module square of row [r], column [c]. *)
Definition cell (scale r c x y : Z) : Prop :=
  (c + 4) * scale ≤ x < (c + 5) * scale ∧
  (r + 4) * scale ≤ y < (r + 5) * scale.

(** A two-by-two grid, for an example of the rasterizer. *)
Definition tinySymbol : QRCode :=
  mkQRCode 1 LevelL 2 [[true; false]; [false; true]].


(** The codeword [toCodewords] reads at bit offset [i], and the value of a
    block of at most eight bits, most significant first. *)
Definition byteAt (bits : list bool) (i : Z) : Z :=
  loop (range 0 8) (λ j val,
    if decide (i + j < len bits ∧ bits !! Z.to_nat (i + j) = Some true)
    then Z.lor val (1 ≪ (7 - j)) else val) 0.
Definition byteOf (chunk : list bool) : Z :=
  loop (range 0 8) (λ j val,
    if decide (chunk !! Z.to_nat j = Some true)
    then Z.lor val (1 ≪ (7 - j)) else val) 0.


(** The version [NewQRCode] ends up with, by level and content length in
    bytes, as the capacities of the single-block entries of [versionTable]
    work out. *)
Definition versionForLength (level n : Z) : option Z :=
  if decide (level = LevelL) then
    if decide (n ≤ 17) then Some 1 else if decide (n ≤ 32) then Some 2
    else if decide (n ≤ 53) then Some 3 else if decide (n ≤ 78) then Some 4
    else None
  else if decide (level = LevelM) then
    if decide (n ≤ 14) then Some 1 else if decide (n ≤ 26) then Some 2
    else if decide (n ≤ 42) then Some 3 else None
  else if decide (level = LevelQ) then
    if decide (n ≤ 11) then Some 1 else if decide (n ≤ 20) then Some 2
    else None
  else if decide (level = LevelH) then
    if decide (n ≤ 7) then Some 1 else if decide (n ≤ 14) then Some 2
    else None
  else None.


(** Turn [i] of the format loop writes the module at [(row, col)]. *)
Definition formatWrites (size i row col : Z) : Prop :=
  topLeftCell i = Some (row, col) ∨
  (if decide (i < 8) then (8, size - 1 - i) else (size - 8 + (i - 8), 8))
  = (row, col).

(** Bit [i] of the format word [placeFormat] writes for [level]. *)
Definition formatBit (level i : Z) : bool :=
  bool_decide
    (Z.land
       (calculateBCHFormat (Z.lor (ecBitsOf level ≪ 3) maskPattern) ≫ i) 1
     = 1).

(** A finder pattern with its separator, as an 8 x 8 picture indexed from
    the corner of the symbol: dark border, light ring, dark 3 x 3 core,
    light row and column 7. *)
Definition finderAt (i j : Z) : bool :=
  bool_decide (i ≤ 6 ∧ j ≤ 6 ∧
               (i = 0 ∨ i = 6 ∨ j = 0 ∨ j = 6 ∨ (2 ≤ i ≤ 4 ∧ 2 ≤ j ≤ 4))).

(** An alignment pattern, indexed from its centre. *)
Definition alignmentAt (i j : Z) : bool :=
  bool_decide (i = -2 ∨ i = 2 ∨ j = -2 ∨ j = 2 ∨ (i = 0 ∧ j = 0)).

(** What [placeData] and [placeFormat] must leave alone: the function
    cells of [cv0] that no turn of the format loop writes. *)
Definition keepsPatterns (size : Z) (cv0 : canvas) (g : list (list bool))
  : Prop :=
  ∀ r c, get2 (isFunction cv0) r c = Ok true →
         (∀ i, 0 ≤ i < 15 → ¬ formatWrites size i r c) →
         get2 g r c = get2 (modules cv0) r c.


(** The function map is [F], and the modules agree with [M0] wherever [F]
    marks a function cell. *)
Definition keeps (F M0 : list (list bool)) (cv : canvas) : Prop :=
  isFunction cv = F ∧
  ∀ r c, get2 F r c = Ok true → get2 (modules cv) r c = get2 M0 r c.


Definition okBool (o : outcome bool) (v : bool) : bool :=
  match o with
  | Ok a => bool_decide (a = v)
  | Panic _ => false
  end.

(** The cell [(r, c)] of [cv] is a function cell holding [b]. *)
Definition patternCell (cv : canvas) (r c : Z) (b : bool) : bool :=
  okBool (get2 (isFunction cv) r c) true && okBool (get2 (modules cv) r c) b.

(** The canvas has the three finder patterns with their separators, the
    two timing lines and, from version 2 on, the alignment pattern. *)
Definition patternsOkb (v size : Z) (cv : canvas) : bool :=
  forallb (λ i, forallb (λ j,
      patternCell cv i j (finderAt i j) &&
      patternCell cv i (size - 1 - j) (finderAt i j) &&
      patternCell cv (size - 1 - i) j (finderAt i j))
    (seqZ 0 8)) (seqZ 0 8) &&
  forallb (λ k,
      patternCell cv 6 k (bool_decide (k `mod` 2 = 0)) &&
      patternCell cv k 6 (bool_decide (k `mod` 2 = 0)))
    (seqZ 8 (size - 16)) &&
  (if decide (2 ≤ v) then
     forallb (λ i, forallb (λ j,
         patternCell cv (size - 7 + i) (size - 7 + j) (alignmentAt i j))
       (seqZ (-2) 5)) (seqZ (-2) 5)
   else true).


(** A loop over a list of cells, and the body of the two inner loops of
    [placeColumnPair] as a function of the cell it is at. *)
Fixpoint ocells {S} (cells : list (Z * Z)) (body : Z * Z → S → outcome S)
    (s : S) : outcome S :=
  match cells with
  | [] => Ok s
  | rc :: cells' => s' <~ body rc s ;; ocells cells' body s'
  end.

Definition placeCell (finalMessage : list Z) (totalBits : Z) (rc : Z * Z)
    (st : canvas * Z) : outcome (canvas * Z) :=
  let '(cv, idx) := st in
  isF <~ isFunctionAt cv rc.1 rc.2 ;;
  if negb isF then
    let bit := false in
    '(bit, idx) <~ (if decide (idx < totalBits)
                    then b <~ getBit finalMessage idx ;; Ok (b, idx + 1)
                    else Ok (bit, idx)) ;;
    let mask := bool_decide ((rc.1 + rc.2) `rem` 2 = 0) in
    let bit := if mask then negb bit else bit in
    cv <~ setModule cv rc.1 rc.2 bit ;;
    Ok (cv, idx)
  else Ok (cv, idx).

(** The cells [placeColumns] visits that the function map [fn] leaves to
    the data, in visiting order. *)
Definition dataCell (fn : list (list bool)) (rc : Z * Z) : bool :=
  okBool (get2 fn rc.1 rc.2) false.
Definition dataCells (size : Z) (fn : list (list bool)) : list (Z * Z) :=
  List.filter (dataCell fn) (zigzagCells (Z.to_nat size) size (size - 1)).

(** Bit [k] of the message, most significant bit of the first codeword
    first; 0 past its end. *)
Definition messageBit (finalMessage : list Z) (k : nat) : bool :=
  default false (bitStream finalMessage !! k).

(** What [placeColumnPair] writes for message bit [b] at [(r, c)]: the
    bit under mask pattern 0. *)
Definition masked (b : bool) (r c : Z) : bool :=
  if bool_decide ((r + c) `rem` 2 = 0) then negb b else b.

(** The state of the placement after the cells [l]: the function map is
    still [F], [idx] counts the data cells so far up to the number of
    message bits, and the [k]-th data cell holds message bit [k]. *)
Definition placedInv (size : Z) (F : list (list bool)) (msg : list Z)
    (l : list (Z * Z)) (st : canvas * Z) : Prop :=
  wfCanvas size st.1 ∧ isFunction st.1 = F ∧
  st.2 = Z.min (len msg * 8) (len (List.filter (dataCell F) l)) ∧
  ∀ (k : nat) rc, List.filter (dataCell F) l !! k = Some rc →
    get2 (modules st.1) rc.1 rc.2 = Ok (masked (messageBit msg k) rc.1 rc.2).

Definition inGrid (size : Z) (rc : Z * Z) : bool :=
  bool_decide (0 ≤ rc.1 < size ∧ 0 ≤ rc.2 < size).

(** The cells the format loop writes are function cells of [fn]. *)
Definition formatCellsReserved (size : Z) (fn : list (list bool)) : bool :=
  forallb (λ i,
    match topLeftCell i with
    | Some (r, c) => okBool (get2 fn r c) true
    | None => true
    end &&
    (if decide (i < 8) then okBool (get2 fn 8 (size - 1 - i)) true
     else okBool (get2 fn (size - 8 + (i - 8)) 8) true)) (seqZ 0 15).

(** Data cells of the symbol of a version. *)
Definition dataCellCount (v : Z) : Z :=
  match v with
  | 1 => 208
  | 2 => 359
  | 3 => 567
  | _ => 807
  end.


(** The number of positions, among the low 15 bits, in which two words
    differ. *)
Definition hamming15 (a b : Z) : Z :=
  loop (range 0 15) (λ i n,
    if xorb (Z.testbit a i) (Z.testbit b i) then n + 1 else n) 0.

(** * Verification *)

(** ** Running computations *)

Lemma forallb_seqZ (P : Z → bool) (lo n : Z) :
  forallb P (seqZ lo n) = true → ∀ x, lo ≤ x < lo + n → P x = true.
Proof.
  intros H x Hx. rewrite forallb_forall in H. apply H.
  apply list_elem_of_In, elem_of_seqZ. lia.
Qed.

Lemma readonly_ret {A} (a : A) : readonly (ret a).
Proof. by intros t. Qed.
Lemma readonly_raise {A} (p : panic) : readonly (@raise A p).
Proof. by intros t. Qed.
Lemma readonly_liftO {A} (o : outcome A) : readonly (liftO o).
Proof. by intros t. Qed.
Lemma readonly_readExp i : readonly (readExp i).
Proof. by intros t. Qed.
Lemma readonly_readLog i : readonly (readLog i).
Proof. by intros t. Qed.
Lemma readonly_bind {A B} (m : M A) (k : A → M B) :
  readonly m → (∀ a, readonly (k a)) → readonly (bind m k).
Proof.
  intros Hm Hk t. unfold bind. specialize (Hm t).
  destruct (m t) as [[a|p] t']; simpl in *; subst; [apply Hk | done].
Qed.
Lemma readonly_forN {S} n i (body : Z → S → M S) s :
  (∀ i s, readonly (body i s)) → readonly (forN n i body s).
Proof.
  intros Hb. revert i s. induction n as [|n IH]; intros i s; simpl.
  - apply readonly_ret.
  - apply readonly_bind; auto.
Qed.
Lemma readonly_forZ {S} lo hi (body : Z → S → M S) s :
  (∀ i s, readonly (body i s)) → readonly (forZ lo hi body s).
Proof. apply readonly_forN. Qed.

Create HintDb readonly.
#[local] Hint Resolve readonly_ret readonly_raise readonly_liftO
  readonly_readExp readonly_readLog readonly_forZ : readonly.
#[local] Hint Extern 2 (readonly (bind _ _)) =>
  apply readonly_bind; [|intros] : readonly.
#[local] Hint Extern 2 (readonly (if ?c then _ else _)) =>
  destruct c : readonly.
#[local] Hint Extern 2 (readonly (match ?c with _ => _ end)) =>
  destruct c : readonly.
#[local] Hint Extern 3 (readonly _) => progress intros : readonly.

Lemma readonly_gfMul x y : readonly (gfMul x y).
Proof. unfold gfMul. auto 10 with readonly. Qed.
Lemma readonly_gfDiv x y : readonly (gfDiv x y).
Proof. unfold gfDiv. auto 10 with readonly. Qed.
#[local] Hint Resolve readonly_gfMul readonly_gfDiv : readonly.
Lemma readonly_xorMulAt dst k x y : readonly (xorMulAt dst k x y).
Proof. unfold xorMulAt. auto 10 with readonly. Qed.
#[local] Hint Resolve readonly_xorMulAt : readonly.
Lemma readonly_gfPolyMul p q : readonly (gfPolyMul p q).
Proof. unfold gfPolyMul. auto 20 with readonly. Qed.
#[local] Hint Resolve readonly_gfPolyMul : readonly.
Lemma readonly_GenerateGeneratorPoly n : readonly (GenerateGeneratorPoly n).
Proof. unfold GenerateGeneratorPoly. auto 20 with readonly. Qed.
#[local] Hint Resolve readonly_GenerateGeneratorPoly : readonly.
Lemma readonly_CalculateECCodewords data n :
  readonly (CalculateECCodewords data n).
Proof. unfold CalculateECCodewords. auto 20 with readonly. Qed.
#[local] Hint Resolve readonly_CalculateECCodewords : readonly.
Lemma readonly_NewQRCode content level : readonly (NewQRCode content level).
Proof.
  unfold NewQRCode. destruct (chooseVersion _ _) as [[v vInfo]|];
    auto 20 with readonly.
Qed.

Lemma initTables_value : initTables = tableValues.
Proof. vm_compute. reflexivity. Qed.

Lemma okWith_eq o v : okWith o v = true → o = Ok v.
Proof.
  destruct o as [a|p]; simpl; [|done].
  intros H. apply bool_decide_eq_true in H. by subst.
Qed.

Lemma runs_fst {A} (m : M A) a :
  readonly m → (m initTables).1 = Ok a → runs m a.
Proof.
  intros Hr H. unfold runs. specialize (Hr initTables).
  destruct (m initTables) as [o t]; simpl in *. by subst.
Qed.

Lemma runs_ret {A} (a : A) : runs (ret a) a.
Proof. done. Qed.
Lemma runs_liftO {A} (o : outcome A) a : o = Ok a → runs (liftO o) a.
Proof. by intros ->. Qed.
Lemma runs_bind {A B} (m : M A) (k : A → M B) a b :
  runs m a → runs (k a) b → runs (bind m k) b.
Proof. unfold runs, bind. by intros ->. Qed.

Lemma index_panic {A} (a : list A) i p :
  index a i = Panic p → p = IndexOutOfRange.
Proof.
  unfold index. destruct (decide _); [|congruence].
  destruct (a !! _); congruence.
Qed.

Lemma index_Ok {A} (a : list A) (i : Z) v :
  index a i = Ok v ↔ 0 ≤ i ∧ a !! Z.to_nat i = Some v.
Proof.
  unfold index. destruct (decide _) as [Hi|Hi].
  - destruct (a !! _);
      (split; [intros [=] | intros [_ [=]]]); by subst.
  - split; [done | intros []; lia].
Qed.

(** ** The tables after [init] *)

Lemma init_completes : (init zeroTables).1 = Ok ().
Proof. vm_compute. reflexivity. Qed.

Lemma exp_log_check :
  forallb (λ i,
    okWith (index (expTable tableValues) i) (expAt i) &&
    bool_decide (1 ≤ expAt i ≤ 255) &&
    okWith (index (logTable tableValues) (expAt i)) i) (seqZ 0 255) = true.
Proof. vm_compute. reflexivity. Qed.

Lemma log_exp_check :
  forallb (λ x,
    okWith (index (logTable tableValues) x) (logAt x) &&
    bool_decide (0 ≤ logAt x < 255) &&
    okWith (index (expTable tableValues) (logAt x)) x) (seqZ 1 255) = true.
Proof. vm_compute. reflexivity. Qed.

Lemma exp_spec i :
  0 ≤ i < 255 →
  index (expTable initTables) i = Ok (expAt i) ∧ 1 ≤ expAt i ≤ 255 ∧
  index (logTable initTables) (expAt i) = Ok i.
Proof.
  intros Hi. rewrite initTables_value.
  pose proof (forallb_seqZ _ _ _ exp_log_check i ltac:(lia)) as H.
  apply andb_prop in H as [H H3]. apply andb_prop in H as [H1 H2].
  apply okWith_eq in H1, H3. apply bool_decide_eq_true in H2. done.
Qed.

Lemma log_spec x :
  1 ≤ x ≤ 255 →
  index (logTable initTables) x = Ok (logAt x) ∧ 0 ≤ logAt x < 255 ∧
  index (expTable initTables) (logAt x) = Ok x.
Proof.
  intros Hx. rewrite initTables_value.
  pose proof (forallb_seqZ _ _ _ log_exp_check x ltac:(lia)) as H.
  apply andb_prop in H as [H H3]. apply andb_prop in H as [H1 H2].
  apply okWith_eq in H1, H3. apply bool_decide_eq_true in H2. done.
Qed.

Lemma expAt_logAt x : 1 ≤ x ≤ 255 → expAt (logAt x) = x.
Proof.
  intros Hx. destruct (log_spec x Hx) as (_ & Hl & H).
  destruct (exp_spec (logAt x) Hl) as (H' & _). congruence.
Qed.
Lemma logAt_expAt i : 0 ≤ i < 255 → logAt (expAt i) = i.
Proof.
  intros Hi. destruct (exp_spec i Hi) as (_ & He & H).
  destruct (log_spec (expAt i) He) as (H' & _). congruence.
Qed.

(** C10. After the one-time [init]: for every i in 0..254, expTable[i] is
    in 1..255 and logTable[expTable[i]] = i; the 255 entries are pairwise
    distinct and every nonzero field element is one of them; and no
    operation of the package writes either table: each one that reads
    them leaves any store it is started in unchanged (gfAdd, gfSub,
    calculateBCHFormat, the BitBuffer methods and WritePNG never touch
    the tables and are embedded without the store). *)
Theorem tables_invariant (i : Z) (Hi : 0 ≤ i < 255) :
  (init zeroTables).1 = Ok () ∧
  (∃ v, index (expTable initTables) i = Ok v ∧ 1 ≤ v ≤ 255 ∧
        index (logTable initTables) v = Ok i) ∧
  (∀ j, 0 ≤ j < 255 →
        index (expTable initTables) j = index (expTable initTables) i →
        j = i) ∧
  (∀ v, 1 ≤ v ≤ 255 →
        ∃ k, 0 ≤ k < 255 ∧ index (expTable initTables) k = Ok v) ∧
  (∀ t x y, (gfMul x y t).2 = t ∧ (gfDiv x y t).2 = t) ∧
  (∀ t p q, (gfPolyMul p q t).2 = t) ∧
  (∀ t n, (GenerateGeneratorPoly n t).2 = t) ∧
  (∀ t data n, (CalculateECCodewords data n t).2 = t) ∧
  (∀ t content level, (NewQRCode content level t).2 = t).
Proof.
  split; [apply init_completes|].
  split; [exists (expAt i); by apply exp_spec|].
  split.
  { intros j Hj E.
    destruct (exp_spec i Hi) as (Ei & _ & Li).
    destruct (exp_spec j Hj) as (Ej & _ & Lj).
    rewrite Ei, Ej in E. injection E as E. rewrite E in Lj. congruence. }
  split.
  { intros v Hv. exists (logAt v). destruct (log_spec v Hv) as (_ & ? & ?).
    done. }
  split; [intros; split; [apply readonly_gfMul | apply readonly_gfDiv]|].
  split; [intros; apply readonly_gfPolyMul|].
  split; [intros; apply readonly_GenerateGeneratorPoly|].
  split; [intros; apply readonly_CalculateECCodewords|].
  intros; apply readonly_NewQRCode.
Qed.

Lemma tables_invariant_witness :
  index (expTable initTables) 8 = Ok 29 ∧
  index (logTable initTables) 29 = Ok 8.
Proof.
  destruct (tables_invariant 8 ltac:(lia)) as (_ & (v & Hv & _ & Hl) & _).
  assert (v = 29) as ->.
  { pose proof Hv as Hv'. vm_compute in Hv'. congruence. }
  split; assumption.
Defined.

(** ** Field arithmetic on the initialised tables *)

Lemma readLog_runs x : 1 ≤ x ≤ 255 → runs (readLog x) (logAt x).
Proof.
  intros Hx. unfold runs, readLog. by destruct (log_spec x Hx) as (-> & _).
Qed.
Lemma readExp_runs i : 0 ≤ i < 255 → runs (readExp i) (expAt i).
Proof.
  intros Hi. unfold runs, readExp. by destruct (exp_spec i Hi) as (-> & _).
Qed.

Lemma logAt_range x : 1 ≤ x ≤ 255 → 0 ≤ logAt x < 255.
Proof. intros Hx. by destruct (log_spec x Hx) as (_ & ? & _). Qed.
Lemma expAt_range i : 0 ≤ i < 255 → 1 ≤ expAt i ≤ 255.
Proof. intros Hi. by destruct (exp_spec i Hi) as (_ & ? & _). Qed.

Lemma gmul_range x y : 0 ≤ x < 256 → 0 ≤ y < 256 → 0 ≤ gmul x y < 256.
Proof.
  intros Hx Hy. unfold gmul. destruct (decide _); [lia|].
  pose proof (expAt_range ((logAt x + logAt y) `mod` 255)
                ltac:(apply Z.mod_pos_bound; lia)). lia.
Qed.

Lemma gfMul_runs x y :
  0 ≤ x < 256 → 0 ≤ y < 256 → runs (gfMul x y) (gmul x y).
Proof.
  intros Hx Hy. unfold gfMul, gmul.
  destruct (decide (x = 0 ∨ y = 0)) as [|Hn]; [apply runs_ret|].
  pose proof (logAt_range x ltac:(lia)). pose proof (logAt_range y ltac:(lia)).
  eapply runs_bind; [apply readLog_runs; lia|].
  eapply runs_bind; [apply readLog_runs; lia|].
  rewrite Z.rem_mod_nonneg by lia.
  apply readExp_runs. apply Z.mod_pos_bound. lia.
Qed.

Lemma gfDiv_runs x y :
  0 ≤ x < 256 → 1 ≤ y < 256 →
  runs (gfDiv x y)
    (if decide (x = 0) then 0
     else expAt ((logAt x + 255 - logAt y) `mod` 255)).
Proof.
  intros Hx Hy. unfold gfDiv.
  destruct (decide (y = 0)); [lia|].
  destruct (decide (x = 0)); [apply runs_ret|].
  pose proof (logAt_range x ltac:(lia)). pose proof (logAt_range y ltac:(lia)).
  eapply runs_bind; [apply readLog_runs; lia|].
  eapply runs_bind; [apply readLog_runs; lia|].
  rewrite Z.rem_mod_nonneg by lia.
  apply readExp_runs. apply Z.mod_pos_bound. lia.
Qed.

Lemma gmul_0_l y : gmul 0 y = 0.
Proof. unfold gmul. destruct (decide _) as [|H]; [done|]. tauto. Qed.
Lemma gmul_0_r x : gmul x 0 = 0.
Proof. unfold gmul. destruct (decide _) as [|H]; [done|]. tauto. Qed.

Lemma gmul_comm x y : gmul x y = gmul y x.
Proof.
  unfold gmul. rewrite (Z.add_comm (logAt x)).
  destruct (decide (x = 0 ∨ y = 0)), (decide (y = 0 ∨ x = 0)); tauto.
Qed.

(** Nonzero elements multiply by adding logarithms. *)
Lemma gmul_log x y :
  1 ≤ x ≤ 255 → 1 ≤ y ≤ 255 →
  1 ≤ gmul x y ≤ 255 ∧ logAt (gmul x y) = (logAt x + logAt y) `mod` 255.
Proof.
  intros Hx Hy. unfold gmul. destruct (decide _); [lia|].
  assert (0 ≤ (logAt x + logAt y) `mod` 255 < 255)
    by (apply Z.mod_pos_bound; lia).
  split; [by apply expAt_range | by apply logAt_expAt].
Qed.

Lemma gmul_1_l y : 0 ≤ y < 256 → gmul 1 y = y.
Proof.
  intros Hy. unfold gmul. destruct (decide _) as [[ ? | -> ]|Hn]; [done|done|].
  change (logAt 1) with 0. rewrite Z.add_0_l.
  pose proof (logAt_range y ltac:(lia)).
  rewrite Z.mod_small by lia. apply expAt_logAt. lia.
Qed.

Lemma gmul_assoc x y z :
  0 ≤ x < 256 → 0 ≤ y < 256 → 0 ≤ z < 256 →
  gmul (gmul x y) z = gmul x (gmul y z).
Proof.
  intros Hx Hy Hz.
  destruct (decide (x = 0)) as [->|]; [by rewrite !gmul_0_l|].
  destruct (decide (y = 0)) as [->|];
    [by rewrite gmul_0_l, gmul_0_r, gmul_0_l|].
  destruct (decide (z = 0)) as [->|]; [by rewrite !gmul_0_r|].
  destruct (gmul_log x y) as [Rxy Lxy]; [lia..|].
  destruct (gmul_log y z) as [Ryz Lyz]; [lia..|].
  unfold gmul at 1 3.
  destruct (decide _); [lia|]. destruct (decide _); [lia|].
  rewrite Lxy, Lyz. f_equal.
  rewrite Z.add_mod_idemp_l, Z.add_mod_idemp_r by lia. f_equal. lia.
Qed.

Lemma gfDiv_no_DivisionByZero x y t :
  y ≠ 0 → (gfDiv x y t).1 ≠ Panic DivisionByZero.
Proof.
  intros Hy. unfold gfDiv. destruct (decide (y = 0)); [done|].
  destruct (decide (x = 0)); [done|].
  unfold bind, readLog, readExp. simpl.
  destruct (index (logTable t) x) eqn:E1; simpl;
    [|apply index_panic in E1; by subst].
  destruct (index (logTable t) y) eqn:E2; simpl;
    [|apply index_panic in E2; by subst].
  destruct (index (expTable t) _) eqn:E3; simpl;
    [done|apply index_panic in E3; by subst].
Qed.

(** C7. gfDiv(x, y) fails with the division-by-zero panic exactly when
    y = 0 (whatever the tables hold); on the initialised tables, for x in
    0..255 and y in 1..255, it returns a quotient q with gfMul(q, y) = x. *)
Theorem gfDiv_spec (x y : Z) :
  (∀ t, (gfDiv x y t).1 = Panic DivisionByZero ↔ y = 0) ∧
  (0 ≤ x ≤ 255 → 1 ≤ y ≤ 255 →
   ∃ q, gfDiv x y initTables = (Ok q, initTables) ∧
        gfMul q y initTables = (Ok x, initTables)).
Proof.
  split.
  - intros t. split.
    + intros H. destruct (decide (y = 0)) as [|Hy]; [done|].
      by apply (gfDiv_no_DivisionByZero x y t) in Hy.
    + intros ->. unfold gfDiv. by destruct (decide (0 = 0)).
  - intros Hx Hy. eexists. split; [apply gfDiv_runs; lia|].
    destruct (decide (x = 0)) as [->|Hn].
    { apply (gfMul_runs 0 y); lia. }
    pose proof (logAt_range x ltac:(lia)) as Lx.
    pose proof (logAt_range y ltac:(lia)) as Ly.
    set (k := (logAt x + 255 - logAt y) `mod` 255).
    assert (0 ≤ k < 255) as Hk by (apply Z.mod_pos_bound; lia).
    pose proof (expAt_range k Hk) as Rk.
    pose proof (gfMul_runs (expAt k) y ltac:(lia) ltac:(lia)) as R.
    replace (gmul (expAt k) y) with x in R; [exact R|].
    unfold gmul. destruct (decide _); [lia|]. symmetry.
    rewrite logAt_expAt by done. unfold k.
    rewrite Z.add_mod_idemp_l by lia.
    replace (logAt x + 255 - logAt y + logAt y) with (logAt x + 1 * 255)
      by lia.
    rewrite Z.mod_add, Z.mod_small by lia. apply expAt_logAt. lia.
Qed.

Lemma gfDiv_spec_witness :
  (gfDiv 7 0 initTables).1 = Panic DivisionByZero ∧
  ∃ q, gfDiv 200 3 initTables = (Ok q, initTables) ∧
       gfMul q 3 initTables = (Ok 200, initTables).
Proof.
  split.
  - apply (proj1 (gfDiv_spec 7 0)). reflexivity.
  - apply (proj2 (gfDiv_spec 200 3)); lia.
Defined.

(** *** Xor on bytes *)

Ltac xor_bits :=
  apply Z.bits_inj'; intros ? _;
  rewrite ?Z.lxor_spec, ?Z.bits_0;
  repeat match goal with
         | |- context [Z.testbit ?a ?n] => destruct (Z.testbit a n)
         end; reflexivity.

Lemma lxor_byte a b : byteVal a → byteVal b → byteVal (Z.lxor a b).
Proof.
  unfold byteVal. intros Ha Hb.
  assert (0 ≤ Z.lxor a b) by (apply Z.lxor_nonneg; lia).
  split; [done|].
  destruct (decide (Z.lxor a b = 0)) as [->|]; [lia|].
  change 256 with (2 ^ 8). apply Z.log2_lt_pow2; [lia|].
  pose proof (Z.log2_lxor a b ltac:(lia) ltac:(lia)).
  assert (∀ v, 0 ≤ v < 256 → Z.log2 v < 8) as L.
  { intros v Hv. destruct (decide (v = 0)) as [->|]; [done|].
    apply Z.log2_lt_pow2; lia. }
  pose proof (L a Ha). pose proof (L b Hb). lia.
Qed.

Lemma lxor_cancel a b : Z.lxor (Z.lxor a b) b = a.
Proof. xor_bits. Qed.

Lemma dbl_lxor y z : dbl (Z.lxor y z) = Z.lxor (dbl y) (dbl z).
Proof.
  unfold dbl. rewrite Z.shiftl_lxor, Z.lxor_spec.
  destruct (Z.testbit y 7), (Z.testbit z 7); simpl; xor_bits.
Qed.

Lemma gmul_2_check :
  forallb (λ y, bool_decide (gmul 2 y = dbl y)) (seqZ 0 256) = true.
Proof. vm_compute. reflexivity. Qed.

Lemma gmul_2 y : byteVal y → gmul 2 y = dbl y.
Proof.
  intros Hy. pose proof (forallb_seqZ _ _ _ gmul_2_check y Hy) as H.
  by apply bool_decide_eq_true in H.
Qed.

Lemma expAt_succ k : 0 ≤ k < 254 → expAt (k + 1) = gmul 2 (expAt k).
Proof.
  intros Hk. pose proof (expAt_range k ltac:(lia)).
  unfold gmul. destruct (decide _); [lia|].
  rewrite logAt_expAt by lia. change (logAt 2) with 1.
  rewrite Z.mod_small by lia. f_equal. lia.
Qed.

Lemma gmul_exp_lxor (n : nat) y z :
  (n < 255)%nat → byteVal y → byteVal z →
  gmul (expAt (Z.of_nat n)) (Z.lxor y z) =
  Z.lxor (gmul (expAt (Z.of_nat n)) y) (gmul (expAt (Z.of_nat n)) z).
Proof.
  intros Hn Hy Hz. induction n as [|n IH].
  - change (expAt (Z.of_nat 0)) with 1.
    rewrite !gmul_1_l; [done|done|done|by apply lxor_byte].
  - rewrite Nat2Z.inj_succ, <- Z.add_1_r, expAt_succ by lia.
    pose proof (expAt_range (Z.of_nat n) ltac:(lia)) as He.
    assert (byteVal (expAt (Z.of_nat n))) as Hb by (unfold byteVal; lia).
    assert (byteVal 2) as H2 by (unfold byteVal; lia).
    rewrite !gmul_assoc by (try apply lxor_byte; assumption).
    rewrite IH by lia.
    rewrite !gmul_2 by (try apply lxor_byte; by apply gmul_range).
    apply dbl_lxor.
Qed.

Lemma gmul_lxor_r x y z :
  byteVal x → byteVal y → byteVal z →
  gmul x (Z.lxor y z) = Z.lxor (gmul x y) (gmul x z).
Proof.
  intros Hx Hy Hz. destruct (decide (x = 0)) as [->|Hn].
  { by rewrite !gmul_0_l. }
  unfold byteVal in Hx. pose proof (logAt_range x ltac:(lia)) as Hl.
  rewrite <- (expAt_logAt x) by lia.
  rewrite <- (Z2Nat.id (logAt x)) by lia.
  apply gmul_exp_lxor; [lia|done|done].
Qed.

Lemma gmul_lxor_l x y z :
  byteVal x → byteVal y → byteVal z →
  gmul (Z.lxor x y) z = Z.lxor (gmul x z) (gmul y z).
Proof.
  intros. rewrite !(gmul_comm _ z). by apply gmul_lxor_r.
Qed.

Lemma gmul_byte x y : byteVal x → byteVal y → byteVal (gmul x y).
Proof. apply gmul_range. Qed.

Lemma gmul_1_r x : byteVal x → gmul x 1 = x.
Proof. intros. rewrite gmul_comm. by apply gmul_1_l. Qed.

(** *** Powers and Horner evaluation *)

Lemma gpow_byte x n : byteVal x → byteVal (gpow x n).
Proof.
  intros Hx. induction n as [|n IH]; simpl.
  - unfold byteVal; lia.
  - by apply gmul_byte.
Qed.

Lemma hornerStep_byte x acc c :
  byteVal x → byteVal acc → byteVal c → byteVal (hornerStep x acc c).
Proof. intros. apply lxor_byte; [by apply gmul_byte | done]. Qed.

Lemma foldl_horner_byte x acc p :
  byteVal x → byteVal acc → byteList p →
  byteVal (foldl (hornerStep x) acc p).
Proof.
  intros Hx Ha Hp. revert acc Ha.
  induction Hp as [|c p Hc Hp IH]; intros acc Ha; simpl; [done|].
  apply IH. by apply hornerStep_byte.
Qed.

Lemma peval_byte p x : byteVal x → byteList p → byteVal (peval p x).
Proof. intros. apply foldl_horner_byte; [done| |done]. unfold byteVal; lia. Qed.

(** Horner from an accumulator: the accumulator is shifted past [p]. *)
Lemma foldl_horner_acc x acc p :
  byteVal x → byteVal acc → byteList p →
  foldl (hornerStep x) acc p =
  Z.lxor (gmul acc (gpow x (length p))) (peval p x).
Proof.
  intros Hx Ha Hp. revert acc Ha.
  induction Hp as [|c p Hc Hp IH]; intros acc Ha.
  - simpl. rewrite gmul_1_r by done. unfold peval. simpl.
    by rewrite Z.lxor_0_r.
  - unfold peval. simpl. rewrite IH by by apply hornerStep_byte.
    rewrite (IH (hornerStep x 0 c))
      by (apply hornerStep_byte; [done| unfold byteVal; lia |done]).
    unfold hornerStep. rewrite gmul_0_l, Z.lxor_0_l.
    pose proof (gpow_byte x (length p) Hx) as Hpw.
    rewrite gmul_lxor_l by (try apply gmul_byte; done).
    rewrite gmul_assoc by done.
    rewrite Z.lxor_assoc. done.
Qed.

Lemma peval_app p q x :
  byteVal x → byteList p → byteList q →
  peval (p ++ q) x = Z.lxor (gmul (peval p x) (gpow x (length q))) (peval q x).
Proof.
  intros Hx Hp Hq. unfold peval at 1. rewrite foldl_app.
  apply foldl_horner_acc; [done| by apply peval_byte |done].
Qed.

Lemma peval_zeros n x : peval (replicate n 0) x = 0.
Proof.
  unfold peval. induction n as [|n IH]; simpl; [done|].
  unfold hornerStep at 2. by rewrite gmul_0_l.
Qed.

Lemma peval_cons_0 p x : peval (0 :: p) x = peval p x.
Proof. unfold peval. simpl. unfold hornerStep at 2. by rewrite gmul_0_l. Qed.

Lemma byteList_zeros n : byteList (replicate n 0).
Proof. apply Forall_replicate. unfold byteVal; lia. Qed.

Lemma pxor_byteList a b : byteList a → byteList b → byteList (pxor a b).
Proof.
  intros Ha. revert b. induction Ha as [|x a Hx Ha IH]; intros b Hb; [constructor|].
  destruct Hb as [|y b Hy Hb]; [constructor|].
  simpl. constructor; [by apply lxor_byte | by apply IH].
Qed.

Lemma foldl_horner_pxor x acc1 acc2 a b :
  byteVal x → byteVal acc1 → byteVal acc2 → byteList a → byteList b →
  length a = length b →
  foldl (hornerStep x) (Z.lxor acc1 acc2) (pxor a b) =
  Z.lxor (foldl (hornerStep x) acc1 a) (foldl (hornerStep x) acc2 b).
Proof.
  intros Hx H1 H2 Ha. revert b acc1 acc2 H1 H2.
  induction Ha as [|u a Hu Ha IH]; intros b acc1 acc2 H1 H2 Hb Hl.
  - destruct b; [done|discriminate].
  - destruct Hb as [|w b Hw Hb]; [discriminate|]. simpl in *.
    replace (hornerStep x (Z.lxor acc1 acc2) (Z.lxor u w))
      with (Z.lxor (hornerStep x acc1 u) (hornerStep x acc2 w)).
    { apply IH; [by apply hornerStep_byte..|done|lia]. }
    unfold hornerStep. rewrite gmul_lxor_l by done. xor_bits.
Qed.

Lemma peval_pxor a b x :
  byteVal x → byteList a → byteList b → length a = length b →
  peval (pxor a b) x = Z.lxor (peval a x) (peval b x).
Proof.
  intros. unfold peval. rewrite <- foldl_horner_pxor; try done;
    unfold byteVal; lia.
Qed.

Lemma peval_scale c p x :
  byteVal x → byteVal c → byteList p →
  peval ((λ g, gmul g c) <$> p) x = gmul (peval p x) c.
Proof.
  intros Hx Hc Hp. unfold peval.
  assert (∀ acc, byteVal acc →
    foldl (hornerStep x) (gmul acc c) ((λ g, gmul g c) <$> p) =
    gmul (foldl (hornerStep x) acc p) c) as G.
  { induction Hp as [|u p Hu Hp IH]; intros acc Ha; simpl; [done|].
    rewrite <- IH by by apply hornerStep_byte. f_equal.
    unfold hornerStep. rewrite gmul_lxor_l by (try apply gmul_byte; done).
    f_equal. rewrite !gmul_assoc by done. f_equal. apply gmul_comm. }
  rewrite <- (gmul_0_l c) at 1. apply G. unfold byteVal; lia.
Qed.

(** *** The loops of the polynomial code *)

Lemma forN_invariant {S} (I : nat → S → Prop) (body : Z → S → M S)
    (n : nat) (i0 : Z) :
  (∀ k s, (k < n)%nat → I k s →
          ∃ s', runs (body (i0 + Z.of_nat k) s) s' ∧ I (Datatypes.S k) s') →
  ∀ s, I O s → ∃ s', runs (forN n i0 body s) s' ∧ I n s'.
Proof.
  revert I i0. induction n as [|n IH]; intros I i0 Hstep s H0.
  - exists s. split; [apply runs_ret | done].
  - destruct (Hstep O s ltac:(lia) H0) as (s1 & R1 & I1).
    rewrite Z.add_0_r in R1.
    destruct (IH (λ k, I (Datatypes.S k)) (i0 + 1)) with (s := s1)
      as (s2 & R2 & I2); [|done|].
    + intros k s' Hk Ik. destruct (Hstep (Datatypes.S k) s' ltac:(lia) Ik)
        as (s'' & R & I').
      exists s''. split; [|done].
      replace (i0 + 1 + Z.of_nat k) with (i0 + Z.of_nat (Datatypes.S k)) by lia.
      done.
    + exists s2. split; [|done]. simpl. eapply runs_bind; eauto.
Qed.

Lemma xorMulAt_runs dst (k : nat) x y b :
  byteVal x → byteVal y → dst !! k = Some b →
  runs (xorMulAt dst (Z.of_nat k) x y) (<[k := Z.lxor b (gmul x y)]> dst).
Proof.
  intros Hx Hy Hb. unfold xorMulAt.
  eapply runs_bind; [by apply gfMul_runs|].
  eapply runs_bind.
  { apply runs_liftO. apply index_Ok. rewrite Nat2Z.id. split; [lia|done]. }
  apply runs_liftO. unfold assign.
  apply lookup_lt_Some in Hb.
  destruct (decide _); [|lia]. by rewrite Nat2Z.id.
Qed.

(** One pass [for j ... { res[off+j] ^= g(src[j]) }] xors the row
    [g <$> src] into [res] at offset [off]. *)
Lemma forN_xor_row (body : Z → list Z → M (list Z)) (src : list Z)
    (g : Z → Z) (off : nat) :
  (∀ (j : nat) v res b,
     src !! j = Some v → res !! (off + j)%nat = Some b →
     runs (body (Z.of_nat j) res) (<[(off + j)%nat := Z.lxor b (g v)]> res)) →
  ∀ q2 q1 A B C,
    src = q1 ++ q2 → length A = (off + length q1)%nat →
    length B = length q2 →
    runs (forN (length q2) (Z.of_nat (length q1)) body (A ++ B ++ C))
         (A ++ pxor B (g <$> q2) ++ C).
Proof.
  intros Hbody. induction q2 as [|v q2 IH]; intros q1 A B C Hsrc HA HB.
  - destruct B; [|done]. apply runs_ret.
  - destruct B as [|b B]; [done|]. simpl in HB. simpl forN.
    eapply runs_bind.
    + apply (Hbody (length q1) v _ b).
      * subst src. apply list_lookup_middle. done.
      * rewrite <- HA. simpl. by apply list_lookup_middle.
    + rewrite <- HA. simpl.
      rewrite insert_app_r_alt by lia. rewrite Nat.sub_diag. simpl.
      specialize (IH (q1 ++ [v]) (A ++ [Z.lxor b (g v)]) B C).
      rewrite !length_app in IH. simpl in IH.
      rewrite <- !app_assoc in IH. simpl in IH.
      replace (Z.of_nat (length q1) + 1) with (Z.of_nat (length q1 + 1))
        by lia.
      apply IH; [by rewrite Hsrc | lia | lia].
Qed.

Lemma forZ_xor_row (body : Z → list Z → M (list Z)) (src : list Z)
    (g : Z → Z) (off : nat) A B C :
  (∀ (j : nat) v res b,
     src !! j = Some v → res !! (off + j)%nat = Some b →
     runs (body (Z.of_nat j) res) (<[(off + j)%nat := Z.lxor b (g v)]> res)) →
  length A = off → length B = length src →
  runs (forZ 0 (len src) body (A ++ B ++ C)) (A ++ pxor B (g <$> src) ++ C).
Proof.
  intros Hbody HA HB. unfold forZ, len.
  rewrite Z.sub_0_r, Nat2Z.id.
  apply (forN_xor_row body src g off Hbody src [] A B C); simpl; [done|lia|done].
Qed.

Lemma pxor_length a b : length a = length b → length (pxor a b) = length a.
Proof. intros H. unfold pxor. rewrite length_zip_with. lia. Qed.

Lemma byteList_app a b : byteList (a ++ b) ↔ byteList a ∧ byteList b.
Proof. apply Forall_app. Qed.

(** Evaluation after a row was xored in. *)
Lemma peval_xor_row A B C V x :
  byteVal x → byteList A → byteList B → byteList C → byteList V →
  length B = length V →
  peval (A ++ pxor B V ++ C) x =
  Z.lxor (peval (A ++ B ++ C) x) (gmul (peval V x) (gpow x (length C))).
Proof.
  intros Hx HA HB HC HV Hl.
  pose proof (pxor_byteList B V HB HV) as HBV.
  rewrite !peval_app by (try apply byteList_app; done).
  rewrite peval_pxor by done.
  rewrite !length_app, pxor_length by done.
  rewrite gmul_lxor_l by (try apply peval_byte; try apply gpow_byte; done).
  xor_bits.
Qed.

Lemma split3 {A} (l : list A) (i m : nat) :
  (i + m ≤ length l)%nat →
  l = take i l ++ take m (drop i l) ++ drop (i + m) l ∧
  length (take i l) = i ∧ length (take m (drop i l)) = m ∧
  length (drop (i + m) l) = (length l - i - m)%nat.
Proof.
  intros H. split; [|split; [|split]].
  - rewrite <- drop_drop, !take_drop. done.
  - rewrite length_take. lia.
  - rewrite length_take, length_drop. lia.
  - rewrite length_drop. lia.
Qed.

Lemma byteList_take l n : byteList l → byteList (take n l).
Proof. apply Forall_take. Qed.
Lemma byteList_drop l n : byteList l → byteList (drop n l).
Proof. apply Forall_drop. Qed.
Lemma byteList_lookup l (i : nat) v : byteList l → l !! i = Some v → byteVal v.
Proof. intros H. by apply Forall_lookup_1. Qed.
Lemma byteList_fmap_gmul l c :
  byteList l → byteVal c → byteList ((λ g, gmul g c) <$> l).
Proof.
  intros Hl Hc. apply Forall_fmap. eapply Forall_impl; [done|].
  intros v Hv. simpl. by apply gmul_byte.
Qed.

Lemma peval_snoc p c x :
  byteVal x → byteList p → byteVal c →
  peval (p ++ [c]) x = Z.lxor (gmul (peval p x) x) c.
Proof. intros. unfold peval. by rewrite foldl_app. Qed.

Lemma make_Ok {A} (z : A) (n : nat) :
  make z (Z.of_nat n) = Ok (replicate n z).
Proof.
  unfold make. destruct (decide _); [|lia]. by rewrite Nat2Z.id.
Qed.

(** *** gfPolyMul *)

Lemma gfPolyMul_runs p q :
  byteList p → byteList q → p ≠ [] → q ≠ [] →
  ∃ r, runs (gfPolyMul p q) r ∧
       length r = (length p + length q - 1)%nat ∧ byteList r ∧
       (∀ x, byteVal x → peval r x = gmul (peval p x) (peval q x)) ∧
       (∀ p0 q0, p !! O = Some p0 → q !! O = Some q0 →
                 r !! O = Some (gmul p0 q0)).
Proof.
  intros Hp Hq Hpn Hqn.
  assert (length p ≠ O) as Lp by (by destruct p).
  assert (length q ≠ O) as Lq by (by destruct q).
  set (n := (length p + length q - 1)%nat).
  pose (I := λ (i : nat) (res : list Z),
    length res = n ∧ byteList res ∧
    (∀ x, byteVal x →
       peval res x =
       gmul (gmul (peval (take i p) x) (gpow x (length p - i))) (peval q x)) ∧
    (i = O → res = replicate n 0) ∧
    (i ≠ O → ∀ p0 q0, p !! O = Some p0 → q !! O = Some q0 →
             res !! O = Some (gmul p0 q0))).
  destruct (forN_invariant I
    (λ i res, forZ 0 (len q) (λ j res,
       pi <- liftO (index p i) ;;
       qj <- liftO (index q j) ;;
       xorMulAt res (i + j) pi qj) res) (length p) 0) with
    (s := replicate n 0) as (r & Rr & Ir).
  - (* one iteration of the outer loop *)
    intros i res Hi (Hlen & Hres & Hev & Hz & Hh). rewrite Z.add_0_l.
    destruct (lookup_lt_is_Some_2 p i Hi) as [pi Hpi].
    pose proof (byteList_lookup _ _ _ Hp Hpi) as Bpi.
    destruct (split3 res i (length q)) as (Es & LA & LB & LC); [lia|].
    set (A := take i res) in *. set (B := take (length q) (drop i res)) in *.
    set (C := drop (i + length q) res) in *.
    assert (byteList A) as HA by by apply byteList_take.
    assert (byteList B) as HB by by apply byteList_take, byteList_drop.
    assert (byteList C) as HC by by apply byteList_drop.
    set (V := (λ g, gmul g pi) <$> q).
    assert (byteList V) as HV by by apply byteList_fmap_gmul.
    assert (length V = length q) as LV by apply length_fmap.
    exists (A ++ pxor B V ++ C). split.
    { rewrite Es.
      apply (forZ_xor_row _ q (λ g, gmul g pi) i); [|done|done].
      intros j v res' b Hv Hb.
      eapply runs_bind.
      { apply runs_liftO, index_Ok. rewrite Nat2Z.id. split; [lia|done]. }
      eapply runs_bind.
      { apply runs_liftO, index_Ok. rewrite Nat2Z.id. split; [lia|done]. }
      rewrite <- Nat2Z.inj_add, (gmul_comm v pi).
      apply xorMulAt_runs; [done| exact (byteList_lookup q j v Hq Hv) |done]. }
    split; [|split; [|split; [|split]]].
    + rewrite !length_app, pxor_length by lia. rewrite Es in Hlen.
      by rewrite !length_app in Hlen.
    + apply byteList_app. split; [done|].
      apply byteList_app. split; [by apply pxor_byteList | done].
    + intros x Hx. rewrite peval_xor_row by (done || lia).
      rewrite <- Es, Hev by done.
      unfold V. rewrite peval_scale by done.
      rewrite (take_S_r p i pi) by done.
      rewrite peval_snoc by (try apply byteList_take; done).
      replace (length p - i)%nat with (Datatypes.S (length p - Datatypes.S i))
        by lia.
      replace (length C) with (length p - Datatypes.S i)%nat by lia.
      simpl gpow.
      set (T := peval (take i p) x). set (Q := peval q x).
      set (X := gpow x (length p - Datatypes.S i)).
      assert (byteVal T) by by apply peval_byte, byteList_take.
      assert (byteVal Q) by by apply peval_byte.
      assert (byteVal X) by by apply gpow_byte.
      rewrite (gmul_lxor_l (gmul T x) pi X) by (try apply gmul_byte; done).
      rewrite (gmul_lxor_l _ _ Q) by (repeat apply gmul_byte; done).
      rewrite (gmul_assoc T x X) by done.
      f_equal.
      rewrite (gmul_assoc Q pi X), (gmul_comm Q) by done. done.
    + intros [=].
    + intros _ p0 q0 Hp0 Hq0.
      destruct (decide (i = O)) as [->|Hne].
      * assert (pi = p0) as -> by congruence.
        destruct A; [|done]. simpl.
        destruct q as [|q0' q']; [done|]. simpl in Hq0.
        injection Hq0 as ->.
        destruct B as [|b B']; [done|].
        assert (b = 0) as ->.
        { rewrite (Hz eq_refl) in Es. simpl in Es.
          destruct n; [done|]. simpl in Es. congruence. }
        simpl. rewrite Z.lxor_0_l, gmul_comm. done.
      * specialize (Hh Hne p0 q0 Hp0 Hq0). rewrite Es in Hh.
        destruct A; [simpl in LA; lia|]. done.
  - (* the freshly made result *)
    split; [apply length_replicate|].
    split; [apply byteList_zeros|].
    split; [|split; [done|done]].
    intros x Hx. rewrite peval_zeros. simpl.
    unfold peval at 1. simpl. by rewrite !gmul_0_l.
  - destruct Ir as (Hlen & Hres & Hev & _ & Hh).
    exists r. split.
    { unfold gfPolyMul. eapply runs_bind.
      - apply runs_liftO. unfold len.
        replace (Z.of_nat (length p) + Z.of_nat (length q) - 1)
          with (Z.of_nat n) by lia.
        apply make_Ok.
      - unfold forZ at 1. unfold len at 1.
        rewrite Z.sub_0_r, Nat2Z.id. exact Rr. }
    split; [done|]. split; [done|]. split.
    + intros x Hx. rewrite Hev by done.
      rewrite take_ge by lia. rewrite Nat.sub_diag. simpl.
      rewrite gmul_1_r by by apply peval_byte. done.
    + by apply Hh.
Qed.

(** *** GenerateGeneratorPoly *)

Lemma byteVal_0 : byteVal 0.
Proof. unfold byteVal; lia. Qed.
Lemma byteVal_1 : byteVal 1.
Proof. unfold byteVal; lia. Qed.
Lemma byteVal_expAt i : 0 ≤ i < 255 → byteVal (expAt i).
Proof. intros Hi. pose proof (expAt_range i Hi). unfold byteVal; lia. Qed.
#[local] Hint Resolve byteVal_0 byteVal_1 : core.

Lemma peval_linear_factor a x :
  byteVal a → byteVal x → peval [1; a] x = Z.lxor x a.
Proof.
  intros Ha Hx. unfold peval. simpl. unfold hornerStep.
  rewrite gmul_0_l, Z.lxor_0_l, gmul_1_l by done. done.
Qed.

Lemma GenerateGeneratorPoly_runs (n : nat) :
  (n ≤ 255)%nat →
  ∃ gen, runs (GenerateGeneratorPoly (Z.of_nat n)) gen ∧
         length gen = Datatypes.S n ∧ byteList gen ∧ gen !! O = Some 1 ∧
         ∀ i, (i < n)%nat → peval gen (expAt (Z.of_nat i)) = 0.
Proof.
  intros Hn.
  pose (I := λ (k : nat) (gen : list Z),
    length gen = Datatypes.S k ∧ byteList gen ∧ gen !! O = Some 1 ∧
    ∀ i, (i < k)%nat → peval gen (expAt (Z.of_nat i)) = 0).
  destruct (forN_invariant I
    (λ i gen, a <- readExp i ;; gfPolyMul gen [1; a]) n 0) with (s := [1])
    as (gen & Rg & Ig).
  - intros k gen Hk (Hlen & Hb & Hh & Hroots). rewrite Z.add_0_l.
    pose proof (byteVal_expAt (Z.of_nat k) ltac:(lia)) as Ha.
    destruct (gfPolyMul_runs gen [1; expAt (Z.of_nat k)])
      as (r & Rr & Lr & Br & Er & Hr).
    { done. }
    { apply Forall_cons_2; [done|]. apply Forall_cons_2; [done|]. constructor. }
    { by destruct gen. } { done. }
    exists r. split.
    { eapply runs_bind; [apply readExp_runs; lia | exact Rr]. }
    split; [simpl in Lr; lia|]. split; [done|]. split.
    { rewrite (Hr 1 1 Hh eq_refl). by rewrite gmul_1_l. }
    intros i Hi.
    pose proof (byteVal_expAt (Z.of_nat i) ltac:(lia)) as Hx.
    rewrite Er, peval_linear_factor by done.
    destruct (decide (i = k)) as [->|Hne].
    + by rewrite Z.lxor_nilpotent, gmul_0_r.
    + by rewrite Hroots, gmul_0_l by lia.
  - split; [done|].
    split; [apply Forall_cons_2; [done | constructor]|]. split; [done|].
    intros i Hi. lia.
  - exists gen. split; [|exact Ig].
    unfold GenerateGeneratorPoly, forZ. by rewrite Z.sub_0_r, Nat2Z.id.
Qed.

(** *** CalculateECCodewords *)

Lemma copy_zeros (data : list Z) (ec : nat) :
  copy (replicate (length data + ec) 0) data = data ++ replicate ec 0.
Proof.
  unfold copy. rewrite length_replicate, take_ge by lia.
  rewrite drop_replicate. f_equal. f_equal. lia.
Qed.

Lemma CalculateECCodewords_runs data (ec : nat) :
  byteList data → (ec ≤ 255)%nat →
  ∃ R, runs (CalculateECCodewords data (Z.of_nat ec)) R ∧
       length R = ec ∧ byteList R ∧
       ∀ i, (i < ec)%nat → peval (data ++ R) (expAt (Z.of_nat i)) = 0.
Proof.
  intros Hd Hec.
  destruct (GenerateGeneratorPoly_runs ec Hec)
    as (gen & Rg & Lg & Bg & Hg & Hroots).
  pose (I := λ (i : nat) (res : list Z), ∃ R,
    res = replicate i 0 ++ R ∧ length R = (length data + ec - i)%nat ∧
    byteList R ∧
    ∀ j, (j < ec)%nat →
      peval R (expAt (Z.of_nat j)) =
      peval (data ++ replicate ec 0) (expAt (Z.of_nat j))).
  destruct (forN_invariant I
    (λ i remainder,
       coef <- liftO (index remainder i) ;;
       if decide (coef ≠ 0) then
         forZ 0 (len gen) (λ j remainder,
           gj <- liftO (index gen j) ;;
           xorMulAt remainder (i + j) gj coef) remainder
       else ret remainder) (length data) 0)
    with (s := data ++ replicate ec 0) as (res & Rres & R & -> & LR & BR & ER).
  - (* one step of the division *)
    intros i res Hi (R & -> & LR & BR & ER). rewrite Z.add_0_l.
    destruct R as [|coef R']; [simpl in LR; lia|]. simpl in LR.
    apply Forall_cons in BR as [Bcoef BR'].
    assert ((replicate i 0 ++ coef :: R') !! i = Some coef) as Hcoef.
    { apply list_lookup_middle. by rewrite length_replicate. }
    destruct (decide (coef = 0)) as [->|Hnz].
    + (* nothing to cancel *)
      exists (replicate i 0 ++ 0 :: R'). split.
      { eapply runs_bind.
        - apply runs_liftO, index_Ok. rewrite Nat2Z.id. split; [lia|done].
        - destruct (decide (0 ≠ 0)); [done|]. apply runs_ret. }
      exists R'. split.
      { rewrite replicate_S_end, <- app_assoc. done. }
      split; [lia|]. split; [done|].
      intros j Hj. rewrite <- ER by done. by rewrite peval_cons_0.
    + (* xor in coef times the generator *)
      destruct (split3 (coef :: R') O (Datatypes.S ec))
        as (Es & _ & LB & LC); [simpl; lia|].
      simpl in Es, LB, LC.
      set (B0 := take ec R') in *. set (C := drop ec R') in *.
      destruct gen as [|g0 gen']; [done|]. simpl in Hg. injection Hg as ->.
      set (V := (λ g, gmul g coef) <$> (1 :: gen')).
      assert (byteList V) as BV by by apply byteList_fmap_gmul.
      assert (byteList B0) as BB0 by by apply byteList_take.
      assert (byteList C) as BC by by apply byteList_drop.
      assert (length B0 = ec) as LB0 by (simpl in LB; lia).
      simpl in Lg.
      exists (replicate i 0 ++ pxor (coef :: B0) V ++ C). split.
      { eapply runs_bind.
        - apply runs_liftO, index_Ok. rewrite Nat2Z.id. split; [lia|done].
        - destruct (decide (coef ≠ 0)); [|done].
          injection Es as Es. rewrite Es at 1.
          change (replicate i 0 ++ coef :: B0 ++ C)
            with (replicate i 0 ++ (coef :: B0) ++ C).
          apply (forZ_xor_row _ (1 :: gen') (λ g, gmul g coef) i).
          + intros j v res' b Hv Hb.
            eapply runs_bind.
            { apply runs_liftO, index_Ok. rewrite Nat2Z.id.
              split; [lia|done]. }
            rewrite <- Nat2Z.inj_add.
            apply xorMulAt_runs; [|done|done].
            exact (byteList_lookup _ j v Bg Hv).
          + apply length_replicate.
          + simpl. lia. }
      unfold V. simpl fmap. simpl pxor.
      rewrite gmul_1_l, Z.lxor_nilpotent by done.
      fold (pxor B0 ((λ g, gmul g coef) <$> gen')).
      set (V0 := (λ g, gmul g coef) <$> gen').
      assert (length V0 = ec) as LV0 by (unfold V0; rewrite length_fmap; lia).
      assert (byteList V0) as BV0.
      { apply byteList_fmap_gmul; [|done]. by inversion Bg. }
      exists (pxor B0 V0 ++ C). split.
      { rewrite replicate_S_end, <- app_assoc. done. }
      split.
      { rewrite length_app, pxor_length by lia. simpl in LC. lia. }
      split.
      { apply byteList_app. split; [by apply pxor_byteList | done]. }
      intros j Hj.
      pose proof (byteVal_expAt (Z.of_nat j) ltac:(lia)) as Hx.
      rewrite <- ER by done. set (x := expAt (Z.of_nat j)) in *.
      injection Es as Es. rewrite Es.
      rewrite <- (peval_cons_0 (pxor B0 V0 ++ C) x).
      replace (0 :: pxor B0 V0 ++ C)
        with ([] ++ pxor (coef :: B0) V ++ C).
      2:{ unfold V. simpl. rewrite gmul_1_l, Z.lxor_nilpotent by done. done. }
      rewrite peval_xor_row; [|done|constructor|by constructor|done|done|].
      2:{ unfold V. rewrite length_fmap. simpl. lia. }
      simpl app. unfold V. rewrite peval_scale by done.
      subst x. rewrite (Hroots j Hj). rewrite !gmul_0_l. by rewrite Z.lxor_0_r.
  - exists (data ++ replicate ec 0). simpl.
    split; [done|]. split; [rewrite length_app, length_replicate; lia|].
    split; [apply byteList_app; split; [done | apply byteList_zeros]|done].
  - exists R. rewrite Nat.add_sub' in LR.
    split; [|split; [done|split; [done|]]].
    + unfold CalculateECCodewords.
      eapply runs_bind; [exact Rg|].
      assert (len data + Z.of_nat ec = Z.of_nat (length data + ec)) as E
        by (unfold len; lia).
      eapply runs_bind; [apply runs_liftO; rewrite E; apply make_Ok|].
      eapply runs_bind; [apply runs_liftO; rewrite E; apply make_Ok|].
      rewrite copy_zeros.
      eapply runs_bind.
      { unfold forZ, len at 1. rewrite Z.sub_0_r, Nat2Z.id. exact Rres. }
      apply runs_liftO. unfold sliceFrom, len.
      rewrite length_app, length_replicate.
      destruct (decide _); [|lia].
      rewrite Nat2Z.id. f_equal.
      rewrite drop_app_length'; [done | by rewrite length_replicate].
    + intros i Hi.
      pose proof (byteVal_expAt (Z.of_nat i) ltac:(lia)) as Hx.
      rewrite peval_app, (ER i Hi) by done.
      rewrite peval_app, peval_zeros by (done || apply byteList_zeros).
      rewrite length_replicate, LR. xor_bits.
Qed.

(** The published generator polynomial for 7 EC codewords, and the EC
    codewords of the textbook 1-M symbol "HELLO WORLD". *)
Example generator_7 :
  GenerateGeneratorPoly 7 initTables
  = (Ok [1; 127; 122; 154; 164; 11; 68; 117], initTables).
Proof.
  apply runs_fst; [apply readonly_GenerateGeneratorPoly|].
  vm_compute. reflexivity.
Qed.

Example ec_hello_world_1M :
  CalculateECCodewords
    [32; 91; 11; 120; 209; 114; 220; 77; 67; 64; 236; 17; 236; 17; 236; 17]
    10 initTables
  = (Ok [196; 35; 39; 119; 235; 215; 231; 226; 93; 23], initTables).
Proof.
  apply runs_fst; [apply readonly_CalculateECCodewords|].
  vm_compute. reflexivity.
Qed.

(** *** Syndromes of an encoded block *)

Lemma gfPolyEval_runs p x :
  byteList p → byteVal x → runs (gfPolyEval p x) (peval p x).
Proof.
  intros Hp Hx.
  destruct (forN_invariant (λ k acc, acc = peval (take k p) x)
    (λ i acc, c <- liftO (index p i) ;; m <- gfMul acc x ;; ret (gfAdd m c))
    (length p) 0) with (s := 0) as (r & Rr & ->).
  - intros k acc Hk ->. rewrite Z.add_0_l.
    destruct (lookup_lt_is_Some_2 p k Hk) as [c Hc].
    pose proof (byteList_lookup _ _ _ Hp Hc) as Bc.
    exists (peval (take (Datatypes.S k) p) x). split; [|done].
    eapply runs_bind.
    { apply runs_liftO, index_Ok. rewrite Nat2Z.id. split; [lia|done]. }
    eapply runs_bind.
    { apply gfMul_runs; [|done]. by apply peval_byte, byteList_take. }
    rewrite (take_S_r p k c), peval_snoc by (try apply byteList_take; done).
    apply runs_ret.
  - done.
  - rewrite take_ge in Rr by lia.
    unfold gfPolyEval, forZ, len. by rewrite Z.sub_0_r, Nat2Z.id.
Qed.

Lemma syndromes_zero block (n : nat) :
  byteList block → (n ≤ 255)%nat →
  (∀ i, (i < n)%nat → peval block (expAt (Z.of_nat i)) = 0) →
  runs (syndromes block (Z.of_nat n)) (replicate n 0).
Proof.
  intros Hb Hn Hz.
  destruct (forN_invariant (λ k syn, syn = replicate k 0)
    (λ i syn, root <- readExp i ;; s <- gfPolyEval block root ;;
              ret (syn ++ [s])) n 0) with (s := @nil Z) as (r & Rr & ->).
  - intros k syn Hk ->. rewrite Z.add_0_l.
    exists (replicate (Datatypes.S k) 0). split; [|done].
    eapply runs_bind; [apply readExp_runs; lia|].
    eapply runs_bind.
    { apply gfPolyEval_runs; [done|]. apply byteVal_expAt. lia. }
    rewrite (Hz k Hk), replicate_S_end. apply runs_ret.
  - done.
  - unfold syndromes, forZ. by rewrite Z.sub_0_r, Nat2Z.id.
Qed.

(** C1. Reed-Solomon encoding is systematic: for data codewords in 0..255
    and an EC length in 2..68, CalculateECCodewords returns ecLen
    codewords ec such that the block data ++ ec, evaluated as a GF(256)
    polynomial at each root expTable[i], i < ecLen, gives 0; hence a
    decoder that returns a block with all-zero syndromes as it is returns
    data ++ ec, whose data part is data. *)
Theorem rs_encode_systematic (data : list Z) (ecLen : Z)
    (Hdata : byteList data) (Hec : 2 ≤ ecLen ≤ 68) :
  ∃ ec,
    CalculateECCodewords data ecLen initTables = (Ok ec, initTables) ∧
    len ec = ecLen ∧ byteList ec ∧
    (∀ i, 0 ≤ i < ecLen →
       ∃ root, index (expTable initTables) i = Ok root ∧
               gfPolyEval (data ++ ec) root initTables
               = (Ok 0, initTables)) ∧
    (∀ correctErrors,
       rsDecode correctErrors (data ++ ec) ecLen initTables
       = (Ok (Corrected (data ++ ec)), initTables)) ∧
    take (length data) (data ++ ec) = data.
Proof.
  destruct (CalculateECCodewords_runs data (Z.to_nat ecLen) Hdata ltac:(lia))
    as (ec & Rec & Lec & Bec & Hroots).
  rewrite Z2Nat.id in Rec by lia.
  assert (byteList (data ++ ec)) as Hblock by by apply byteList_app.
  exists ec. split; [exact Rec|]. split; [unfold len; lia|].
  split; [done|]. split; [|split].
  - intros i Hi. exists (expAt i).
    split; [by apply exp_spec; lia|].
    pose proof (gfPolyEval_runs (data ++ ec) (expAt i) Hblock
                  ltac:(apply byteVal_expAt; lia)) as R.
    specialize (Hroots (Z.to_nat i) ltac:(lia)).
    rewrite Z2Nat.id in Hroots by lia. by rewrite Hroots in R.
  - intros correctErrors. unfold rsDecode.
    pose proof (syndromes_zero (data ++ ec) (Z.to_nat ecLen) Hblock
                  ltac:(lia) Hroots) as Rs.
    rewrite Z2Nat.id in Rs by lia.
    eapply runs_bind.
    + exact Rs.
    + replace (forallb _ _) with true; [apply runs_ret|].
      symmetry. apply forallb_forall. intros s Hs.
      apply list_elem_of_In, elem_of_replicate in Hs as [-> _].
      by apply bool_decide_eq_true.
  - by rewrite take_app_length.
Qed.

Lemma rs_encode_systematic_witness :
  ∃ ec,
    CalculateECCodewords [32; 91; 11; 120] 7 initTables
      = (Ok ec, initTables) ∧
    ∀ i, 0 ≤ i < 7 →
      ∃ root, index (expTable initTables) i = Ok root ∧
              gfPolyEval ([32; 91; 11; 120] ++ ec) root initTables
              = (Ok 0, initTables).
Proof.
  assert (byteList [32; 91; 11; 120]) as Hd.
  { repeat (apply Forall_cons_2; [unfold byteVal; lia|]). constructor. }
  destruct (rs_encode_systematic [32; 91; 11; 120] 7 Hd ltac:(lia))
    as (ec & Rec & _ & _ & Hs & _).
  exists ec. split; assumption.
Defined.

(** ** The BCH format word *)

Lemma bch_format_check :
  forallb (λ formatData,
    let w := Z.lxor (calculateBCHFormat formatData) 0x5412 in
    bool_decide (0 ≤ w < 2 ^ 15) &&
    bool_decide (w ≫ 10 = formatData) &&
    bool_decide (gf2Mod w 0x537 = 0) &&
    bool_decide
      (existsb (λ q, bool_decide (clmul q 0x537 = w)) (seqZ 0 32) = true))
    (seqZ 0 32) = true.
Proof. vm_compute. reflexivity. Qed.

(** C6. For a 5-bit formatData, calculateBCHFormat(formatData) xor 0x5412
    is a 15-bit word whose high 5 bits are formatData and which leaves
    remainder 0 in the GF(2) division by the generator 0x537; it is the
    carry-less product of 0x537 with some 5-bit quotient. *)
Theorem bch_format_codeword (formatData : Z) (H : 0 ≤ formatData ≤ 31) :
  let w := Z.lxor (calculateBCHFormat formatData) 0x5412 in
  0 ≤ w < 2 ^ 15 ∧ w ≫ 10 = formatData ∧ gf2Mod w 0x537 = 0 ∧
  ∃ q, 0 ≤ q ≤ 31 ∧ clmul q 0x537 = w.
Proof.
  pose proof (forallb_seqZ _ _ _ bch_format_check formatData ltac:(lia)) as C.
  cbv zeta in C.
  apply andb_prop in C as [C C4]. apply andb_prop in C as [C C3].
  apply andb_prop in C as [C1 C2].
  apply bool_decide_eq_true in C1, C2, C3, C4.
  apply existsb_exists in C4 as (q & Hq & Eq).
  apply list_elem_of_In, elem_of_seqZ in Hq. apply bool_decide_eq_true in Eq.
  intros w. repeat split; try done; try apply C1.
  exists q. split; [lia|done].
Qed.

Lemma bch_format_codeword_witness :
  let w := Z.lxor (calculateBCHFormat 8) 0x5412 in
  0 ≤ w < 2 ^ 15 ∧ w ≫ 10 = 8 ∧ gf2Mod w 0x537 = 0 ∧
  ∃ q, 0 ≤ q ≤ 31 ∧ clmul q 0x537 = w.
Proof. apply (bch_format_codeword 8). lia. Defined.

(** ** Concrete encodings *)

Lemma v2TestContent_length : String.length v2TestContent = 40%nat.
Proof. reflexivity. Qed.

(** C3, as stated, fails: the test content needs 4 + 8 + 40*8 = 332 bits,
    more than the 272 bits of version 2-L, and is encoded at version 3. *)
Lemma v2_content_not_version_2 :
  ¬ (∃ qr, encoded v2TestContent LevelL = Some qr ∧ Version qr = 2).
Proof.
  intros (qr & E & V). vm_compute in E. injection E as <-. discriminate V.
Qed.

(** C8. Two calls of NewQRCode with the same content and level, one after
    the other on whatever tables the package holds, return the same
    result: the same error, or symbols with the same version, level, size
    and modules (the mask is the constant [maskPattern] throughout); and
    neither call changes the tables. *)
Theorem NewQRCode_deterministic (content : string) (level : Z) (t : Tables) :
  let '(r1, t1) := NewQRCode content level t in
  let '(r2, t2) := NewQRCode content level t1 in
  r1 = r2 ∧ t1 = t ∧ t2 = t ∧
  ∀ q1 q2, r1 = Ok (inr q1) → r2 = Ok (inr q2) →
    Version q1 = Version q2 ∧ Level q1 = Level q2 ∧ Size q1 = Size q2 ∧
    Modules q1 = Modules q2.
Proof.
  pose proof (readonly_NewQRCode content level t) as H1.
  destruct (NewQRCode content level t) as [r1 t1] eqn:E1. simpl in H1. subst t1.
  rewrite E1. repeat split; try done; congruence.
Qed.

(** ** BitBuffer and padding *)

Lemma obind_Ok {A B} (m : outcome A) (k : A → outcome B) b :
  obind m k = Ok b → ∃ a, m = Ok a ∧ k a = Ok b.
Proof. destruct m as [a|p]; simpl; [eauto | done]. Qed.

Lemma bit_test num k :
  0 ≤ k → bool_decide (Z.land (num ≫ k) 1 = 1) = Z.testbit num k.
Proof.
  intros Hk.
  assert (Z.land (num ≫ k) 1 = (num ≫ k) `mod` 2) as ->
    by exact (Z.land_ones (num ≫ k) 1 ltac:(lia)).
  replace (Z.testbit num k) with (Z.testbit (num ≫ k) 0)
    by (rewrite Z.shiftr_spec by lia; f_equal; lia).
  rewrite Z.bit0_eqb.
  destruct (Z.eqb_spec ((num ≫ k) `mod` 2) 1) as [E|E].
  - by apply bool_decide_eq_true.
  - by apply bool_decide_eq_false.
Qed.

Lemma foldl_snoc_bits (f : Z → bool) (l : list Z) (b : BitBuffer) :
  Bits (foldl (λ b i, mkBitBuffer (Bits b ++ [f i])) b l)
  = Bits b ++ (f <$> l).
Proof.
  revert b. induction l as [|i l IH]; intros b; simpl.
  - by rewrite app_nil_r.
  - rewrite IH. simpl. by rewrite <- app_assoc.
Qed.

Lemma msbBits_seqZ (n : nat) v :
  (λ i, Z.testbit v (Z.of_nat n - 1 - i)) <$> seqZ 0 (Z.of_nat n)
  = msbBits n v.
Proof.
  induction n as [|n IH]; [done|].
  rewrite seqZ_cons by lia. simpl msbBits. rewrite fmap_cons. f_equal.
  - f_equal. lia.
  - rewrite <- IH. replace (Z.succ 0) with (1 + 0) by lia.
    rewrite <- fmap_add_seqZ, <- list_fmap_compose.
    replace (Z.pred (Z.of_nat (Datatypes.S n))) with (Z.of_nat n) by lia.
    apply list_fmap_ext. intros _ i _. simpl. f_equal. lia.
Qed.

Lemma Put_bits b num n :
  0 ≤ n → Bits (Put b num n) = Bits b ++ msbBits (Z.to_nat n) num.
Proof.
  intros Hn. unfold Put, loop, range. rewrite foldl_snoc_bits. f_equal.
  rewrite Z.sub_0_r, <- msbBits_seqZ, Z2Nat.id by done.
  apply list_fmap_ext. intros k i Hi. apply lookup_seqZ in Hi.
  apply bit_test. lia.
Qed.

Lemma msbBits_length n v : length (msbBits n v) = n.
Proof. induction n; simpl; lia. Qed.

Lemma msbBits_0 n : msbBits n 0 = replicate n false.
Proof.
  induction n as [|n IH]; [done|]. simpl. by rewrite Z.bits_0, IH.
Qed.

Lemma Put_Len b num n : 0 ≤ n → Len (Put b num n) = Len b + n.
Proof.
  intros Hn. unfold Len, len.
  rewrite Put_bits, length_app, msbBits_length by done. lia.
Qed.

Lemma bitStream_cons c l : bitStream (c :: l) = msbBits 8 c ++ bitStream l.
Proof. reflexivity. Qed.

Lemma bitStream_length l : length (bitStream l) = (8 * length l)%nat.
Proof.
  induction l as [|c l IH]; [done|].
  rewrite bitStream_cons, length_app, IH, msbBits_length. simpl. lia.
Qed.

Lemma encodeSegment_bits data :
  Bits (encodeSegment data)
  = msbBits 4 ModeByte ++ msbBits 8 (len data) ++ bitStream data.
Proof.
  unfold encodeSegment.
  assert (∀ b, Bits (foldl (λ bitBuffer c, Put bitBuffer c 8) b data)
               = Bits b ++ bitStream data) as F.
  { induction data as [|c data IH]; intros b; simpl.
    - by rewrite app_nil_r.
    - rewrite IH, Put_bits, bitStream_cons by lia.
      by rewrite <- !app_assoc. }
  rewrite F, !Put_bits by lia. simpl Bits.
  by rewrite <- !app_assoc.
Qed.

Lemma encodeSegment_Len data : Len (encodeSegment data) = 12 + 8 * len data.
Proof.
  unfold Len, len. rewrite encodeSegment_bits, !length_app, bitStream_length.
  simpl. lia.
Qed.

Lemma terminate_bits cap bb :
  Len bb ≤ cap →
  Bits (terminate cap bb)
  = Bits bb ++ replicate (Z.to_nat (Z.min 4 (cap - Len bb))) false.
Proof.
  intros H. unfold terminate.
  destruct (decide (Len bb < cap)) as [Hlt|Hge].
  - set (term := if decide (Len bb + 4 > cap) then cap - Len bb else 4).
    assert (term = Z.min 4 (cap - Len bb)) as ->
      by (unfold term; destruct (decide _); lia).
    by rewrite Put_bits, msbBits_0 by lia.
  - replace (Z.min 4 (cap - Len bb)) with 0 by lia. simpl.
    by rewrite app_nil_r.
Qed.

Lemma byteAlign_bits bb :
  Bits (byteAlign bb)
  = Bits bb ++ replicate (Z.to_nat ((8 - Len bb `mod` 8) `mod` 8)) false.
Proof.
  unfold byteAlign.
  assert (0 ≤ Len bb) as H0 by (unfold Len, len; lia).
  rewrite Z.rem_mod_nonneg by lia.
  pose proof (Z.mod_pos_bound (Len bb) 8 ltac:(lia)) as Hm.
  destruct (decide (Len bb `mod` 8 ≠ 0)) as [Hne|He].
  - rewrite (Z.mod_small (8 - _)) by lia.
    by rewrite Put_bits, msbBits_0 by lia.
  - replace (Len bb `mod` 8) with 0 by lia. simpl. by rewrite app_nil_r.
Qed.

Lemma padLoop_spec (k : nat) :
  ∀ fuel cap bb padIdx,
    (k ≤ fuel)%nat → Len bb + 8 * Z.of_nat k = cap →
    padIdx = 0 ∨ padIdx = 1 →
    ∃ bb', padLoop fuel cap bb padIdx = Ok bb' ∧
           Bits bb' = Bits bb ++
             bitStream (if decide (padIdx = 0)
                        then padCodewords k 0xEC 0x11
                        else padCodewords k 0x11 0xEC).
Proof.
  induction k as [|k IH]; intros fuel cap bb padIdx Hf Hcap Hidx.
  - exists bb. split.
    + destruct fuel; simpl; destruct (decide _); (done || lia).
    + simpl. destruct (decide _); simpl; by rewrite app_nil_r.
  - destruct fuel as [|fuel]; [lia|]. simpl padLoop.
    destruct (decide (Len bb < cap)); [|lia].
    set (pad := if decide (padIdx = 0) then 0xEC else 0x11).
    assert (index padBytes padIdx = Ok pad) as ->.
    { unfold pad. destruct Hidx as [-> | ->]; done. }
    simpl obind.
    destruct (IH fuel cap (Put bb pad 8) ((padIdx + 1) `rem` 2))
      as (bb' & R & B).
    { lia. }
    { rewrite Put_Len by lia. lia. }
    { destruct Hidx as [-> | ->]; [by right | by left]. }
    exists bb'. split; [done|]. rewrite B, Put_bits by lia.
    rewrite <- app_assoc. f_equal. unfold pad.
    destruct Hidx as [-> | ->]; reflexivity.
Qed.

Lemma padData_spec vInfo seg :
  let cap := (TotalCodewords vInfo - ECCodewords vInfo) * 8 in
  Len seg ≤ cap →
  ∃ bb (term align npad : nat),
    padData vInfo seg = Ok bb ∧
    Bits bb = Bits seg ++ replicate term false ++ replicate align false ++
              bitStream (padCodewords npad 0xEC 0x11) ∧
    Z.of_nat term = Z.min 4 (cap - Len seg) ∧ (align < 8)%nat ∧
    (Len seg + Z.of_nat term + Z.of_nat align) `mod` 8 = 0 ∧
    Len bb = cap.
Proof.
  intros cap Hle. unfold padData. fold cap.
  assert (0 ≤ Len seg) as H0 by (unfold Len, len; lia).
  set (t := Z.to_nat (Z.min 4 (cap - Len seg))).
  set (bb1 := terminate cap seg).
  assert (Bits bb1 = Bits seg ++ replicate t false) as B1
    by by apply terminate_bits.
  assert (Len bb1 = Len seg + Z.of_nat t) as L1.
  { unfold Len, len. rewrite B1, length_app, length_replicate. lia. }
  set (a := Z.to_nat ((8 - Len bb1 `mod` 8) `mod` 8)).
  set (bb2 := byteAlign bb1).
  assert (Bits bb2 = Bits bb1 ++ replicate a false) as B2
    by apply byteAlign_bits.
  assert (Len bb2 = Len bb1 + Z.of_nat a) as L2.
  { unfold Len, len. rewrite B2, length_app, length_replicate. lia. }
  pose proof (Z.mod_pos_bound (Len bb1) 8 ltac:(lia)) as Hm1.
  pose proof (Z.mod_pos_bound (8 - Len bb1 `mod` 8) 8 ltac:(lia)) as Hm2.
  assert (cap `mod` 8 = 0) as Hc8.
  { unfold cap. by rewrite Z.mul_comm, Z.mul_comm, Z.mod_mul by lia. }
  assert (Len bb2 `mod` 8 = 0) as Ha8.
  { rewrite L2. unfold a. rewrite Z2Nat.id by lia.
    rewrite Z.add_mod_idemp_r by lia.
    replace (Len bb1 + (8 - Len bb1 `mod` 8))
      with (Len bb1 - Len bb1 `mod` 8 + 1 * 8) by lia.
    rewrite Z.mod_add by lia.
    rewrite (Z.div_mod (Len bb1) 8) at 1 by lia.
    replace (8 * (Len bb1 `div` 8) + Len bb1 `mod` 8 - Len bb1 `mod` 8)
      with ((Len bb1 `div` 8) * 8) by lia.
    apply Z.mod_mul. lia. }
  assert (Len bb2 ≤ cap) as Hle2.
  { apply Z.mod_divide in Hc8 as [c Hc]; [|lia].
    apply Z.mod_divide in Ha8 as [d Hd]; [|lia].
    assert (Len bb1 ≤ cap) by lia.
    assert (Z.of_nat a < 8) by (unfold a; lia). lia. }
  set (k := Z.to_nat ((cap - Len bb2) `div` 8)).
  assert (Len bb2 + 8 * Z.of_nat k = cap) as Hk.
  { unfold k. rewrite Z2Nat.id by (apply Z.div_pos; lia).
    apply Z.mod_divide in Hc8 as [c Hc]; [|lia].
    apply Z.mod_divide in Ha8 as [d Hd]; [|lia].
    rewrite Hc, Hd. replace (c * 8 - d * 8) with ((c - d) * 8) by lia.
    rewrite Z.div_mul by lia. lia. }
  destruct (padLoop_spec k (Z.to_nat cap) cap bb2 0) as (bb & R & B);
    [lia|done|by left|].
  exists bb, t, a, k. split; [exact R|]. split.
  { rewrite B, B2, B1. destruct (decide (0 = 0)); [|done].
    by rewrite <- !app_assoc. }
  split; [unfold t; lia|]. split; [unfold a; lia|].
  split; [by rewrite <- L1, <- L2|].
  unfold Len, len. rewrite B, length_app, bitStream_length.
  destruct (decide (0 = 0)); [|done].
  assert (length (padCodewords k 0xEC 0x11) = k) as ->.
  { generalize 0xEC 0x11. clear. induction k as [|k' IHk]; intros; simpl;
      [done|]. by rewrite IHk. }
  unfold Len, len in Hk. lia.
Qed.

(** ** The matrix construction never panics *)

Lemma squareGridb_true size g : squareGridb size g = true → squareGrid size g.
Proof.
  unfold squareGridb, squareGrid. intros H.
  apply andb_prop in H as [H1 H2]. apply bool_decide_eq_true in H1.
  split; [done|]. apply Forall_forall. intros row Hr.
  rewrite forallb_forall in H2. apply list_elem_of_In in Hr.
  specialize (H2 row Hr). by apply bool_decide_eq_true in H2.
Qed.

Lemma squareGrid_row size g (r : Z) :
  squareGrid size g → 0 ≤ r < size →
  ∃ row, g !! Z.to_nat r = Some row ∧ len row = size.
Proof.
  intros [Hl Hr] Hrange. unfold len in Hl.
  destruct (lookup_lt_is_Some_2 g (Z.to_nat r) ltac:(lia)) as [row Hrow].
  exists row. split; [done|]. by eapply Forall_lookup_1 in Hr.
Qed.

Lemma get2_Ok size g r c :
  squareGrid size g → 0 ≤ r < size → 0 ≤ c < size →
  ∃ b, get2 g r c = Ok b.
Proof.
  intros Hg Hr Hc. destruct (squareGrid_row size g r Hg Hr) as (row & Er & Lr).
  unfold len in Lr.
  destruct (lookup_lt_is_Some_2 row (Z.to_nat c) ltac:(lia)) as [b Eb].
  exists b. unfold get2.
  assert (index g r = Ok row) as -> by (apply index_Ok; split; [lia|done]).
  simpl. apply index_Ok. split; [lia|done].
Qed.

Lemma set2_Ok size g r c b :
  squareGrid size g → 0 ≤ r < size → 0 ≤ c < size →
  ∃ g', set2 g r c b = Ok g' ∧ squareGrid size g'.
Proof.
  intros Hg Hr Hc. destruct (squareGrid_row size g r Hg Hr) as (row & Er & Lr).
  destruct Hg as [Hl Hrows]. unfold len in *.
  exists (<[Z.to_nat r := <[Z.to_nat c := b]> row]> g). split.
  - unfold set2.
    assert (index g r = Ok row) as -> by (apply index_Ok; split; [lia|done]).
    simpl. unfold assign.
    destruct (decide (0 ≤ c < Z.of_nat (length row))); [|lia]. simpl.
    destruct (decide (0 ≤ r < Z.of_nat (length g))); [|lia]. done.
  - split; [unfold len; by rewrite length_insert|].
    apply Forall_insert; [done|]. unfold len. by rewrite length_insert.
Qed.

Lemma setModule_ok size cv r c b :
  wfCanvas size cv → 0 ≤ r < size → 0 ≤ c < size →
  ∃ cv', setModule cv r c b = Ok cv' ∧ wfCanvas size cv'.
Proof.
  intros [Hm Hf] Hr Hc.
  destruct (set2_Ok size (modules cv) r c b Hm Hr Hc) as (m' & E & Hm').
  exists (mkCanvas m' (isFunction cv)). unfold setModule. rewrite E.
  split; [done|]. by split.
Qed.

Lemma isFunctionAt_ok size cv r c :
  wfCanvas size cv → 0 ≤ r < size → 0 ≤ c < size →
  ∃ b, isFunctionAt cv r c = Ok b.
Proof. intros [_ Hf]. by apply get2_Ok. Qed.

Lemma oloop_inv {S} (I : S → Prop) (ix : list Z)
    (body : Z → S → outcome S) :
  (∀ i s, i ∈ ix → I s → ∃ s', body i s = Ok s' ∧ I s') →
  ∀ s, I s → ∃ s', oloop ix body s = Ok s' ∧ I s'.
Proof.
  induction ix as [|i ix IH]; intros Hbody s Hs; simpl.
  - by exists s.
  - destruct (Hbody i s ltac:(left) Hs) as (s1 & E1 & I1). rewrite E1. simpl.
    apply IH; [|done]. intros j s' Hj. apply Hbody. by right.
Qed.

Lemma elem_of_range lo hi i : i ∈ range lo hi ↔ lo ≤ i < hi.
Proof. unfold range. rewrite elem_of_seqZ. lia. Qed.
Lemma elem_of_downRange hi lo i : i ∈ downRange hi lo ↔ lo ≤ i ≤ hi.
Proof. unfold downRange. rewrite elem_of_reverse, elem_of_seqZ. lia. Qed.

Lemma getBit_ok finalMessage k :
  0 ≤ k < len finalMessage * 8 → ∃ b, getBit finalMessage k = Ok b.
Proof.
  intros Hk. unfold getBit, len in *.
  assert (0 ≤ k `quot` 8 < Z.of_nat (length finalMessage)) as Hq.
  { rewrite Z.quot_div_nonneg by lia. split; [apply Z.div_pos; lia|].
    apply Z.div_lt_upper_bound; lia. }
  destruct (lookup_lt_is_Some_2 finalMessage (Z.to_nat (k `quot` 8))
              ltac:(lia)) as [byte Hb].
  assert (index finalMessage (k `quot` 8) = Ok byte) as ->
    by (apply index_Ok; split; [lia|done]).
  simpl. eauto.
Qed.

Lemma placeColumnPair_ok size col finalMessage cv idx :
  wfCanvas size cv → 0 ≤ idx → 1 ≤ col ≤ size - 1 →
  ∃ st, placeColumnPair size col finalMessage (len finalMessage * 8) (cv, idx)
        = Ok st ∧ wfCanvas size st.1 ∧ 0 ≤ st.2.
Proof.
  intros Hcv Hidx Hcol. unfold placeColumnPair.
  apply (oloop_inv (λ st, wfCanvas size st.1 ∧ 0 ≤ st.2)); [|done].
  intros rowIter st Hrow [Hw Hi]. apply elem_of_range in Hrow.
  set (r := if decide (((col + 1) `quot` 2) `rem` 2 = 0)
            then size - 1 - rowIter else rowIter).
  assert (0 ≤ r < size) as Hr by (unfold r; destruct (decide _); lia).
  apply (oloop_inv (λ st, wfCanvas size st.1 ∧ 0 ≤ st.2)); [|done].
  intros c [cv1 idx1] Hc [Hw1 Hi1]. apply elem_of_downRange in Hc.
  simpl in Hw1, Hi1.
  destruct (isFunctionAt_ok size cv1 r c Hw1 Hr ltac:(lia)) as [isF ->].
  simpl. destruct isF; simpl; [by eexists|].
  destruct (decide (idx1 < len finalMessage * 8)) as [Hlt|Hge].
  - destruct (getBit_ok finalMessage idx1 ltac:(lia)) as [b ->]. simpl.
    match goal with
    | |- context [setModule cv1 r c ?bit] =>
        destruct (setModule_ok size cv1 r c bit Hw1 Hr ltac:(lia))
          as (cv2 & -> & Hw2)
    end.
    simpl. eexists. split; [done|]. simpl. split; [done|lia].
  - simpl.
    match goal with
    | |- context [setModule cv1 r c ?bit] =>
        destruct (setModule_ok size cv1 r c bit Hw1 Hr ltac:(lia))
          as (cv2 & -> & Hw2)
    end.
    simpl. eexists. split; [done|]. simpl. split; [done|lia].
Qed.

Lemma placeColumns_ok size finalMessage (fuel : nat) :
  ∀ col cv idx,
    col ≤ Z.of_nat fuel → col ≤ size - 1 → wfCanvas size cv → 0 ≤ idx →
    ∃ st, placeColumns fuel size col finalMessage (len finalMessage * 8)
            (cv, idx) = Ok st ∧ wfCanvas size st.1.
Proof.
  induction fuel as [|fuel IH]; intros col cv idx Hf Hc Hw Hi.
  - simpl. destruct (decide (col > 0)); [lia|]. by eexists.
  - simpl. destruct (decide (col > 0)); [|by eexists].
    set (col' := if decide (col = 6) then col - 1 else col).
    assert (1 ≤ col' ≤ size - 1 ∧ col' ≤ col) as [Hc1 Hc2]
      by (unfold col'; destruct (decide _); lia).
    destruct (placeColumnPair_ok size col' finalMessage cv idx Hw Hi Hc1)
      as ([cv1 idx1] & -> & Hw1 & Hi1).
    simpl. apply IH; (done || lia).
Qed.

Lemma placeData_ok size finalMessage cv :
  wfCanvas size cv →
  ∃ cv', placeData size finalMessage cv = Ok cv' ∧ wfCanvas size cv'.
Proof.
  intros Hw. unfold placeData.
  destruct (placeColumns_ok size finalMessage (Z.to_nat size) (size - 1) cv 0)
    as ([cv1 idx1] & -> & Hw1); [lia|lia|done|lia|].
  simpl. by exists cv1.
Qed.

Lemma placeFormatBit_ok size formatPoly i cv :
  21 ≤ size → 0 ≤ i < 15 → wfCanvas size cv →
  ∃ cv', placeFormatBit size formatPoly i cv = Ok cv' ∧ wfCanvas size cv'.
Proof.
  intros Hs Hi Hw. unfold placeFormatBit.
  set (bit := bool_decide _).
  assert (∃ cv2, match topLeftCell i with
                 | Some (r, c) => setModule cv r c bit
                 | None => Ok cv
                 end = Ok cv2 ∧ wfCanvas size cv2) as (cv2 & -> & Hw2).
  { assert (i = 0 ∨ i = 1 ∨ i = 2 ∨ i = 3 ∨ i = 4 ∨ i = 5 ∨ i = 6 ∨ i = 7 ∨
            i = 8 ∨ i = 9 ∨ i = 10 ∨ i = 11 ∨ i = 12 ∨ i = 13 ∨ i = 14)
      as Hcases by lia.
    repeat destruct Hcases as [-> | Hcases]; try subst i; simpl;
      apply setModule_ok; (done || lia). }
  simpl. destruct (decide (i < 8)); apply setModule_ok; (done || lia).
Qed.

Lemma placeFormat_ok size level cv :
  21 ≤ size → wfCanvas size cv →
  ∃ cv', placeFormat size level cv = Ok cv' ∧ wfCanvas size cv'.
Proof.
  intros Hs Hw. unfold placeFormat.
  apply (oloop_inv (wfCanvas size)); [|done].
  intros i cv1 Hi Hw1. apply elem_of_range in Hi.
  by apply placeFormatBit_ok.
Qed.

Lemma functionPatterns_ok v :
  1 ≤ v ≤ 4 →
  ∃ cv, functionPatterns v (21 + 4 * (v - 1)) = Ok cv ∧
        wfCanvas (21 + 4 * (v - 1)) cv.
Proof.
  intros Hv.
  assert (match functionPatterns v (21 + 4 * (v - 1)) with
          | Ok cv => squareGridb (21 + 4 * (v - 1)) (modules cv) &&
                     squareGridb (21 + 4 * (v - 1)) (isFunction cv)
          | Panic _ => false
          end = true) as H.
  { assert (v = 1 ∨ v = 2 ∨ v = 3 ∨ v = 4) as [-> | [-> | [-> | ->]]] by lia;
      vm_compute; reflexivity. }
  destruct (functionPatterns _ _) as [cv|]; [|done].
  apply andb_prop in H as [H1 H2]. exists cv. split; [done|].
  split; by apply squareGridb_true.
Qed.

Lemma buildMatrix_ok v level finalMessage :
  1 ≤ v ≤ 4 →
  ∃ qr, buildMatrix v level finalMessage = Ok qr ∧
        Version qr = v ∧ Level qr = level ∧ Size qr = 21 + 4 * (v - 1) ∧
        squareGrid (Size qr) (Modules qr).
Proof.
  intros Hv. unfold buildMatrix.
  destruct (functionPatterns_ok v Hv) as (cv0 & -> & Hw0). simpl.
  destruct (placeData_ok _ finalMessage cv0 Hw0) as (cv1 & -> & Hw1). simpl.
  destruct (placeFormat_ok (21 + 4 * (v - 1)) level cv1 ltac:(lia) Hw1)
    as (cv2 & -> & Hw2).
  simpl. eexists. split; [done|]. simpl. repeat split; try done; apply Hw2.
Qed.

Lemma buildMatrix_fields v level finalMessage qr :
  buildMatrix v level finalMessage = Ok qr →
  Version qr = v ∧ Level qr = level ∧ Size qr = 21 + 4 * (v - 1).
Proof.
  unfold buildMatrix. intros H.
  repeat (apply obind_Ok in H as (? & _ & H)). by injection H as <-.
Qed.

(** ** Version selection *)

Lemma loop_inv {S} (I : S → Prop) (ix : list Z) (body : Z → S → S) :
  (∀ i s, i ∈ ix → I s → I (body i s)) → ∀ s, I s → I (loop ix body s).
Proof.
  unfold loop. induction ix as [|i ix IH]; intros Hb s Hs; simpl; [done|].
  apply IH; [|apply Hb; [left|done]]. intros j s' Hj. apply Hb. by right.
Qed.

Lemma lor_byte a b : byteVal a → byteVal b → byteVal (Z.lor a b).
Proof.
  unfold byteVal. intros Ha Hb.
  assert (0 ≤ Z.lor a b) by (apply Z.lor_nonneg; lia).
  split; [done|].
  destruct (decide (Z.lor a b = 0)) as [->|]; [lia|].
  change 256 with (2 ^ 8). apply Z.log2_lt_pow2; [lia|].
  rewrite Z.log2_lor by lia.
  assert (∀ v, 0 ≤ v < 256 → Z.log2 v < 8) as L.
  { intros v Hv. destruct (decide (v = 0)) as [->|]; [done|].
    apply Z.log2_lt_pow2; lia. }
  pose proof (L a Ha). pose proof (L b Hb). lia.
Qed.

Lemma toCodewords_byteList bits : byteList (toCodewords bits).
Proof.
  unfold toCodewords. apply (loop_inv byteList); [|constructor].
  intros i acc _ Hacc. apply byteList_app. split; [done|].
  apply Forall_cons_2; [|constructor].
  apply (loop_inv byteVal); [|done].
  intros j val Hj Hval. apply elem_of_range in Hj.
  destruct (decide _); [|done]. apply lor_byte; [done|].
  unfold byteVal. rewrite Z.shiftl_1_l.
  assert (2 ^ (7 - j) ≤ 2 ^ 7) by (apply Z.pow_le_mono_r; lia).
  assert (0 < 2 ^ (7 - j)) by (apply Z.pow_pos_nonneg; lia).
  change (2 ^ 7) with 128 in *. lia.
Qed.

(** The entries a lookup can return: those of the table for a level in
    0..3 and a version in 1..4, the zero value otherwise. *)
Lemma versionInfoAt_cases ver level :
  (versionInfoAt ver level = mkVersionInfo 0 0 0) ∨
  (1 ≤ ver ≤ 4 ∧ 0 ≤ level ≤ 3 ∧
   ECCodewords (versionInfoAt ver level) ≤ 64).
Proof.
  destruct (decide (1 ≤ ver ≤ 4 ∧ 0 ≤ level ≤ 3)) as [[Hv Hl]|Hn].
  - right. split; [done|]. split; [done|].
    assert (ver = 1 ∨ ver = 2 ∨ ver = 3 ∨ ver = 4) as Hc by lia.
    assert (level = 0 ∨ level = 1 ∨ level = 2 ∨ level = 3) as Hd by lia.
    destruct Hc as [-> | [-> | [-> | ->]]];
      destruct Hd as [-> | [-> | [-> | ->]]]; vm_compute; discriminate.
  - left. unfold versionInfoAt, versionTable.
    destruct (decide (ver = 1)) as [->|]; [|rewrite lookup_insert_ne by done;
    destruct (decide (ver = 2)) as [->|]; [|rewrite lookup_insert_ne by done;
    destruct (decide (ver = 3)) as [->|]; [|rewrite lookup_insert_ne by done;
    destruct (decide (ver = 4)) as [->|]; [|rewrite lookup_insert_ne by done;
      by rewrite lookup_empty]]]];
    rewrite lookup_insert_eq; simpl;
    unfold LevelL, LevelM, LevelQ, LevelH;
    rewrite !lookup_insert_ne by lia; by rewrite lookup_empty.
Qed.

Lemma chooseVersionFrom_spec data level (n : nat) :
  ∀ ver,
  match chooseVersionFrom n ver data level with
  | Some (v, info) =>
      ver ≤ v < ver + Z.of_nat n ∧ info = versionInfoAt v level ∧
      Blocks info ≤ 1 ∧ 12 + 8 * len data ≤ capacityBits v level ∧
      ∀ v', ver ≤ v' < v →
        ¬ (Blocks (versionInfoAt v' level) ≤ 1 ∧
           12 + 8 * len data ≤ capacityBits v' level)
  | None =>
      ∀ v', ver ≤ v' < ver + Z.of_nat n →
        ¬ (Blocks (versionInfoAt v' level) ≤ 1 ∧
           12 + 8 * len data ≤ capacityBits v' level)
  end.
Proof.
  induction n as [|n IH]; intros ver; simpl.
  - intros v' Hv'. lia.
  - specialize (IH (ver + 1)).
    destruct (decide (Blocks (versionInfoAt ver level) > 1)) as [Hb|Hb].
    + destruct (chooseVersionFrom n (ver + 1) data level) as [[v info]|].
      * destruct IH as (Hv & Hi & Hbl & Hcap & Hmin).
        repeat split; try done; try lia.
        intros v' Hv'. destruct (decide (v' = ver)) as [->|]; [lia|].
        apply Hmin. lia.
      * intros v' Hv'. destruct (decide (v' = ver)) as [->|]; [lia|].
        apply IH. lia.
    + destruct (decide (4 + 8 + len data * 8 ≤ _)) as [Hc|Hc].
      * repeat split; try lia. unfold capacityBits. lia.
      * destruct (chooseVersionFrom n (ver + 1) data level) as [[v info]|].
        -- destruct IH as (Hv & Hi & Hbl & Hcap & Hmin).
           repeat split; try done; try lia.
           intros v' Hv'. destruct (decide (v' = ver)) as [->|].
           ++ unfold capacityBits. lia.
           ++ apply Hmin. lia.
        -- intros v' Hv'. destruct (decide (v' = ver)) as [->|].
           ++ unfold capacityBits. lia.
           ++ apply IH. lia.
Qed.

(** *** NewQRCode returns *)

Lemma NewQRCode_runs content level :
  match chooseVersion (bytesOf content) level with
  | Some (v, vInfo) =>
      ∃ qr bitBuffer ecCodewords,
        runs (NewQRCode content level) (inr qr) ∧
        padData vInfo (encodeSegment (bytesOf content)) = Ok bitBuffer ∧
        runs (CalculateECCodewords (toCodewords (Bits bitBuffer))
                (ECCodewords vInfo)) ecCodewords ∧
        buildMatrix v level (toCodewords (Bits bitBuffer) ++ ecCodewords)
        = Ok qr ∧
        Version qr = v ∧ Level qr = level ∧ Size qr = 21 + 4 * (v - 1) ∧
        squareGrid (Size qr) (Modules qr)
  | None => runs (NewQRCode content level) (inl ErrContentTooLong)
  end.
Proof.
  unfold NewQRCode.
  pose proof (chooseVersionFrom_spec (bytesOf content) level 4 1) as Hsel.
  fold (chooseVersion (bytesOf content) level) in Hsel.
  destruct (chooseVersion (bytesOf content) level) as [[v vInfo]|];
    [|apply runs_ret].
  destruct Hsel as (Hv & -> & Hbl & Hcap & _).
  assert (0 ≤ len (bytesOf content)) as Hlen by (unfold len; lia).
  destruct (versionInfoAt_cases v level) as [Hz | (_ & _ & Hec)].
  { unfold capacityBits in Hcap. rewrite Hz in Hcap. simpl in Hcap. lia. }
  destruct (padData_spec (versionInfoAt v level)
              (encodeSegment (bytesOf content)))
    as (bb & _ & _ & _ & Epad & _).
  { rewrite encodeSegment_Len. exact Hcap. }
  assert (0 ≤ ECCodewords (versionInfoAt v level)) as Hec0.
  { assert (v = 1 ∨ v = 2 ∨ v = 3 ∨ v = 4) as Hc by lia.
    destruct (versionInfoAt_cases v level) as [Hz | (_ & Hl & _)].
    { rewrite Hz. simpl. lia. }
    assert (level = 0 ∨ level = 1 ∨ level = 2 ∨ level = 3) as Hd by lia.
    destruct Hc as [-> | [-> | [-> | ->]]];
      destruct Hd as [-> | [-> | [-> | ->]]]; vm_compute; discriminate. }
  destruct (CalculateECCodewords_runs (toCodewords (Bits bb))
              (Z.to_nat (ECCodewords (versionInfoAt v level))))
    as (ec & Rec & _); [apply toCodewords_byteList | lia |].
  rewrite Z2Nat.id in Rec by done.
  destruct (buildMatrix_ok v level (toCodewords (Bits bb) ++ ec) ltac:(lia))
    as (qr & Eqr & Hfields).
  exists qr, bb, ec. split; [|done].
  eapply runs_bind; [by apply runs_liftO|].
  eapply runs_bind; [exact Rec|].
  eapply runs_bind; [by apply runs_liftO|]. apply runs_ret.
Qed.

Lemma fits_iff data level v :
  fits data level v ↔
  Blocks (versionInfoAt v level) ≤ 1 ∧ 12 + 8 * len data ≤ capacityBits v level.
Proof. unfold fits, segmentBits, capacityBits. lia. Qed.

(** C2, as stated, fails: thirty bytes at level Q fit version 3 (272 bits
    of capacity against 256) and no smaller version, yet NewQRCode returns
    its error: version 3-Q has two blocks and is skipped. *)
Lemma smallest_version_not_chosen :
  specSelects (bytesOf thirtyBytes) LevelQ 3 ∧
  NewQRCode thirtyBytes LevelQ initTables
  = (Ok (inl ErrContentTooLong), initTables) ∧
  ¬ (∀ v, specSelects (bytesOf thirtyBytes) LevelQ v →
          ∃ qr, encoded thirtyBytes LevelQ = Some qr ∧ Version qr = v).
Proof.
  assert (specSelects (bytesOf thirtyBytes) LevelQ 3) as Hsel.
  { split; [lia|]. split; [vm_compute; discriminate|].
    intros v' Hv'. assert (v' = 1 ∨ v' = 2) as [-> | ->] by lia;
      vm_compute; reflexivity. }
  assert (NewQRCode thirtyBytes LevelQ initTables
          = (Ok (inl ErrContentTooLong), initTables)) as Herr.
  { pose proof (NewQRCode_runs thirtyBytes LevelQ) as H.
    assert (chooseVersion (bytesOf thirtyBytes) LevelQ = None) as E
      by (vm_compute; reflexivity).
    rewrite E in H. exact H. }
  split; [done|]. split; [done|].
  intros H. destruct (H 3 Hsel) as (qr & E & _).
  unfold encoded in E. by rewrite Herr in E.
Qed.

(** C2, amended. NewQRCode always returns: the symbol of the smallest
    version among 1..4 whose table entry for the level has a single block
    and whose data capacity in bits holds the segment with header and
    terminator; its error exactly when no version of 1..4 is such. *)
Theorem version_selection (content : string) (level : Z) :
  ∃ r, NewQRCode content level initTables = (Ok r, initTables) ∧
       match r with
       | inr qr =>
           1 ≤ Version qr ≤ 4 ∧ fits (bytesOf content) level (Version qr) ∧
           ∀ v', 1 ≤ v' < Version qr → ¬ fits (bytesOf content) level v'
       | inl ErrContentTooLong =>
           ∀ v, 1 ≤ v ≤ 4 → ¬ fits (bytesOf content) level v
       end.
Proof.
  pose proof (NewQRCode_runs content level) as H.
  pose proof (chooseVersionFrom_spec (bytesOf content) level 4 1) as Hsel.
  fold (chooseVersion (bytesOf content) level) in Hsel.
  destruct (chooseVersion (bytesOf content) level) as [[v vInfo]|].
  - destruct H as (qr & _ & _ & R & _ & _ & _ & Hv & _).
    destruct Hsel as (Hr & -> & Hbl & Hcap & Hmin).
    exists (inr qr). split; [exact R|]. rewrite Hv.
    split; [lia|]. split; [by apply fits_iff|].
    intros v' Hv'. rewrite fits_iff. by apply Hmin.
  - exists (inl ErrContentTooLong). split; [exact H|].
    intros v Hv. rewrite fits_iff. apply Hsel. lia.
Qed.

(** C5. In every successful encode, at the chosen version v: the data bit
    stream is the mode indicator, the 8-bit count and the payload bytes,
    then a terminator of min(4, room left) zero bits, then fewer than 8
    zero bits up to the byte boundary, then pad codewords 0xEC, 0x11, ...
    starting with 0xEC; its length is (TotalCodewords - ECCodewords) * 8
    of (v, level). *)
Theorem padding_fills_capacity (content : string) (level : Z)
    (qr : QRCode) (t' : Tables)
    (Henc : NewQRCode content level initTables = (Ok (inr qr), t')) :
  let data := bytesOf content in
  let vInfo := versionInfoAt (Version qr) level in
  let cap := (TotalCodewords vInfo - ECCodewords vInfo) * 8 in
  ∃ bitBuffer (term align npad : nat),
    chooseVersion data level = Some (Version qr, vInfo) ∧
    padData vInfo (encodeSegment data) = Ok bitBuffer ∧
    Bits bitBuffer
    = msbBits 4 ModeByte ++ msbBits 8 (len data) ++ bitStream data ++
      replicate term false ++ replicate align false ++
      bitStream (padCodewords npad 0xEC 0x11) ∧
    Z.of_nat term = Z.min 4 (cap - (12 + 8 * len data)) ∧
    (align < 8)%nat ∧
    (12 + 8 * len data + Z.of_nat term + Z.of_nat align) `mod` 8 = 0 ∧
    Len bitBuffer = cap.
Proof.
  intros data vInfo cap.
  pose proof (NewQRCode_runs content level) as H.
  pose proof (chooseVersionFrom_spec (bytesOf content) level 4 1) as Hsel.
  fold (chooseVersion (bytesOf content) level) in Hsel. fold data in H, Hsel.
  destruct (chooseVersion data level) as [[v info]|] eqn:Ecv.
  2:{ unfold runs in H. rewrite H in Henc. discriminate. }
  destruct H as (qr' & _ & _ & R & _ & _ & _ & Hv & _).
  unfold runs in R. assert (qr' = qr) as -> by congruence.
  destruct Hsel as (_ & -> & _ & Hcap & _). subst v.
  destruct (padData_spec vInfo (encodeSegment data))
    as (bb & term & align & npad & Epad & Ebits & Hterm & Halign & Hmod & HL).
  { rewrite encodeSegment_Len. exact Hcap. }
  exists bb, term, align, npad.
  rewrite encodeSegment_bits in Ebits. rewrite encodeSegment_Len in Hterm, Hmod.
  split; [done|]. split; [done|]. split.
  { rewrite Ebits. by rewrite <- !app_assoc. }
  done.
Qed.

Lemma padding_fills_capacity_witness :
  ∃ bitBuffer (term align npad : nat),
    padData (versionInfoAt 1 LevelL) (encodeSegment (bytesOf "Hello World"))
    = Ok bitBuffer ∧
    Bits bitBuffer
    = msbBits 4 ModeByte ++ msbBits 8 11 ++ bitStream (bytesOf "Hello World")
      ++ replicate term false ++ replicate align false ++
      bitStream (padCodewords npad 0xEC 0x11) ∧
    Len bitBuffer = 152.
Proof.
  destruct (NewQRCode "Hello World" LevelL initTables) as [r t'] eqn:E.
  assert (∃ qr, r = Ok (inr qr) ∧ Version qr = 1) as (qr & -> & Hv).
  { pose proof (f_equal fst E) as E1. simpl in E1. rewrite <- E1.
    vm_compute. eexists. split; reflexivity. }
  destruct (padding_fills_capacity "Hello World" LevelL qr t' E)
    as (bb & term & align & npad & _ & Epad & Ebits & _ & _ & _ & HL).
  rewrite Hv in Epad, HL.
  exists bb, term, align, npad. split; [exact Epad|]. split; [exact Ebits|].
  exact HL.
Defined.

(** ** The dark module and the format bits *)

Lemma oloop_app {S} (l1 l2 : list Z) (body : Z → S → outcome S) s :
  oloop (l1 ++ l2) body s = (s' <~ oloop l1 body s ;; oloop l2 body s').
Proof.
  revert s. induction l1 as [|i l1 IH]; intros s; simpl; [done|].
  destruct (body i s); simpl; [apply IH | done].
Qed.

Lemma set2_get g r c b g' r' c' :
  set2 g r c b = Ok g' →
  get2 g' r' c' = if decide (r' = r ∧ c' = c) then Ok b else get2 g r' c'.
Proof.
  unfold set2. intros H.
  apply obind_Ok in H as (row & Hrow & H).
  apply obind_Ok in H as (row' & Hrow' & H).
  unfold assign in Hrow', H.
  destruct (decide (0 ≤ c < _)) as [Hc|]; [|done]. injection Hrow' as <-.
  destruct (decide (0 ≤ r < _)) as [Hr|]; [|done]. injection H as <-.
  apply index_Ok in Hrow as [_ Hrow]. unfold get2.
  destruct (decide (r' = r)) as [->|Hne].
  - assert (index (<[Z.to_nat r := <[Z.to_nat c := b]> row]> g) r
            = Ok (<[Z.to_nat c := b]> row)) as ->.
    { apply index_Ok. split; [lia|]. apply list_lookup_insert_eq. lia. }
    assert (index g r = Ok row) as -> by (apply index_Ok; split; [lia|done]).
    simpl. destruct (decide (c' = c)) as [->|Hnc].
    + destruct (decide _) as [_|Hn]; [|by destruct Hn].
      apply index_Ok. split; [lia|]. apply list_lookup_insert_eq. lia.
    + destruct (decide _) as [[_ ?]|_]; [done|].
      unfold index. destruct (decide (0 ≤ c')); [|done].
      rewrite list_lookup_insert_ne by lia. done.
  - destruct (decide _) as [[? _]|_]; [done|].
    assert (index (<[Z.to_nat r := <[Z.to_nat c := b]> row]> g) r'
            = index g r') as ->; [|done].
    unfold index. destruct (decide (0 ≤ r')); [|done].
    rewrite list_lookup_insert_ne by lia. done.
Qed.

Lemma setModule_get cv r c b cv' r' c' :
  setModule cv r c b = Ok cv' →
  get2 (modules cv') r' c'
  = if decide (r' = r ∧ c' = c) then Ok b else get2 (modules cv) r' c'.
Proof.
  unfold setModule. intros H. apply obind_Ok in H as (m & Hm & H).
  injection H as <-. simpl. by eapply set2_get.
Qed.

(** A turn of the format loop that writes neither of its two cells on
    (row, col) leaves that module as it was. *)
Lemma placeFormatBit_other size formatPoly i cv cv' row col :
  placeFormatBit size formatPoly i cv = Ok cv' →
  topLeftCell i ≠ Some (row, col) →
  (if decide (i < 8) then (8, size - 1 - i) else (size - 8 + (i - 8), 8))
  ≠ (row, col) →
  get2 (modules cv') row col = get2 (modules cv) row col.
Proof.
  unfold placeFormatBit. intros H H1 H2.
  apply obind_Ok in H as (cv1 & E1 & E2).
  assert (get2 (modules cv1) row col = get2 (modules cv) row col) as <-.
  { destruct (topLeftCell i) as [[r c]|]; [|by injection E1 as <-].
    rewrite (setModule_get _ _ _ _ _ row col E1).
    destruct (decide (row = r ∧ col = c)) as [[-> ->]|]; [done|done]. }
  destruct (decide (i < 8));
    rewrite (setModule_get _ _ _ _ _ row col E2);
    match goal with
    | |- context [decide (row = ?r ∧ col = ?c)] =>
        destruct (decide (row = r ∧ col = c)) as [[-> ->]|]; [done|done]
    end.
Qed.

Lemma placeFormat_dark_module size level cv cv' :
  21 ≤ size → wfCanvas size cv → placeFormat size level cv = Ok cv' →
  get2 (modules cv') (size - 8) 8
  = Ok (Z.testbit
          (calculateBCHFormat (Z.lor (ecBitsOf level ≪ 3) maskPattern)) 8).
Proof.
  intros Hs Hw. unfold placeFormat.
  set (fp := calculateBCHFormat _).
  replace (range 0 15) with (range 0 8 ++ [8] ++ range 9 15)
    by (vm_compute; reflexivity).
  rewrite oloop_app. intros H.
  apply obind_Ok in H as (cv1 & E1 & H).
  rewrite oloop_app in H.
  apply obind_Ok in H as (cv2 & E2 & E3).
  simpl in E2. apply obind_Ok in E2 as (cv2' & E2 & [= ->]).
  (* turns 0..7 keep the canvas well formed *)
  destruct (oloop_inv (wfCanvas size) (range 0 8)
              (placeFormatBit size fp)) with (s := cv) as (cv1' & E1' & Hw1);
    [|done|].
  { intros i s Hi. apply elem_of_range in Hi.
    apply placeFormatBit_ok; lia. }
  assert (cv1' = cv1) as -> by congruence.
  (* turn 8 writes bit 8 on the dark module *)
  destruct (placeFormatBit_ok size fp 8 cv1 Hs ltac:(lia) Hw1)
    as (cv2'' & E2' & Hw2).
  assert (cv2'' = cv2) as -> by congruence.
  assert (get2 (modules cv2) (size - 8) 8 = Ok (Z.testbit fp 8)) as Hbit.
  { unfold placeFormatBit in E2. simpl in E2.
    apply obind_Ok in E2 as (cvx & _ & E2).
    rewrite (setModule_get _ _ _ _ _ (size - 8) 8 E2).
    destruct (decide _) as [_|Hn]; [|destruct Hn; lia].
    by rewrite bit_test by lia. }
  (* turns 9..14 write elsewhere *)
  destruct (oloop_inv
    (λ s, wfCanvas size s ∧ get2 (modules s) (size - 8) 8
                            = Ok (Z.testbit fp 8))
    (range 9 15) (placeFormatBit size fp)) with (s := cv2)
    as (cv3 & E3' & _ & Hfin); [|done|].
  { intros i s Hi [Hws Hb]. apply elem_of_range in Hi.
    destruct (placeFormatBit_ok size fp i s Hs ltac:(lia) Hws)
      as (s' & Es & Hws').
    exists s'. split; [done|]. split; [done|]. rewrite <- Hb.
    apply (placeFormatBit_other size fp i s s'); [done| |].
    - assert (i = 9 ∨ i = 10 ∨ i = 11 ∨ i = 12 ∨ i = 13 ∨ i = 14)
        as Hc by lia.
      repeat destruct Hc as [-> | Hc]; try subst i; simpl;
        intros [=]; lia.
    - destruct (decide (i < 8)); intros [=]; lia. }
  assert (cv3 = cv') as -> by congruence. done.
Qed.

(** C4 on the code: the module at (size-8, 8) is not dark in every symbol
    NewQRCode returns.  The second copy of the format bits is written
    from row size-8 on, so format bit 8 lands on the dark module: whatever
    the content, the module is dark in the returned grid at levels L and
    Q and light at levels M and H (bit 8 of the format word is 0 there
    under mask 0); "Hello" at level M is such an encoding. *)
Theorem dark_module_overwritten :
  (∀ content level,
     ∃ r, NewQRCode content level initTables = (Ok r, initTables) ∧
          match r with
          | inr qr =>
              get2 (Modules qr) (Size qr - 8) 8
              = Ok (bool_decide (level = LevelL ∨ level = LevelQ))
          | inl _ => True
          end) ∧
  (∃ qr, NewQRCode "Hello" LevelM initTables = (Ok (inr qr), initTables) ∧
         Size qr = 21 ∧ get2 (Modules qr) (Size qr - 8) 8 = Ok false).
Proof.
  split.
  - intros content level.
    pose proof (NewQRCode_runs content level) as H.
    pose proof (chooseVersionFrom_spec (bytesOf content) level 4 1) as Hsel.
    fold (chooseVersion (bytesOf content) level) in Hsel.
    destruct (chooseVersion (bytesOf content) level) as [[v vInfo]|].
    2:{ by exists (inl ErrContentTooLong). }
    destruct H as (qr & bb & ec & R & _ & _ & Ebm & Hv & _ & Hsz & _).
    destruct Hsel as (Hr & -> & _ & Hcap & _).
    exists (inr qr). split; [exact R|].
    assert (0 ≤ level ≤ 3) as Hl.
    { destruct (versionInfoAt_cases v level) as [Hz | (_ & ? & _)]; [|done].
      unfold capacityBits in Hcap. rewrite Hz in Hcap. simpl in Hcap.
      unfold len in Hcap. lia. }
    unfold buildMatrix in Ebm.
    apply obind_Ok in Ebm as (cv0 & E0 & Ebm).
    apply obind_Ok in Ebm as (cv1 & E1 & Ebm).
    apply obind_Ok in Ebm as (cv2 & E2 & [= <-]). simpl.
    destruct (functionPatterns_ok v ltac:(lia)) as (cv0' & E0' & Hw0).
    assert (cv0' = cv0) as -> by congruence.
    destruct (placeData_ok _ (toCodewords (Bits bb) ++ ec) cv0 Hw0)
      as (cv1' & E1' & Hw1).
    assert (cv1' = cv1) as -> by congruence.
    rewrite (placeFormat_dark_module (21 + 4 * (v - 1)) level cv1 cv2
               ltac:(lia) Hw1 E2).
    f_equal.
    assert (level = 0 ∨ level = 1 ∨ level = 2 ∨ level = 3)
      as [-> | [-> | [-> | ->]]] by lia; vm_compute; reflexivity.
  - eexists. split; [vm_compute; reflexivity|].
    split; [reflexivity | vm_compute; reflexivity].
Qed.

(** ** The rasterizer *)

Lemma range_cons lo hi : lo < hi → range lo hi = lo :: range (lo + 1) hi.
Proof.
  intros H. unfold range. rewrite seqZ_cons by lia. f_equal. f_equal; lia.
Qed.
Lemma range_nil lo hi : hi ≤ lo → range lo hi = [].
Proof. intros H. unfold range. apply seqZ_nil. lia. Qed.

Lemma oloop_range_inv {S} (I : Z → S → Prop) (body : Z → S → outcome S)
    (lo hi : Z) :
  lo ≤ hi →
  (∀ i s, lo ≤ i < hi → I i s → ∃ s', body i s = Ok s' ∧ I (i + 1) s') →
  ∀ s, I lo s → ∃ s', oloop (range lo hi) body s = Ok s' ∧ I hi s'.
Proof.
  intros Hle. remember (Z.to_nat (hi - lo)) as n eqn:En.
  revert lo Hle En. induction n as [|n IH]; intros lo Hle En Hbody s Hs.
  - assert (lo = hi) as -> by lia. rewrite range_nil by lia. by exists s.
  - rewrite range_cons by lia. simpl.
    destruct (Hbody lo s ltac:(lia) Hs) as (s1 & -> & I1). simpl.
    apply (IH (lo + 1)); [lia|lia| |done].
    intros i s' Hi. apply Hbody. lia.
Qed.

Lemma wrap_id z : - 2 ^ 63 ≤ z < 2 ^ 63 → wrap z = z.
Proof. intros H. unfold wrap. rewrite Z.mod_small by lia. lia. Qed.

Lemma small_side dim : 0 ≤ dim → dim * dim ≤ maxAlloc → dim ≤ 2 ^ 24.
Proof.
  unfold maxAlloc. intros H0 H. destruct (decide (dim ≤ 2 ^ 24)); [done|].
  assert (2 ^ 24 * 2 ^ 24 < dim * dim) by nia. lia.
Qed.

Lemma paints_ext dim img (D D' : Z → Z → Prop) :
  paints dim img D →
  (∀ x y, 0 ≤ x < dim → 0 ≤ y < dim → (D x y ↔ D' x y)) →
  paints dim img D'.
Proof.
  intros (H1 & H2 & H3 & H4 & H) E. repeat split; try done.
  intros x y Hx Hy. destruct (H x y Hx Hy) as (v & Ev & Hv & Hd).
  exists v. split; [done|]. split; [done|]. rewrite Hd. by apply E.
Qed.

Lemma pixel_offset_inj dim x y x0 y0 :
  0 ≤ x < dim → 0 ≤ x0 < dim → 0 ≤ y → 0 ≤ y0 →
  y * dim + x = y0 * dim + x0 → x = x0 ∧ y = y0.
Proof.
  intros Hx Hx0 Hy Hy0 E.
  assert (y = y0) as -> by nia. split; [lia|done].
Qed.

(** Inside a square image at the origin no offset wraps. *)
Lemma PixOffset_square dim img x y :
  Stride img = dim → Bounds img = mkRectangle 0 0 dim dim →
  dim * dim ≤ maxAlloc → 0 ≤ x < dim → 0 ≤ y < dim →
  PixOffset img x y = y * dim + x.
Proof.
  intros H1 H2 H4 Hx Hy.
  pose proof (small_side dim ltac:(lia) H4) as Hd.
  unfold PixOffset. rewrite H1, H2. simpl.
  rewrite !Z.sub_0_r, Z.mul_1_r.
  assert (0 ≤ y * dim ≤ 2 ^ 24 * 2 ^ 24) by nia.
  rewrite (wrap_id y), !(wrap_id x), (wrap_id (y * dim)) by lia.
  apply wrap_id. lia.
Qed.

Lemma ColorIndexAt_square dim img x y :
  Stride img = dim → Bounds img = mkRectangle 0 0 dim dim →
  dim * dim ≤ maxAlloc → 0 ≤ x < dim → 0 ≤ y < dim →
  ColorIndexAt img x y = index (Pix img) (y * dim + x).
Proof.
  intros H1 H2 H4 Hx Hy. unfold ColorIndexAt.
  rewrite (PixOffset_square dim) by done. rewrite H2. simpl.
  by destruct (decide _) as [_|Hn]; [|lia].
Qed.

Lemma SetColorIndex_paints dim img D x0 y0 :
  paints dim img D → 0 ≤ x0 < dim → 0 ≤ y0 < dim →
  ∃ img', SetColorIndex img x0 y0 1 = Ok img' ∧
          paints dim img' (λ x y, D x y ∨ (x = x0 ∧ y = y0)).
Proof.
  intros (H1 & H2 & H3 & H4 & H) Hx0 Hy0. unfold SetColorIndex.
  rewrite (PixOffset_square dim) by done. rewrite H2. simpl.
  destruct (decide _) as [_|Hn]; [|lia].
  unfold assign. unfold len in H3.
  destruct (decide _) as [Hin|Hn]; [|nia]. simpl.
  eexists. split; [done|]. unfold paints. simpl.
  split; [done|]. split; [done|].
  split; [unfold len; by rewrite length_insert|]. split; [done|].
  intros x y Hx Hy. destruct (H x y Hx Hy) as (v & Ev & Hv & Hd).
  rewrite (ColorIndexAt_square dim) in Ev by done.
  rewrite (ColorIndexAt_square dim) by done. simpl.
  destruct (decide (y * dim + x = y0 * dim + x0)) as [E|E].
  - apply pixel_offset_inj in E as [-> ->]; [|lia..].
    exists 1. split.
    + apply index_Ok. split; [lia|].
      apply list_lookup_insert_eq. lia.
    + split; [by right|]. split; [by right|done].
  - exists v. split.
    + apply index_Ok in Ev as [Hn Ev]. apply index_Ok. split; [done|].
      rewrite list_lookup_insert_ne; [done|]. lia.
    + split; [done|]. rewrite Hd. split; [by left|].
      intros [?|[-> ->]]; [done|]. by destruct E.
Qed.

(** One module square is painted by the two inner loops. *)
Lemma draw_module_paints dim scale img D startX startY :
  1 ≤ scale → 0 ≤ startX → startX + scale ≤ dim →
  0 ≤ startY → startY + scale ≤ dim →
  paints dim img D →
  ∃ img',
    oloop (range 0 scale) (λ y img,
      oloop (range 0 scale) (λ x img,
        SetColorIndex img (wrap (startX + x)) (wrap (startY + y)) 1) img) img
    = Ok img' ∧
    paints dim img' (λ x y, D x y ∨
      (startX ≤ x < startX + scale ∧ startY ≤ y < startY + scale)).
Proof.
  intros Hs HX0 HX1 HY0 HY1 Hp.
  assert (dim ≤ 2 ^ 24) as Hd.
  { destruct Hp as (_ & _ & _ & H4 & _). apply small_side; [lia|done]. }
  destruct (oloop_range_inv
    (λ y' img, paints dim img (λ x y, D x y ∨
       (startX ≤ x < startX + scale ∧ startY ≤ y < startY + y')))
    (λ y img, oloop (range 0 scale) (λ x img,
       SetColorIndex img (wrap (startX + x)) (wrap (startY + y)) 1) img)
    0 scale)
    with (s := img) as (img' & E & Hp'); [lia| | |].
  - intros yy img1 Hyy Hp1.
    destruct (oloop_range_inv
      (λ x' img, paints dim img (λ x y,
         (D x y ∨ (startX ≤ x < startX + scale ∧ startY ≤ y < startY + yy))
         ∨ (startX ≤ x < startX + x' ∧ y = startY + yy)))
      (λ x img, SetColorIndex img (wrap (startX + x)) (wrap (startY + yy)) 1)
      0 scale)
      with (s := img1) as (img2 & E2 & Hp2); [lia| | |].
    + intros xx img2 Hxx Hp2. rewrite !wrap_id by lia.
      destruct (SetColorIndex_paints dim img2 _ (startX + xx) (startY + yy)
                  Hp2 ltac:(lia) ltac:(lia)) as (img3 & E3 & Hp3).
      exists img3. split; [done|].
      eapply paints_ext; [exact Hp3|]. intros x y _ _. simpl. intuition lia.
    + eapply paints_ext; [exact Hp1|]. intros x y _ _. simpl. intuition lia.
    + exists img2. split; [done|].
      eapply paints_ext; [exact Hp2|]. intros x y _ _. simpl. intuition lia.
  - eapply paints_ext; [exact Hp|]. intros x y _ _. simpl. intuition lia.
  - exists img'. split; [done|].
    eapply paints_ext; [exact Hp'|]. intros x y _ _. simpl. intuition lia.
Qed.

Lemma drawModule_paints dim scale img D r c :
  1 ≤ scale → 0 ≤ r → 0 ≤ c →
  (c + 5) * scale ≤ dim → (r + 5) * scale ≤ dim →
  paints dim img D →
  ∃ img', drawModule scale 4 r c img = Ok img' ∧
          paints dim img' (λ x y, D x y ∨ cell scale r c x y).
Proof.
  intros Hs Hr Hc HX HY Hp.
  assert (dim ≤ 2 ^ 24) as Hd.
  { destruct Hp as (_ & _ & _ & H4 & _). apply small_side; [nia|done]. }
  unfold drawModule. cbv zeta.
  rewrite (wrap_id (c + 4)), (wrap_id (r + 4)) by nia.
  rewrite (wrap_id ((c + 4) * scale)), (wrap_id ((r + 4) * scale)) by nia.
  destruct (draw_module_paints dim scale img D
              ((c + 4) * scale) ((r + 4) * scale)
              Hs ltac:(nia) ltac:(nia) ltac:(nia) ltac:(nia) Hp)
    as (img' & E & Hp').
  exists img'. split; [exact E|].
  eapply paints_ext; [exact Hp'|]. intros x y _ _. unfold cell.
  replace ((c + 5) * scale) with ((c + 4) * scale + scale) by lia.
  replace ((r + 5) * scale) with ((r + 4) * scale + scale) by lia.
  tauto.
Qed.

Lemma whiteFill_id pix stride b :
  Forall (λ v, v = 0) pix →
  whiteFill (mkPaletted pix stride b) = Ok (mkPaletted pix stride b).
Proof.
  intros Hz. unfold whiteFill.
  destruct (oloop_range_inv (λ _ img, img = mkPaletted pix stride b)
    (λ i img, pix <~ assign (Pix img) i 0 ;;
              Ok (mkPaletted pix (Stride img) (Bounds img)))
    0 (len pix)) with (s := mkPaletted pix stride b)
    as (img' & E & ->); [unfold len; lia| |done|done].
  intros i img Hi ->. simpl. unfold assign, len in *.
  destruct (decide _); [|lia]. simpl. eexists. split; [|done].
  do 2 f_equal.
  destruct (lookup_lt_is_Some_2 pix (Z.to_nat i) ltac:(lia)) as [v Hv].
  apply list_insert_id.
  eapply Forall_lookup_1 in Hz; [|exact Hv]. by subst.
Qed.

Lemma cell_div scale r c x y :
  1 ≤ scale → 0 ≤ x → 0 ≤ y →
  cell scale r c x y ↔ (y `div` scale - 4 = r ∧ x `div` scale - 4 = c).
Proof.
  intros Hs Hx Hy. unfold cell.
  pose proof (Z.div_mod x scale ltac:(lia)).
  pose proof (Z.mod_pos_bound x scale ltac:(lia)).
  pose proof (Z.div_mod y scale ltac:(lia)).
  pose proof (Z.mod_pos_bound y scale ltac:(lia)).
  split.
  - intros [Hc Hr]. split; nia.
  - intros [<- <-]. nia.
Qed.

Lemma exists_below_succ (P : Z → Prop) c :
  0 ≤ c →
  (∃ k, 0 ≤ k < c + 1 ∧ P k) ↔ (∃ k, 0 ≤ k < c ∧ P k) ∨ P c.
Proof.
  intros Hc. split.
  - intros (k & Hk & HP). destruct (decide (k = c)) as [->|]; [by right|].
    left. exists k. split; [lia|done].
  - intros [(k & Hk & HP) | HP]; [exists k | exists c]; (split; [lia|done]).
Qed.

Lemma blank_paints dim :
  0 ≤ dim → dim * dim ≤ maxAlloc →
  paints dim (mkPaletted (replicate (Z.to_nat (dim * dim)) 0) dim
                (mkRectangle 0 0 dim dim))
    (λ _ _, False).
Proof.
  intros Hd Hm. unfold paints. simpl. split; [done|]. split; [done|].
  split; [unfold len; rewrite length_replicate; nia|]. split; [done|].
  intros x y Hx Hy. exists 0. split.
  - rewrite (ColorIndexAt_square dim) by done. simpl.
    apply index_Ok. split; [nia|]. apply lookup_replicate_2. nia.
  - split; [by left|]. split; [lia|done].
Qed.

(** [image.NewPaletted] on a square at the origin that can be
    allocated. *)
Lemma NewPaletted_square avail d :
  0 ≤ d → allocatable avail (d * d) →
  NewPaletted avail (Rect 0 0 d d)
  = Ok (mkPaletted (replicate (Z.to_nat (d * d)) 0) d (mkRectangle 0 0 d d)).
Proof.
  intros Hd [Hm Ha]. pose proof (small_side d Hd Hm) as Hs.
  assert (0 ≤ d * d ≤ 2 ^ 24 * 2 ^ 24) as Hdd by nia.
  unfold Rect. destruct (decide (0 > d)); [lia|].
  unfold NewPaletted, pixelBufferLength, Dx, Dy. simpl.
  rewrite Z.sub_0_r, (wrap_id d) by lia.
  unfold mul3NonNeg. destruct (decide (1 < 0 ∨ d < 0 ∨ d < 0)); [lia|].
  unfold Mul64. rewrite Z.mul_1_l.
  rewrite (Z.div_small d), (Z.mod_small d) by lia.
  destruct (decide (0 ≠ 0)); [done|].
  rewrite (Z.div_small (d * d)), (Z.mod_small (d * d)) by lia.
  destruct (decide (0 ≠ 0)); [done|].
  rewrite (wrap_id (d * d)) by lia.
  destruct (decide (d * d < 0)); [lia|].
  destruct (decide (d * d < 0)); [lia|]. simpl.
  unfold makePix. unfold maxAlloc in *.
  destruct (decide (d * d < 0 ∨ 2 ^ 48 < d * d)); [lia|].
  destruct (decide (avail < d * d)); [lia|]. simpl.
  by rewrite (wrap_id d) by lia.
Qed.

(** All module squares are painted by [drawModules]. *)
Lemma drawModules_paints qr scale img :
  1 ≤ scale → squareGrid (Size qr) (Modules qr) →
  paints ((Size qr + 8) * scale) img (λ _ _, False) →
  ∃ img',
    drawModules qr scale 4 img = Ok img' ∧
    paints ((Size qr + 8) * scale) img' (λ x y,
      ∃ r, 0 ≤ r < Size qr ∧ ∃ c, 0 ≤ c < Size qr ∧
        get2 (Modules qr) r c = Ok true ∧ cell scale r c x y).
Proof.
  intros Hscale Hgrid Hblank. set (dim := (Size qr + 8) * scale) in *.
  assert (0 ≤ Size qr) as Hsize by (destruct Hgrid as [<- _]; unfold len; lia).
  set (dark := λ r c, get2 (Modules qr) r c = Ok true).
  unfold drawModules.
  destruct (oloop_range_inv
    (λ r' img, paints dim img (λ x y,
       ∃ r, 0 ≤ r < r' ∧ ∃ c, 0 ≤ c < Size qr ∧ dark r c ∧ cell scale r c x y))
    (λ r img, oloop (range 0 (Size qr)) (λ c img,
       m <~ get2 (Modules qr) r c ;;
       if m then drawModule scale 4 r c img else Ok img) img) 0 (Size qr))
    with (s := img) as (img' & E & Hp); [lia| | |].
  - (* one row of modules *)
    intros r img1 Hr Hp1.
    destruct (oloop_range_inv
      (λ c' img, paints dim img (λ x y,
         (∃ r0, 0 ≤ r0 < r ∧
            ∃ c, 0 ≤ c < Size qr ∧ dark r0 c ∧ cell scale r0 c x y) ∨
         (∃ c, 0 ≤ c < c' ∧ dark r c ∧ cell scale r c x y)))
      (λ c img,
         m <~ get2 (Modules qr) r c ;;
         if m then drawModule scale 4 r c img else Ok img) 0 (Size qr))
      with (s := img1) as (img2 & E2 & Hp2); [lia| | |].
    + (* one module *)
      intros c img2 Hc Hp2.
      destruct (get2_Ok (Size qr) (Modules qr) r c Hgrid Hr Hc) as [m Em].
      rewrite Em. simpl. destruct m.
      * destruct (drawModule_paints dim scale img2 _ r c
                    Hscale ltac:(lia) ltac:(lia)
                    ltac:(unfold dim; nia) ltac:(unfold dim; nia) Hp2)
          as (img3 & E3 & Hp3).
        exists img3. split; [done|].
        eapply paints_ext; [exact Hp3|]. intros x y _ _. simpl.
        rewrite (exists_below_succ (λ k, dark r k ∧ cell scale r k x y))
          by lia.
        unfold dark. rewrite Em. tauto.
      * exists img2. split; [done|].
        eapply paints_ext; [exact Hp2|]. intros x y _ _. simpl.
        rewrite (exists_below_succ (λ k, dark r k ∧ cell scale r k x y))
          by lia.
        assert (¬ dark r c) as Hnd by (unfold dark; rewrite Em; discriminate).
        tauto.
    + eapply paints_ext; [exact Hp1|]. intros x y _ _. simpl.
      split; [tauto|]. intros [H|(c & Hc & _)]; [done|lia].
    + exists img2. split; [done|].
      eapply paints_ext; [exact Hp2|]. intros x y _ _. simpl.
      rewrite (exists_below_succ
        (λ k, ∃ c, 0 ≤ c < Size qr ∧ dark k c ∧ cell scale k c x y)) by lia.
      tauto.
  - eapply paints_ext; [exact Hblank|]. intros x y _ _. simpl.
    split; [done|]. intros (r & Hr & _). lia.
  - exists img'. split; [done|]. exact Hp.
Qed.

(** The whole of [WritePNG] for a square grid, a scale of at least 1 and
    an image that can be allocated. *)
Lemma WritePNG_paints_modules avail qr scale :
  1 ≤ scale → squareGrid (Size qr) (Modules qr) →
  allocatable avail (((Size qr + 8) * scale) * ((Size qr + 8) * scale)) →
  ∃ img,
    WritePNG avail qr scale = Ok (Written img) ∧
    paints ((Size qr + 8) * scale) img (λ x y,
      ∃ r, 0 ≤ r < Size qr ∧ ∃ c, 0 ≤ c < Size qr ∧
        get2 (Modules qr) r c = Ok true ∧ cell scale r c x y).
Proof.
  intros Hscale Hgrid Hfits. set (dim := (Size qr + 8) * scale) in *.
  assert (0 ≤ Size qr) as Hsize by (destruct Hgrid as [<- _]; unfold len; lia).
  assert (8 ≤ dim) as Hdim by (unfold dim; nia).
  pose proof (small_side dim ltac:(lia) (proj1 Hfits)) as Hsmall.
  unfold WritePNG. destruct (decide (scale < 1)); [lia|]. cbv zeta.
  change (wrap (2 * 4)) with 8.
  rewrite (wrap_id (Size qr + 8)) by (unfold dim in *; nia).
  fold dim. rewrite (wrap_id dim) by lia.
  rewrite (NewPaletted_square avail dim) by (done || lia). simpl obind.
  rewrite whiteFill_id by (apply Forall_replicate; done). simpl obind.
  destruct (drawModules_paints qr scale
              (mkPaletted (replicate (Z.to_nat (dim * dim)) 0) dim
                 (mkRectangle 0 0 dim dim)) Hscale Hgrid)
    as (img & E & Hp); [apply blank_paints; [lia | apply Hfits]|].
  rewrite E. simpl obind. exists img. split; [|exact Hp].
  destruct Hp as (_ & Hb & _). unfold pngEncode, Dx, Dy. rewrite Hb. simpl.
  rewrite Z.sub_0_r. fold dim. rewrite (wrap_id dim) by lia.
  by destruct (decide _) as [?|_]; [lia|].
Qed.

(** From module squares to module coordinates. *)
Lemma paints_modules_darkAt qr scale img :
  1 ≤ scale →
  paints ((Size qr + 8) * scale) img (λ x y,
    ∃ r, 0 ≤ r < Size qr ∧ ∃ c, 0 ≤ c < Size qr ∧
      get2 (Modules qr) r c = Ok true ∧ cell scale r c x y) →
  ∀ x y, 0 ≤ x < (Size qr + 8) * scale → 0 ≤ y < (Size qr + 8) * scale →
    ∃ v, ColorIndexAt img x y = Ok v ∧ (v = 0 ∨ v = 1) ∧
         (v = 1 ↔ darkAt qr (y `div` scale - 4) (x `div` scale - 4)).
Proof.
  intros Hscale (_ & _ & _ & _ & Hp) x y Hx Hy.
  destruct (Hp x y Hx Hy) as (v & Ev & Hv & Hd).
  exists v. split; [done|]. split; [done|]. rewrite Hd.
  unfold darkAt. split.
  - intros (r & Hr & c & Hc & Hdark & Hcell).
    apply cell_div in Hcell as [-> ->]; [done|lia..].
  - intros (Hr & Hc & Hdark).
    exists (y `div` scale - 4). split; [done|].
    exists (x `div` scale - 4). split; [done|]. split; [done|].
    apply cell_div; [lia..|done].
Qed.

(** C9, as stated, fails: for the symbol of "Hello" at level L, 21
    modules a side, a scale of 2^62 makes the side (21 + 8) * scale wrap
    around to 2^62, and image.NewPaletted panics on the size of the
    rectangle; a scale of a million asks for 29 000 000^2 bytes, more
    than the run-time allocates at once, and makeslice panics.  Neither
    depends on the memory of the machine. *)
Lemma WritePNG_huge_scale_panics :
  ∃ qr, NewQRCode "Hello" LevelL initTables = (Ok (inr qr), initTables) ∧
        squareGrid (Size qr) (Modules qr) ∧ Size qr = 21 ∧
        1 ≤ 2 ^ 62 ∧ 1 ≤ 1000000 ∧
        ∀ avail,
          WritePNG avail qr (2 ^ 62) = Panic ImageDimensions ∧
          WritePNG avail qr 1000000 = Panic NegativeLen.
Proof.
  pose proof (NewQRCode_runs "Hello" LevelL) as H.
  change (chooseVersion (bytesOf "Hello") LevelL)
    with (Some (1, versionInfoAt 1 LevelL)) in H.
  destruct H as (qr & _ & _ & R & _ & _ & _ & _ & _ & Hs & Hg).
  exists qr. split; [exact R|]. split; [exact Hg|]. split; [exact Hs|].
  split; [lia|]. split; [lia|]. intros avail.
  unfold WritePNG. rewrite Hs. split.
  - destruct (decide (2 ^ 62 < 1)); [lia|]. cbv zeta.
    match goal with
    | |- obind ?m _ = _ =>
        assert (m = Panic ImageDimensions) as -> by (vm_compute; reflexivity)
    end.
    reflexivity.
  - destruct (decide (1000000 < 1)); [lia|]. cbv zeta.
    match goal with
    | |- obind ?m _ = _ =>
        assert (m = Panic NegativeLen) as -> by (vm_compute; reflexivity)
    end.
    reflexivity.
Qed.

(** C9, amended. For a symbol with a square grid, a scale of at least 1
    and an image that can be allocated, its ((Size + 8) * scale)^2 bytes
    being within the run-time's bound on one allocation and within the
    memory at hand, WritePNG hands to the PNG encoder, which accepts it,
    a square image of side (Size + 8) * scale in which a pixel is
    foreground (palette index 1, black) exactly when the module it falls
    on, 4 modules in from the border on every side, is dark, and
    background (index 0, white) otherwise. *)
Theorem WritePNG_geometry (avail : Z) (qr : QRCode) (scale : Z)
    (Hscale : 1 ≤ scale) (Hgrid : squareGrid (Size qr) (Modules qr))
    (Hfits : allocatable avail
               (((Size qr + 8) * scale) * ((Size qr + 8) * scale))) :
  let dim := (Size qr + 8) * scale in
  ∃ img, WritePNG avail qr scale = Ok (Written img) ∧
         Bounds img = Rect 0 0 dim dim ∧
         Dx (Bounds img) = dim ∧ Dy (Bounds img) = dim ∧
         ∀ x y, 0 ≤ x < dim → 0 ≤ y < dim →
           ∃ v, ColorIndexAt img x y = Ok v ∧ (v = 0 ∨ v = 1) ∧
                (v = 1 ↔ darkAt qr (y `div` scale - 4) (x `div` scale - 4)).
Proof.
  intros dim.
  assert (0 ≤ Size qr) as Hsize by (destruct Hgrid as [<- _]; unfold len; lia).
  assert (8 ≤ dim) as Hdim by (unfold dim; nia).
  pose proof (small_side dim ltac:(lia) (proj1 Hfits)) as Hsmall.
  destruct (WritePNG_paints_modules avail qr scale Hscale Hgrid Hfits)
    as (img & E & Hp).
  pose proof (paints_modules_darkAt qr scale img Hscale Hp) as Hpix.
  fold dim in Hp, Hpix. destruct Hp as (_ & Hb & _).
  exists img. split; [exact E|]. rewrite Hb.
  split; [unfold Rect; by destruct (decide (0 > dim)); [lia|]|].
  unfold Dx, Dy. simpl. rewrite Z.sub_0_r, (wrap_id dim) by lia.
  split; [done|]. split; [done|]. exact Hpix.
Qed.

Lemma WritePNG_geometry_witness :
  ∃ img, WritePNG 900 tinySymbol 3 = Ok (Written img) ∧
         Bounds img = Rect 0 0 30 30 ∧
         Dx (Bounds img) = 30 ∧ Dy (Bounds img) = 30 ∧
         ∀ x y, 0 ≤ x < 30 → 0 ≤ y < 30 →
           ∃ v, ColorIndexAt img x y = Ok v ∧ (v = 0 ∨ v = 1) ∧
                (v = 1 ↔ darkAt tinySymbol (y `div` 3 - 4) (x `div` 3 - 4)).
Proof.
  apply (WritePNG_geometry 900 tinySymbol 3).
  - lia.
  - apply squareGridb_true. reflexivity.
  - split; vm_compute; discriminate.
Defined.

(** The image of [tinySymbol] at scale 1: ten by ten, black at (4,4) and
    (5,5) only. *)
Example WritePNG_tiny :
  (λ img, (Bounds img, Stride img,
           (λ i, if decide (i = 1) then true else false) <$> Pix img))
    <$> (match WritePNG 100 tinySymbol 1 with
         | Ok (Written img) => Some img
         | _ => None
         end)
  = Some (mkRectangle 0 0 10 10, 10,
          (λ k, bool_decide (k = 44 ∨ k = 55)) <$> seqZ 0 100).
Proof. vm_compute. reflexivity. Qed.

(** ** The content of TestQRVersion2 *)

(** C3, amended. The test content has 40 bytes; encoding it at level L
    selects version 3 (4 + 8 + 320 bits exceed the 272 of version 2-L),
    and the decoder of the specification, run on the modules of the
    resulting symbol, returns the 40 bytes of the content. *)
Theorem v2_content_version_3_roundtrip
    (correctErrors : list Z → Z → list Z → M rsResult)
    (otherMode : Z → Z → list bool → list Z → decodeError + list Z) :
  ∃ qr, NewQRCode v2TestContent LevelL initTables
        = (Ok (inr qr), initTables) ∧
        len (bytesOf v2TestContent) = 40 ∧
        Version qr = 3 ∧ Size qr = 29 ∧
        (decodeGrid correctErrors otherMode (Modules qr) initTables).1
        = Ok (inr (bytesOf v2TestContent)).
Proof.
  eexists. split; [vm_compute; reflexivity|].
  split; [reflexivity|]. split; [reflexivity|]. split; [reflexivity|].
  vm_compute. reflexivity.
Qed.

(** * Further properties of the code *)

(** ** GF(256) arithmetic *)

Lemma byteVal_iff v : byteVal v ↔ 0 ≤ v ≤ 255.
Proof. unfold byteVal. lia. Qed.

(** X1. On the initialised tables gfMul is commutative and associative on
    field elements (0..255). *)
Theorem gfMul_comm_assoc (x y z : Z)
    (Hx : 0 ≤ x ≤ 255) (Hy : 0 ≤ y ≤ 255) (Hz : 0 ≤ z ≤ 255) :
  ∃ xy yz r,
    gfMul x y initTables = (Ok xy, initTables) ∧
    gfMul y x initTables = (Ok xy, initTables) ∧
    gfMul y z initTables = (Ok yz, initTables) ∧
    gfMul xy z initTables = (Ok r, initTables) ∧
    gfMul x yz initTables = (Ok r, initTables).
Proof.
  apply byteVal_iff in Hx, Hy, Hz.
  exists (gmul x y), (gmul y z), (gmul (gmul x y) z).
  split; [by apply gfMul_runs|].
  split; [rewrite (gmul_comm x y); by apply gfMul_runs|].
  split; [by apply gfMul_runs|].
  split; [apply gfMul_runs; [by apply gmul_byte | done]|].
  rewrite gmul_assoc by done.
  apply gfMul_runs; [done | by apply gmul_byte].
Qed.

Lemma gfMul_comm_assoc_witness :
  ∃ xy yz r,
    gfMul 87 131 initTables = (Ok xy, initTables) ∧
    gfMul 131 87 initTables = (Ok xy, initTables) ∧
    gfMul 131 19 initTables = (Ok yz, initTables) ∧
    gfMul xy 19 initTables = (Ok r, initTables) ∧
    gfMul 87 yz initTables = (Ok r, initTables).
Proof. apply (gfMul_comm_assoc 87 131 19); lia. Defined.

(** X2. On the initialised tables gfMul distributes over gfAdd:
    x * (y + z) = x * y + x * z for field elements. *)
Theorem gfMul_distributes (x y z : Z)
    (Hx : 0 ≤ x ≤ 255) (Hy : 0 ≤ y ≤ 255) (Hz : 0 ≤ z ≤ 255) :
  ∃ xy xz,
    gfMul x y initTables = (Ok xy, initTables) ∧
    gfMul x z initTables = (Ok xz, initTables) ∧
    gfMul x (gfAdd y z) initTables = (Ok (gfAdd xy xz), initTables).
Proof.
  apply byteVal_iff in Hx, Hy, Hz.
  exists (gmul x y), (gmul x z).
  split; [by apply gfMul_runs|]. split; [by apply gfMul_runs|].
  unfold gfAdd. rewrite <- gmul_lxor_r by done.
  apply gfMul_runs; [done | by apply lxor_byte].
Qed.

Lemma gfMul_distributes_witness :
  ∃ xy xz,
    gfMul 87 131 initTables = (Ok xy, initTables) ∧
    gfMul 87 19 initTables = (Ok xz, initTables) ∧
    gfMul 87 (gfAdd 131 19) initTables = (Ok (gfAdd xy xz), initTables).
Proof. apply (gfMul_distributes 87 131 19); lia. Defined.

(** X3. On the initialised tables gfMul of two field elements returns a
    field element, which is 0 exactly when one of the factors is 0; 1 is
    neutral. *)
Theorem gfMul_field_element (x y : Z)
    (Hx : 0 ≤ x ≤ 255) (Hy : 0 ≤ y ≤ 255) :
  (∃ v, gfMul x y initTables = (Ok v, initTables) ∧ 0 ≤ v ≤ 255 ∧
        (v = 0 ↔ x = 0 ∨ y = 0)) ∧
  gfMul x 1 initTables = (Ok x, initTables) ∧
  gfMul 1 x initTables = (Ok x, initTables).
Proof.
  apply byteVal_iff in Hx, Hy. split; [|split].
  - exists (gmul x y). split; [by apply gfMul_runs|].
    split; [by apply byteVal_iff, gmul_byte|].
    split.
    + intros H0. destruct (decide (x = 0)) as [|Hnx]; [by left|].
      destruct (decide (y = 0)) as [|Hny]; [by right|].
      unfold byteVal in *.
      destruct (gmul_log x y ltac:(lia) ltac:(lia)) as [? _]. lia.
    + intros [-> | ->]; [apply gmul_0_l | apply gmul_0_r].
  - rewrite <- (gmul_1_r x) at 2 by done. by apply gfMul_runs.
  - rewrite <- (gmul_1_l x) at 2 by done. by apply gfMul_runs.
Qed.

Lemma gfMul_field_element_witness :
  (∃ v, gfMul 87 131 initTables = (Ok v, initTables) ∧ 0 ≤ v ≤ 255 ∧
        (v = 0 ↔ 87 = 0 ∨ 131 = 0)) ∧
  gfMul 87 1 initTables = (Ok 87, initTables) ∧
  gfMul 1 87 initTables = (Ok 87, initTables).
Proof. apply (gfMul_field_element 87 131); lia. Defined.

(** X4. gfMul adds exponents: on the initialised tables
    expTable[i] * expTable[j] = expTable[(i + j) mod 255] for i, j in
    0..254; in particular 2 = expTable[1] steps through the table,
    2 * expTable[i] = expTable[(i + 1) mod 255]. *)
Theorem gfMul_adds_exponents (i j : Z)
    (Hi : 0 ≤ i < 255) (Hj : 0 ≤ j < 255) :
  ∃ a b c two,
    index (expTable initTables) i = Ok a ∧
    index (expTable initTables) j = Ok b ∧
    index (expTable initTables) ((i + j) `mod` 255) = Ok c ∧
    gfMul a b initTables = (Ok c, initTables) ∧
    index (expTable initTables) ((i + 1) `mod` 255) = Ok two ∧
    gfMul 2 a initTables = (Ok two, initTables).
Proof.
  pose proof (expAt_range i Hi) as Ra. pose proof (expAt_range j Hj) as Rb.
  assert (0 ≤ (i + j) `mod` 255 < 255) as Hij by (apply Z.mod_pos_bound; lia).
  assert (0 ≤ (i + 1) `mod` 255 < 255) as Hi1 by (apply Z.mod_pos_bound; lia).
  exists (expAt i), (expAt j), (expAt ((i + j) `mod` 255)),
         (expAt ((i + 1) `mod` 255)).
  split; [by apply exp_spec|]. split; [by apply exp_spec|].
  split; [by apply exp_spec|]. split; [|split; [by apply exp_spec|]].
  - replace (expAt ((i + j) `mod` 255)) with (gmul (expAt i) (expAt j)).
    { apply gfMul_runs; unfold byteVal; lia. }
    unfold gmul. destruct (decide _); [lia|].
    by rewrite !logAt_expAt.
  - replace (expAt ((i + 1) `mod` 255)) with (gmul 2 (expAt i)).
    { apply gfMul_runs; unfold byteVal; lia. }
    unfold gmul. destruct (decide _); [lia|].
    rewrite logAt_expAt by done. change (logAt 2) with 1.
    f_equal. f_equal. lia.
Qed.

Lemma gfMul_adds_exponents_witness :
  ∃ a b c two,
    index (expTable initTables) 200 = Ok a ∧
    index (expTable initTables) 100 = Ok b ∧
    index (expTable initTables) ((200 + 100) `mod` 255) = Ok c ∧
    gfMul a b initTables = (Ok c, initTables) ∧
    index (expTable initTables) ((200 + 1) `mod` 255) = Ok two ∧
    gfMul 2 a initTables = (Ok two, initTables).
Proof. apply (gfMul_adds_exponents 200 100); lia. Defined.

(** X5. gfDiv undoes gfMul: on the initialised tables, for x in 0..255
    and y in 1..255, gfDiv(gfMul(x, y), y) = x; and gfDiv(y, y) = 1. *)
Theorem gfDiv_undoes_gfMul (x y : Z)
    (Hx : 0 ≤ x ≤ 255) (Hy : 1 ≤ y ≤ 255) :
  (∃ p, gfMul x y initTables = (Ok p, initTables) ∧
        gfDiv p y initTables = (Ok x, initTables)) ∧
  gfDiv y y initTables = (Ok 1, initTables).
Proof.
  pose proof (logAt_range y ltac:(lia)) as Ly.
  assert (∀ p, 0 ≤ p ≤ 255 → p ≠ 0 →
            gfDiv p y initTables
            = (Ok (expAt ((logAt p + 255 - logAt y) `mod` 255)), initTables))
    as Hdiv.
  { intros p Hp Hnz. pose proof (gfDiv_runs p y ltac:(lia) ltac:(lia)) as R.
    by destruct (decide (p = 0)). }
  split.
  - exists (gmul x y). split; [apply gfMul_runs; unfold byteVal; lia|].
    destruct (decide (x = 0)) as [->|Hnx].
    { rewrite gmul_0_l. pose proof (gfDiv_runs 0 y ltac:(lia) ltac:(lia)) as R.
      by destruct (decide (0 = 0)). }
    destruct (gmul_log x y ltac:(lia) Hy) as [Rp Lp].
    pose proof (logAt_range x ltac:(lia)) as Lx.
    rewrite Hdiv by lia. rewrite Lp.
    rewrite <- Z.add_sub_assoc, Z.add_mod_idemp_l by lia.
    replace (logAt x + logAt y + (255 - logAt y)) with (logAt x + 1 * 255)
      by lia.
    rewrite Z.mod_add, Z.mod_small by lia.
    by rewrite expAt_logAt by lia.
  - rewrite Hdiv by lia.
    replace (logAt y + 255 - logAt y) with (0 + 1 * 255) by lia.
    by rewrite Z.mod_add by lia.
Qed.

Lemma gfDiv_undoes_gfMul_witness :
  (∃ p, gfMul 87 131 initTables = (Ok p, initTables) ∧
        gfDiv p 131 initTables = (Ok 87, initTables)) ∧
  gfDiv 131 131 initTables = (Ok 1, initTables).
Proof. apply (gfDiv_undoes_gfMul 87 131); lia. Defined.

Lemma index_out {A} (a : list A) (i : Z) :
  i < 0 ∨ len a ≤ i → index a i = Panic IndexOutOfRange.
Proof.
  intros H. unfold index, len in *. destruct (decide (0 ≤ i)); [|done].
  rewrite lookup_ge_None_2; [done|lia].
Qed.

Lemma logTable_len : len (logTable initTables) = 256.
Proof. rewrite initTables_value. reflexivity. Qed.
Lemma expTable_len : len (expTable initTables) = 256.
Proof. rewrite initTables_value. reflexivity. Qed.

Lemma panics_bind {A B} (m : M A) (k : A → M B) p t :
  m t = (Panic p, t) → bind m k t = (Panic p, t).
Proof. unfold bind. by intros ->. Qed.

Lemma bind_liftO_Ok {A B} (a : A) (k : A → M B) t :
  bind (liftO (Ok a)) k t = k a t.
Proof. reflexivity. Qed.

Lemma runs_then {A B} (m : M A) (k : A → M B) a r :
  runs m a → k a initTables = r → bind m k initTables = r.
Proof. unfold runs, bind. by intros -> <-. Qed.

Lemma gfMul_out_of_range x y :
  x ≠ 0 → y ≠ 0 → ¬ (0 ≤ x ≤ 255 ∧ 0 ≤ y ≤ 255) →
  gfMul x y initTables = (Panic IndexOutOfRange, initTables).
Proof.
  intros Hx Hy Hout. unfold gfMul.
  destruct (decide (x = 0 ∨ y = 0)) as [[?|?]|_]; [done|done|].
  destruct (decide (0 ≤ x ≤ 255)) as [Hin|Hnin].
  - eapply runs_then; [apply readLog_runs; lia|].
    apply panics_bind. unfold readLog.
    rewrite index_out; [done|]. rewrite logTable_len. lia.
  - apply panics_bind. unfold readLog.
    rewrite index_out; [done|]. rewrite logTable_len. lia.
Qed.

(** X6. gfMul and gfDiv do not check their arguments: with both
    arguments nonzero and one of them outside 0..255, they panic with an
    index out of range (the table lookup), on the initialised tables. *)
Theorem gf_out_of_range_panics (x y : Z)
    (Hx : x ≠ 0) (Hy : y ≠ 0) (Hout : ¬ (0 ≤ x ≤ 255 ∧ 0 ≤ y ≤ 255)) :
  gfMul x y initTables = (Panic IndexOutOfRange, initTables) ∧
  gfDiv x y initTables = (Panic IndexOutOfRange, initTables).
Proof.
  split; [by apply gfMul_out_of_range|].
  unfold gfDiv. destruct (decide (y = 0)); [done|].
  destruct (decide (x = 0)); [done|].
  destruct (decide (0 ≤ x ≤ 255)) as [Hin|Hnin].
  - eapply runs_then; [apply readLog_runs; lia|].
    apply panics_bind. unfold readLog.
    rewrite index_out; [done|]. rewrite logTable_len. lia.
  - apply panics_bind. unfold readLog.
    rewrite index_out; [done|]. rewrite logTable_len. lia.
Qed.

Lemma gf_out_of_range_panics_witness :
  gfMul 256 3 initTables = (Panic IndexOutOfRange, initTables) ∧
  gfDiv 256 3 initTables = (Panic IndexOutOfRange, initTables).
Proof. apply (gf_out_of_range_panics 256 3); lia. Defined.

(** X7. gfSub undoes gfAdd (and gfAdd undoes gfSub), every element is its
    own negative, and sums of field elements are field elements. *)
Theorem gfAdd_gfSub_inverse (x y : Z) :
  gfSub (gfAdd x y) y = x ∧ gfAdd (gfSub x y) y = x ∧ gfAdd x x = 0 ∧
  (0 ≤ x ≤ 255 → 0 ≤ y ≤ 255 → 0 ≤ gfAdd x y ≤ 255).
Proof.
  unfold gfAdd, gfSub. split; [apply lxor_cancel|].
  split; [apply lxor_cancel|]. split; [apply Z.lxor_nilpotent|].
  intros Hx Hy. apply byteVal_iff, lxor_byte; by apply byteVal_iff.
Qed.

Lemma gfAdd_gfSub_inverse_witness :
  gfSub (gfAdd 87 131) 131 = 87 ∧ 0 ≤ gfAdd 87 131 ≤ 255.
Proof.
  destruct (gfAdd_gfSub_inverse 87 131) as (H1 & _ & _ & H4).
  split; [exact H1 | apply H4; lia].
Defined.

(** ** Polynomials *)

(** X8. gfPolyMul of two non-empty polynomials with coefficients in
    0..255 returns len(p) + len(q) - 1 coefficients in 0..255, with
    leading coefficient p[0] * q[0], and evaluating the product at any
    field element gives the product of the evaluations (Horner evaluation
    with the package's gfMul and gfAdd). *)
Theorem gfPolyMul_product (p q : list Z) (x : Z)
    (Hp : byteList p) (Hq : byteList q) (Hpn : p ≠ []) (Hqn : q ≠ [])
    (Hx : 0 ≤ x ≤ 255) :
  ∃ r ep eq lead,
    gfPolyMul p q initTables = (Ok r, initTables) ∧
    len r = len p + len q - 1 ∧ byteList r ∧
    gfMul (default 0 (head p)) (default 0 (head q)) initTables
    = (Ok lead, initTables) ∧ head r = Some lead ∧
    gfPolyEval p x initTables = (Ok ep, initTables) ∧
    gfPolyEval q x initTables = (Ok eq, initTables) ∧
    ∃ v, gfMul ep eq initTables = (Ok v, initTables) ∧
         gfPolyEval r x initTables = (Ok v, initTables).
Proof.
  apply byteVal_iff in Hx.
  destruct (gfPolyMul_runs p q Hp Hq Hpn Hqn) as (r & Rr & Lr & Br & Er & Hr).
  destruct p as [|p0 p']; [done|]. destruct q as [|q0 q']; [done|].
  exists r, (peval (p0 :: p') x), (peval (q0 :: q') x), (gmul p0 q0).
  split; [exact Rr|].
  split; [unfold len; rewrite Lr; simpl; lia|]. split; [done|].
  split.
  { simpl. apply gfMul_runs; [by inversion Hp | by inversion Hq]. }
  split.
  { specialize (Hr p0 q0 eq_refl eq_refl). by destruct r. }
  split; [by apply gfPolyEval_runs|]. split; [by apply gfPolyEval_runs|].
  exists (gmul (peval (p0 :: p') x) (peval (q0 :: q') x)). split.
  - apply gfMul_runs; by apply peval_byte.
  - rewrite <- Er by done. by apply gfPolyEval_runs.
Qed.

Lemma gfPolyMul_product_witness :
  ∃ r ep eq lead,
    gfPolyMul [1; 2; 3] [1; 29] initTables = (Ok r, initTables) ∧
    len r = len [1; 2; 3] + len [1; 29] - 1 ∧ byteList r ∧
    gfMul 1 1 initTables = (Ok lead, initTables) ∧ head r = Some lead ∧
    gfPolyEval [1; 2; 3] 7 initTables = (Ok ep, initTables) ∧
    gfPolyEval [1; 29] 7 initTables = (Ok eq, initTables) ∧
    ∃ v, gfMul ep eq initTables = (Ok v, initTables) ∧
         gfPolyEval r 7 initTables = (Ok v, initTables).
Proof.
  apply (gfPolyMul_product [1; 2; 3] [1; 29] 7); try done; try lia;
    repeat (apply Forall_cons_2; [unfold byteVal; lia|]); constructor.
Defined.

Lemma forN_skip {S} (body : Z → S → M S) n i s t :
  (∀ i s t, body i s t = (Ok s, t)) → forN n i body s t = (Ok s, t).
Proof.
  intros Hb. revert i. induction n as [|n IH]; intros i; simpl; [done|].
  unfold bind. by rewrite Hb.
Qed.

(** X9. gfPolyMul with an empty factor: two empty polynomials panic (a
    slice of length -1 is requested); one empty and one non-empty factor
    give all-zero coefficients, one fewer than the non-empty factor has,
    not the empty polynomial.  This holds whatever the tables are. *)
Theorem gfPolyMul_empty (p : list Z) (t : Tables) :
  gfPolyMul [] [] t = (Panic NegativeLen, t) ∧
  (p ≠ [] →
   gfPolyMul [] p t = (Ok (replicate (length p - 1) 0), t) ∧
   gfPolyMul p [] t = (Ok (replicate (length p - 1) 0), t)).
Proof.
  split; [reflexivity|]. intros Hp.
  assert (length p ≠ O) as Hl by by destruct p.
  assert (∀ a b, a + b = len p →
            make 0 (a + b - 1) = Ok (replicate (length p - 1) 0)) as Hmake.
  { intros a b ->. unfold make, len. destruct (decide _); [|lia].
    do 2 f_equal. lia. }
  split.
  - unfold gfPolyMul, bind, liftO. rewrite (Hmake (len []) (len p)) by done.
    reflexivity.
  - unfold gfPolyMul, bind, liftO.
    rewrite (Hmake (len p) (len [])) by (unfold len; simpl; lia).
    unfold forZ at 1. apply forN_skip. intros i s t'. reflexivity.
Qed.

Lemma gfPolyMul_empty_witness :
  gfPolyMul [] [5; 6; 7] initTables = (Ok [0; 0], initTables) ∧
  gfPolyMul [5; 6; 7] [] initTables = (Ok [0; 0], initTables).
Proof. apply (gfPolyMul_empty [5; 6; 7] initTables). done. Defined.

Lemma gmul_eq_0 x y : byteVal x → byteVal y → gmul x y = 0 → x = 0 ∨ y = 0.
Proof.
  intros Hx Hy H0. destruct (decide (x = 0)) as [|Hnx]; [by left|].
  destruct (decide (y = 0)) as [|Hny]; [by right|].
  unfold byteVal in *.
  destruct (gmul_log x y ltac:(lia) ltac:(lia)) as [? _]. lia.
Qed.

Lemma generator_roots (n : nat) :
  (n ≤ 255)%nat →
  ∃ gen, runs (GenerateGeneratorPoly (Z.of_nat n)) gen ∧
         length gen = Datatypes.S n ∧ byteList gen ∧ gen !! O = Some 1 ∧
         ∀ x, byteVal x →
           peval gen x = 0 ↔ ∃ i, (i < n)%nat ∧ x = expAt (Z.of_nat i).
Proof.
  intros Hn.
  pose (I := λ (k : nat) (gen : list Z),
    length gen = Datatypes.S k ∧ byteList gen ∧ gen !! O = Some 1 ∧
    ∀ x, byteVal x →
      peval gen x = 0 ↔ ∃ i, (i < k)%nat ∧ x = expAt (Z.of_nat i)).
  destruct (forN_invariant I
    (λ i gen, a <- readExp i ;; gfPolyMul gen [1; a]) n 0) with (s := [1])
    as (gen & Rg & Ig).
  - intros k gen Hk (Hlen & Hb & Hh & Hroots). rewrite Z.add_0_l.
    pose proof (byteVal_expAt (Z.of_nat k) ltac:(lia)) as Ha.
    destruct (gfPolyMul_runs gen [1; expAt (Z.of_nat k)])
      as (r & Rr & Lr & Br & Er & Hr).
    { done. }
    { apply Forall_cons_2; [done|]. apply Forall_cons_2; [done|]. constructor. }
    { by destruct gen. } { done. }
    exists r. split.
    { eapply runs_bind; [apply readExp_runs; lia | exact Rr]. }
    split; [simpl in Lr; lia|]. split; [done|]. split.
    { rewrite (Hr 1 1 Hh eq_refl). by rewrite gmul_1_l. }
    intros x Hx. rewrite Er, peval_linear_factor by done. split.
    + intros H0. apply gmul_eq_0 in H0 as [H0|H0].
      * apply Hroots in H0 as (i & Hi & ->); [|done].
        exists i. split; [lia|done].
      * apply Z.lxor_eq in H0. exists k. split; [lia|done].
      * by apply peval_byte.
      * by apply lxor_byte.
    + intros (i & Hi & ->). destruct (decide (i = k)) as [->|Hne].
      * by rewrite Z.lxor_nilpotent, gmul_0_r.
      * replace (peval gen (expAt (Z.of_nat i))) with 0; [apply gmul_0_l|].
        symmetry. apply Hroots; [apply byteVal_expAt; lia|].
        exists i. split; [lia|done].
  - split; [done|].
    split; [apply Forall_cons_2; [done | constructor]|]. split; [done|].
    intros x Hx. unfold peval. simpl. unfold hornerStep.
    rewrite gmul_0_l. simpl. split; [done|]. intros (i & Hi & _). lia.
  - exists gen. split; [|exact Ig].
    unfold GenerateGeneratorPoly, forZ. by rewrite Z.sub_0_r, Nat2Z.id.
Qed.

(** X10. For 0 <= n <= 255, GenerateGeneratorPoly(n) on the initialised
    tables returns a monic polynomial of n + 1 coefficients in 0..255
    whose roots among the field elements are exactly expTable[0], ...,
    expTable[n-1] (Horner evaluation with gfMul and gfAdd). *)
Theorem GenerateGeneratorPoly_roots (n : Z) (Hn : 0 ≤ n ≤ 255) :
  ∃ gen,
    GenerateGeneratorPoly n initTables = (Ok gen, initTables) ∧
    len gen = n + 1 ∧ byteList gen ∧ head gen = Some 1 ∧
    ∀ x, 0 ≤ x ≤ 255 →
      gfPolyEval gen x initTables = (Ok 0, initTables) ↔
      ∃ i, 0 ≤ i < n ∧ readExp i initTables = (Ok x, initTables).
Proof.
  destruct (generator_roots (Z.to_nat n) ltac:(lia))
    as (gen & Rg & Lg & Bg & Hg & Hroots).
  rewrite Z2Nat.id in Rg by lia.
  exists gen. split; [exact Rg|]. split; [unfold len; lia|].
  split; [done|]. split; [by destruct gen|].
  intros x Hx. apply byteVal_iff in Hx.
  pose proof (gfPolyEval_runs gen x Bg Hx) as Re. unfold runs in Re.
  rewrite Re. split.
  - intros Heq. assert (peval gen x = 0) as H0 by congruence.
    apply Hroots in H0 as (i & Hi & ->); [|done].
    exists (Z.of_nat i). split; [lia|]. apply readExp_runs. lia.
  - intros (i & Hi & Hr).
    pose proof (readExp_runs i ltac:(lia)) as Hr'. unfold runs in Hr'.
    assert (x = expAt i) as -> by congruence.
    replace (peval gen (expAt i)) with 0; [done|].
    symmetry. apply Hroots; [done|]. exists (Z.to_nat i).
    split; [lia|]. by rewrite Z2Nat.id by lia.
Qed.

Lemma GenerateGeneratorPoly_roots_witness :
  ∃ gen,
    GenerateGeneratorPoly 7 initTables = (Ok gen, initTables) ∧
    len gen = 7 + 1 ∧ byteList gen ∧ head gen = Some 1 ∧
    ∀ x, 0 ≤ x ≤ 255 →
      gfPolyEval gen x initTables = (Ok 0, initTables) ↔
      ∃ i, 0 ≤ i < 7 ∧ readExp i initTables = (Ok x, initTables).
Proof. apply (GenerateGeneratorPoly_roots 7); lia. Defined.

(** ** Edge cases of CalculateECCodewords *)

Lemma GenerateGeneratorPoly_nonpositive n t :
  n ≤ 0 → GenerateGeneratorPoly n t = (Ok [1], t).
Proof.
  intros Hn. unfold GenerateGeneratorPoly, forZ.
  by replace (Z.to_nat (n - 0)) with O by lia.
Qed.

(** X11. All-zero data (in particular no data at all) has all-zero error
    correction codewords: for 0 <= ec <= 255 CalculateECCodewords returns
    ec zeros. *)
Theorem CalculateECCodewords_zero_data (n : nat) (ec : Z)
    (Hec : 0 ≤ ec ≤ 255) :
  CalculateECCodewords (replicate n 0) ec initTables
  = (Ok (replicate (Z.to_nat ec) 0), initTables).
Proof.
  destruct (GenerateGeneratorPoly_runs (Z.to_nat ec) ltac:(lia))
    as (gen & Rg & _).
  rewrite Z2Nat.id in Rg by lia.
  unfold CalculateECCodewords. eapply runs_then; [exact Rg|].
  replace (len (replicate n 0) + ec) with (Z.of_nat (n + Z.to_nat ec))
    by (unfold len; rewrite length_replicate; lia).
  rewrite make_Ok, !bind_liftO_Ok.
  assert (copy (replicate (n + Z.to_nat ec) 0) (replicate n 0)
          = replicate (n + Z.to_nat ec) 0) as ->.
  { rewrite <- (length_replicate n 0) at 1. rewrite copy_zeros.
    by rewrite <- replicate_add. }
  set (body := λ (i : Z) (remainder : list Z), _).
  destruct (forN_invariant (λ _ res, res = replicate (n + Z.to_nat ec) 0)
    body n 0) with (s := replicate (n + Z.to_nat ec) 0) as (res & Rres & ->).
  - intros k s Hk ->. exists (replicate (n + Z.to_nat ec) 0). split; [|done].
    unfold body. eapply runs_bind.
    + apply runs_liftO, index_Ok. split; [lia|].
      apply lookup_replicate_2. lia.
    + destruct (decide (0 ≠ 0)); [done|]. apply runs_ret.
  - done.
  - eapply runs_then.
    + unfold forZ, len. rewrite length_replicate, Z.sub_0_r, Nat2Z.id.
      exact Rres.
    + unfold liftO, sliceFrom, len. rewrite !length_replicate.
      destruct (decide _); [|lia]. rewrite Nat2Z.id, drop_replicate.
      do 3 f_equal. lia.
Qed.

Lemma CalculateECCodewords_zero_data_witness :
  CalculateECCodewords [0; 0; 0] 4 initTables = (Ok [0; 0; 0; 0], initTables).
Proof. apply (CalculateECCodewords_zero_data 3 4). lia. Defined.

(** X12. Degenerate counts: with numECCodewords = 0 the result is empty,
    for data in 0..255; when len(data) + numECCodewords is negative the
    call panics on the slice allocation, whatever the data and the tables
    are. *)
Theorem CalculateECCodewords_degenerate (data : list Z) :
  (byteList data →
   CalculateECCodewords data 0 initTables = (Ok [], initTables)) ∧
  (∀ ec t, len data + ec < 0 →
   CalculateECCodewords data ec t = (Panic NegativeLen, t)).
Proof.
  split.
  - intros Hd.
    destruct (CalculateECCodewords_runs data O Hd ltac:(lia))
      as (R & RR & LR & _).
    destruct R; [exact RR | done].
  - intros ec t Hneg. unfold CalculateECCodewords, bind.
    rewrite GenerateGeneratorPoly_nonpositive by (unfold len in *; lia).
    unfold liftO, make. by destruct (decide _); [lia|].
Qed.

Lemma CalculateECCodewords_degenerate_witness :
  CalculateECCodewords [1; 2; 3] 0 initTables = (Ok [], initTables) ∧
  CalculateECCodewords [1; 2; 3] (-4) initTables
  = (Panic NegativeLen, initTables).
Proof.
  destruct (CalculateECCodewords_degenerate [1; 2; 3]) as [H1 H2]. split.
  - apply H1. repeat (apply Forall_cons_2; [unfold byteVal; lia|]). constructor.
  - apply H2. unfold len. simpl. lia.
Defined.

(** X13. CalculateECCodewords does not validate the codewords: when the
    first one lies outside 0..255 (and 0 <= numECCodewords <= 255), the
    call panics with an index out of range, in the table lookup of
    gfMul. *)
Theorem CalculateECCodewords_bad_codeword (d : Z) (data : list Z) (ec : Z)
    (Hd : ¬ 0 ≤ d ≤ 255) (Hec : 0 ≤ ec ≤ 255) :
  CalculateECCodewords (d :: data) ec initTables
  = (Panic IndexOutOfRange, initTables).
Proof.
  destruct (GenerateGeneratorPoly_runs (Z.to_nat ec) ltac:(lia))
    as (gen & Rg & Lg & _ & Hg & _).
  rewrite Z2Nat.id in Rg by lia.
  destruct gen as [|g gen']; [done|]. injection Hg as ->.
  unfold CalculateECCodewords. eapply runs_then; [exact Rg|].
  replace (len (d :: data) + ec)
    with (Z.of_nat (length (d :: data) + Z.to_nat ec))
    by (unfold len; lia).
  rewrite make_Ok, !bind_liftO_Ok, copy_zeros.
  apply panics_bind.
  unfold forZ. replace (Z.to_nat (len (d :: data) - 0))
    with (Datatypes.S (length data)) by (unfold len; simpl; lia).
  cbn [forN]. apply panics_bind.
  replace (index ((d :: data) ++ replicate (Z.to_nat ec) 0) 0) with (Ok d)
    by reflexivity.
  rewrite bind_liftO_Ok. destruct (decide (d ≠ 0)); [|lia].
  unfold forZ. replace (Z.to_nat (len (1 :: gen') - 0))
    with (Datatypes.S (length gen')) by (unfold len; simpl; lia).
  cbn [forN]. apply panics_bind.
  replace (index (1 :: gen') 0) with (Ok 1) by reflexivity.
  rewrite bind_liftO_Ok. unfold xorMulAt. apply panics_bind.
  apply gfMul_out_of_range; lia.
Qed.

Lemma CalculateECCodewords_bad_codeword_witness :
  CalculateECCodewords [256; 1] 7 initTables
  = (Panic IndexOutOfRange, initTables).
Proof. apply (CalculateECCodewords_bad_codeword 256 [1] 7); lia. Defined.

(** ** BitBuffer and the conversion to codewords *)

Lemma msbBits_mod (k : nat) n num :
  Z.of_nat k ≤ n → msbBits k (num `mod` 2 ^ n) = msbBits k num.
Proof.
  intros Hk. induction k as [|k IH]; [done|]. simpl. f_equal.
  - apply Z.mod_pow2_bits_low. lia.
  - apply IH. lia.
Qed.

Lemma BitBuffer_eq (a b : BitBuffer) : Bits a = Bits b → a = b.
Proof. destruct a, b. simpl. by intros ->. Qed.

(** X14. Put appends exactly [length] bits, the low [length] bits of
    [num] with the most significant first: higher bits of [num] are
    dropped, and a length of zero or less leaves the buffer as it is. *)
Theorem Put_appends (b : BitBuffer) (num n : Z) :
  (0 ≤ n →
   Bits (Put b num n) = Bits b ++ msbBits (Z.to_nat n) num ∧
   Len (Put b num n) = Len b + n ∧
   Put b (num `mod` 2 ^ n) n = Put b num n) ∧
  (n ≤ 0 → Put b num n = b).
Proof.
  split.
  - intros Hn. split; [by apply Put_bits|]. split; [by apply Put_Len|].
    apply BitBuffer_eq. rewrite !Put_bits by done. f_equal.
    apply msbBits_mod. lia.
  - intros Hn. unfold Put, range. rewrite Z.sub_0_r.
    unfold seqZ. by replace (Z.to_nat n) with O by lia.
Qed.

Lemma Put_appends_witness :
  Bits (Put (mkBitBuffer [true]) 0x1A5 4)
  = [true] ++ msbBits 4 0x1A5 ∧
  Put (mkBitBuffer [true]) 0x1A5 (-3) = mkBitBuffer [true].
Proof.
  destruct (Put_appends (mkBitBuffer [true]) 0x1A5 4) as [H1 _].
  destruct (Put_appends (mkBitBuffer [true]) 0x1A5 (-3)) as [_ H2].
  split; [apply H1; lia | apply H2; lia].
Defined.

Lemma loop_snoc_map {A} (g : Z → A) (ix : list Z) (acc : list A) :
  loop ix (λ i acc, acc ++ [g i]) acc = acc ++ (g <$> ix).
Proof.
  unfold loop. revert acc. induction ix as [|i ix IH]; intros acc; simpl.
  - by rewrite app_nil_r.
  - rewrite IH. by rewrite <- app_assoc.
Qed.

Lemma loop_ext {S} (ix : list Z) (f g : Z → S → S) s :
  (∀ i s, i ∈ ix → f i s = g i s) → loop ix f s = loop ix g s.
Proof.
  unfold loop. revert s. induction ix as [|i ix IH]; intros s H; simpl; [done|].
  rewrite H by left. apply IH. intros j s' Hj. apply H. by right.
Qed.

Lemma toCodewords_map bits :
  toCodewords bits
  = byteAt bits <$> ((λ k, 8 * k) <$> range 0 ((len bits + 7) `quot` 8)).
Proof. unfold toCodewords. apply (loop_snoc_map (byteAt bits)). Qed.

Lemma byteAt_shift chunk rest i :
  0 ≤ i → length chunk = 8%nat →
  byteAt (chunk ++ rest) (8 + i) = byteAt rest i.
Proof.
  intros Hi Hc. unfold byteAt. apply loop_ext. intros j val Hj.
  apply elem_of_range in Hj.
  assert (len (chunk ++ rest) = 8 + len rest) as Hl
    by (unfold len; rewrite length_app; lia).
  assert ((chunk ++ rest) !! Z.to_nat (8 + i + j) = rest !! Z.to_nat (i + j))
    as Hk.
  { rewrite lookup_app_r by lia. f_equal. lia. }
  rewrite Hl, Hk.
  destruct (decide (8 + i + j < 8 + len rest ∧ _)) as [H1|H1];
    destruct (decide (i + j < len rest ∧ _)) as [H2|H2];
    try done; exfalso; [apply H2 | apply H1];
    (split; [lia | tauto]).
Qed.

Lemma byteAt_first chunk rest :
  length chunk = 8%nat → byteAt (chunk ++ rest) 0 = byteOf chunk.
Proof.
  intros Hc. unfold byteAt, byteOf. apply loop_ext. intros j val Hj.
  apply elem_of_range in Hj.
  assert (0 + j < len (chunk ++ rest)) as Hl
    by (unfold len; rewrite length_app; lia).
  rewrite Z.add_0_l in *. rewrite lookup_app_l by lia.
  destruct (decide (j < _ ∧ _)) as [H1|H1];
    destruct (decide (chunk !! _ = Some true)) as [H2|H2];
    try done; exfalso; tauto.
Qed.

Lemma toCodewords_cons chunk rest :
  length chunk = 8%nat →
  toCodewords (chunk ++ rest) = byteOf chunk :: toCodewords rest.
Proof.
  intros Hc. rewrite !toCodewords_map.
  assert (0 ≤ len rest) as Hr by (unfold len; lia).
  assert ((len (chunk ++ rest) + 7) `quot` 8
          = 1 + (len rest + 7) `quot` 8) as ->.
  { unfold len. rewrite length_app, Hc.
    rewrite !Z.quot_div_nonneg by lia.
    replace (Z.of_nat (8 + length rest) + 7)
      with (1 * 8 + (Z.of_nat (length rest) + 7)) by lia.
    by rewrite Z.div_add_l. }
  set (m := (len rest + 7) `quot` 8).
  assert (0 ≤ m) as Hm by (apply Z.quot_pos; lia).
  unfold range. rewrite !Z.sub_0_r.
  rewrite seqZ_cons by lia. rewrite !fmap_cons. f_equal.
  { by apply byteAt_first. }
  replace (Z.succ 0) with (1 + 0) by lia.
  replace (Z.pred (1 + m)) with m by lia.
  rewrite <- fmap_add_seqZ, <- !list_fmap_compose.
  apply list_fmap_ext. intros ix k Hk. apply lookup_seqZ in Hk. simpl.
  replace (8 * (1 + k)) with (8 + 8 * k) by lia.
  apply byteAt_shift; [lia|done].
Qed.

Lemma byteOf_msbBits_check :
  forallb (λ c, bool_decide (byteOf (msbBits 8 c) = c)) (seqZ 0 256) = true.
Proof. vm_compute. reflexivity. Qed.

Lemma byteOf_msbBits c : byteVal c → byteOf (msbBits 8 c) = c.
Proof.
  intros Hc. unfold byteVal in Hc.
  pose proof (forallb_seqZ _ _ _ byteOf_msbBits_check c ltac:(lia)) as H.
  by apply bool_decide_eq_true in H.
Qed.

Lemma msbBits_byteOf chunk :
  length chunk = 8%nat → msbBits 8 (byteOf chunk) = chunk.
Proof.
  intros Hc.
  do 8 (destruct chunk as [|[] chunk]; [done| |]);
    (destruct chunk; [|done]); vm_compute; reflexivity.
Qed.

Lemma toCodewords_few bits :
  (length bits < 8)%nat →
  bitStream (toCodewords bits)
  = bits ++ replicate (Z.to_nat ((- len bits) `mod` 8)) false.
Proof.
  intros Hl.
  do 8 (destruct bits as [|[] bits];
        [vm_compute; reflexivity | |]); simpl in Hl; lia.
Qed.

Lemma toCodewords_pads (n : nat) :
  ∀ bits, (length bits < 8 * n)%nat →
  bitStream (toCodewords bits)
  = bits ++ replicate (Z.to_nat ((- len bits) `mod` 8)) false.
Proof.
  induction n as [|n IH]; intros bits Hl; [lia|].
  destruct (decide (length bits < 8)%nat) as [Hs|Hs];
    [by apply toCodewords_few|].
  rewrite <- (take_drop 8 bits).
  assert (length (take 8 bits) = 8%nat) as Ht by (rewrite length_take; lia).
  rewrite toCodewords_cons, bitStream_cons, msbBits_byteOf by done.
  rewrite IH by (rewrite length_drop; lia).
  rewrite <- app_assoc. do 3 f_equal. unfold len.
  rewrite length_app, Ht.
  replace (- Z.of_nat (8 + length (drop 8 bits)))
    with (- Z.of_nat (length (drop 8 bits)) + (-1) * 8) by lia.
  by rewrite Z.mod_add.
Qed.

Lemma toCodewords_packs_aux bits :
  len (toCodewords bits) = (len bits + 7) `div` 8 ∧
  byteList (toCodewords bits) ∧
  bitStream (toCodewords bits)
  = bits ++ replicate (Z.to_nat ((- len bits) `mod` 8)) false.
Proof.
  split; [|split].
  - rewrite toCodewords_map. unfold len, range.
    rewrite !length_fmap, length_seqZ, Z.sub_0_r.
    rewrite Z.quot_div_nonneg by lia.
    rewrite Z2Nat.id; [done|]. apply Z.div_pos; lia.
  - apply toCodewords_byteList.
  - apply (toCodewords_pads (Datatypes.S (length bits))). lia.
Qed.

(** X15. toCodewords packs the bits eight at a time, most significant
    first, reading the bits missing from the last block as 0: it returns
    ceil(len(bits) / 8) codewords in 0..255 whose bit stream is the input
    followed by the zero bits up to the byte boundary. *)
Theorem toCodewords_packs (bits : list bool) :
  len (toCodewords bits) = (len bits + 7) `div` 8 ∧
  byteList (toCodewords bits) ∧
  bitStream (toCodewords bits)
  = bits ++ replicate (Z.to_nat ((- len bits) `mod` 8)) false.
Proof. apply toCodewords_packs_aux. Qed.

Lemma toCodewords_unpack codewords :
  byteList codewords → toCodewords (bitStream codewords) = codewords.
Proof.
  intros Hb. induction Hb as [|c cs Hc Hcs IH]; [reflexivity|].
  rewrite bitStream_cons, toCodewords_cons by apply msbBits_length.
  by rewrite byteOf_msbBits, IH.
Qed.

(** X16. toCodewords inverts the bit stream of a list of codewords in
    0..255, so the bytes that Put wrote eight bits at a time are read back
    unchanged. *)
Theorem toCodewords_bitStream (codewords : list Z)
    (Hb : byteList codewords) :
  toCodewords (bitStream codewords) = codewords ∧
  toCodewords (Bits (foldl (λ b c, Put b c 8) NewBitBuffer codewords))
  = codewords.
Proof.
  split; [by apply toCodewords_unpack|].
  assert (∀ b, Bits (foldl (λ b c, Put b c 8) b codewords)
               = Bits b ++ bitStream codewords) as F.
  { clear. induction codewords as [|c cs IH]; intros b; simpl.
    - by rewrite app_nil_r.
    - rewrite IH, Put_bits, bitStream_cons by lia.
      by rewrite <- !app_assoc. }
  rewrite F. by apply toCodewords_unpack.
Qed.

Lemma toCodewords_bitStream_witness :
  toCodewords (bitStream [72; 105; 0; 255]) = [72; 105; 0; 255].
Proof.
  apply (toCodewords_bitStream [72; 105; 0; 255]).
  repeat (apply Forall_cons_2; [unfold byteVal; lia|]). constructor.
Defined.

(** ** What every successful encode is made of *)

Lemma bytesOf_byteList content : byteList (bytesOf content).
Proof.
  unfold bytesOf. apply Forall_fmap, Forall_forall. intros a _. simpl.
  pose proof (Ascii.N_ascii_bounded a). unfold byteVal. lia.
Qed.

Lemma versionInfoAt_bounds v level :
  1 ≤ v ≤ 4 → 0 ≤ level ≤ 3 →
  0 < ECCodewords (versionInfoAt v level) ≤ 64 ∧
  ECCodewords (versionInfoAt v level) < TotalCodewords (versionInfoAt v level) ∧
  TotalCodewords (versionInfoAt v level) ≤ 100 ∧
  capacityBits v level ≤ 640.
Proof.
  intros Hv Hl.
  assert (v = 1 ∨ v = 2 ∨ v = 3 ∨ v = 4) as Hc by lia.
  assert (level = 0 ∨ level = 1 ∨ level = 2 ∨ level = 3) as Hd by lia.
  destruct Hc as [-> | [-> | [-> | ->]]];
    destruct Hd as [-> | [-> | [-> | ->]]]; vm_compute;
    repeat split; (reflexivity || (intros ?; discriminate)).
Qed.

Lemma runs_unique {A} (m : M A) a b : runs m a → runs m b → a = b.
Proof. unfold runs. intros Ha Hb. congruence. Qed.

Lemma encode_parts content level qr t' :
  NewQRCode content level initTables = (Ok (inr qr), t') →
  let data := bytesOf content in
  let vInfo := versionInfoAt (Version qr) level in
  t' = initTables ∧ 1 ≤ Version qr ≤ 4 ∧ 0 ≤ level ≤ 3 ∧
  Blocks vInfo ≤ 1 ∧ 12 + 8 * len data ≤ capacityBits (Version qr) level ∧
  Level qr = level ∧ Size qr = 21 + 4 * (Version qr - 1) ∧
  squareGrid (Size qr) (Modules qr) ∧
  ∃ bb ec (rest : list bool),
    padData vInfo (encodeSegment data) = Ok bb ∧
    Bits bb = msbBits 4 ModeByte ++ msbBits 8 (len data) ++ bitStream data
              ++ rest ∧
    Len bb = capacityBits (Version qr) level ∧
    runs (CalculateECCodewords (toCodewords (Bits bb)) (ECCodewords vInfo)) ec ∧
    len ec = ECCodewords vInfo ∧ byteList ec ∧
    buildMatrix (Version qr) level (toCodewords (Bits bb) ++ ec) = Ok qr.
Proof.
  intros Henc data. cbv zeta.
  pose proof (NewQRCode_runs content level) as H.
  pose proof (chooseVersionFrom_spec (bytesOf content) level 4 1) as Hsel.
  fold (chooseVersion (bytesOf content) level) in Hsel. fold data in H, Hsel.
  destruct (chooseVersion data level) as [[v info]|] eqn:Ecv.
  2:{ unfold runs in H. rewrite H in Henc. discriminate. }
  destruct H
    as (qr' & bb & ec & R & Epad & Rec & Ebuild & Hv & Hlev & Hsz & Hsq).
  unfold runs in R. assert (qr' = qr) as -> by congruence.
  assert (t' = initTables) as -> by congruence.
  destruct Hsel as (Hr & -> & Hbl & Hcap & _). subst v.
  set (vInfo := versionInfoAt (Version qr) level) in *.
  assert (0 ≤ len data) as Hlen by (unfold len; lia).
  assert (0 ≤ level ≤ 3) as Hl.
  { destruct (versionInfoAt_cases (Version qr) level) as [Hz | (_ & ? & _)];
      [|done].
    unfold capacityBits in Hcap. rewrite Hz in Hcap. simpl in Hcap. lia. }
  destruct (versionInfoAt_bounds (Version qr) level ltac:(lia) Hl)
    as (Hec & _ & _ & _). fold vInfo in Hec.
  split; [done|]. split; [lia|]. split; [done|]. split; [done|].
  split; [done|]. split; [done|]. split; [done|]. split; [done|].
  destruct (padData_spec vInfo (encodeSegment data))
    as (bb' & term & align & npad & Epad' & Ebits & _ & _ & _ & HL).
  { rewrite encodeSegment_Len. exact Hcap. }
  assert (bb' = bb) as -> by congruence.
  destruct (CalculateECCodewords_runs (toCodewords (Bits bb))
              (Z.to_nat (ECCodewords vInfo)))
    as (ec' & Rec' & Lec & Bec & _);
    [apply toCodewords_byteList | lia |].
  rewrite Z2Nat.id in Rec' by lia.
  assert (ec' = ec) as -> by (eapply runs_unique; eassumption).
  exists bb, ec,
    (replicate term false ++ replicate align false ++
     bitStream (padCodewords npad 236 17)).
  split; [done|]. split.
  { rewrite Ebits, encodeSegment_bits. by rewrite <- !app_assoc. }
  split; [exact HL|]. split; [done|]. split; [unfold len; lia|].
  split; [done|]. done.
Qed.

Lemma encode_message_parts (content : string) (level : Z)
    (qr : QRCode) (t' : Tables)
    (Henc : NewQRCode content level initTables = (Ok (inr qr), t')) :
  let data := bytesOf content in
  let vInfo := versionInfoAt (Version qr) level in
  ∃ dataCodewords ecCodewords,
    byteList dataCodewords ∧ byteList ecCodewords ∧
    len dataCodewords = TotalCodewords vInfo - ECCodewords vInfo ∧
    len ecCodewords = ECCodewords vInfo ∧
    CalculateECCodewords dataCodewords (ECCodewords vInfo) initTables
    = (Ok ecCodewords, initTables) ∧
    buildMatrix (Version qr) level (dataCodewords ++ ecCodewords) = Ok qr ∧
    take 4 (bitStream dataCodewords) = [false; true; false; false] ∧
    toCodewords (take 8 (drop 4 (bitStream dataCodewords))) = [len data] ∧
    toCodewords (take (8 * length data) (drop 12 (bitStream dataCodewords)))
    = data.
Proof.
  intros data vInfo.
  destruct (encode_parts content level qr t' Henc)
    as (_ & Hv & Hl & _ & Hcap & _ & _ & _ & bb & ec & rest & Epad & Ebits &
        HL & Rec & Lec & Bec & Ebuild).
  fold data vInfo in Hcap, Epad, Ebits, Rec, Lec, Ebuild.
  destruct (versionInfoAt_bounds (Version qr) level Hv Hl)
    as (Hec & Hte & _ & Hmax). fold vInfo in Hec, Hte.
  assert (0 ≤ len data) as Hlen by (unfold len; lia).
  destruct (toCodewords_packs_aux (Bits bb)) as (Lcw & Bcw & Ecw).
  unfold Len in HL. unfold capacityBits in HL. fold vInfo in HL.
  assert (bitStream (toCodewords (Bits bb)) = Bits bb) as Estream.
  { rewrite Ecw, HL.
    replace (- ((TotalCodewords vInfo - ECCodewords vInfo) * 8))
      with (0 + (- (TotalCodewords vInfo - ECCodewords vInfo)) * 8) by lia.
    rewrite Z.mod_add by lia. simpl. by rewrite app_nil_r. }
  exists (toCodewords (Bits bb)), ec.
  split; [done|]. split; [done|]. split.
  { rewrite Lcw, HL.
    replace ((TotalCodewords vInfo - ECCodewords vInfo) * 8 + 7)
      with (7 + (TotalCodewords vInfo - ECCodewords vInfo) * 8) by lia.
    rewrite Z.div_add by lia. done. }
  split; [done|]. split; [exact Rec|]. split; [done|].
  rewrite Estream, Ebits.
  assert (length (msbBits 8 (len data)) = 8%nat) as L8 by apply msbBits_length.
  assert (length (bitStream data) = (8 * length data)%nat) as Ld
    by apply bitStream_length.
  split; [reflexivity|]. split.
  - change (drop 4 (msbBits 4 ModeByte ++ ?l)) with l.
    rewrite take_app_length' by done.
    change (msbBits 8 (len data)) with (bitStream [len data]).
    apply toCodewords_unpack. apply Forall_cons_2; [|constructor].
    unfold byteVal. unfold capacityBits in *. lia.
  - change 12%nat with (4 + 8)%nat. rewrite <- drop_drop.
    change (drop 4 (msbBits 4 ModeByte ++ ?l)) with l.
    rewrite drop_app_length' by done.
    rewrite take_app_length' by done.
    apply toCodewords_unpack, bytesOf_byteList.
Qed.

(** X17. The final message of every successful encode: the data codewords
    are TotalCodewords - ECCodewords values in 0..255, followed by
    ECCodewords error correction codewords computed from them, and the
    symbol is built from exactly these.  The data codewords carry the
    content: their bit stream starts with the byte-mode indicator 0100,
    the next 8 bits are the length of the content, and the following
    8 * length bits pack back to the content's bytes. *)
Theorem encode_final_message (content : string) (level : Z)
    (qr : QRCode) (t' : Tables)
    (Henc : NewQRCode content level initTables = (Ok (inr qr), t')) :
  let data := bytesOf content in
  let vInfo := versionInfoAt (Version qr) level in
  ∃ dataCodewords ecCodewords,
    byteList dataCodewords ∧ byteList ecCodewords ∧
    len dataCodewords = TotalCodewords vInfo - ECCodewords vInfo ∧
    len ecCodewords = ECCodewords vInfo ∧
    CalculateECCodewords dataCodewords (ECCodewords vInfo) initTables
    = (Ok ecCodewords, initTables) ∧
    buildMatrix (Version qr) level (dataCodewords ++ ecCodewords) = Ok qr ∧
    take 4 (bitStream dataCodewords) = [false; true; false; false] ∧
    toCodewords (take 8 (drop 4 (bitStream dataCodewords))) = [len data] ∧
    toCodewords (take (8 * length data) (drop 12 (bitStream dataCodewords)))
    = data.
Proof. exact (encode_message_parts content level qr t' Henc). Qed.

Lemma encode_final_message_witness :
  ∃ dataCodewords ecCodewords : list Z,
    len dataCodewords = 19 ∧ len ecCodewords = 7 ∧
    take 4 (bitStream dataCodewords) = [false; true; false; false] ∧
    toCodewords (take 8 (drop 4 (bitStream dataCodewords))) = [5] ∧
    toCodewords (take 40 (drop 12 (bitStream dataCodewords)))
    = [72; 101; 108; 108; 111].
Proof.
  destruct (NewQRCode "Hello" LevelL initTables) as [r t'] eqn:E.
  assert (∃ qr, r = Ok (inr qr) ∧ Version qr = 1) as (qr & -> & Hv).
  { pose proof (f_equal fst E) as E1. simpl in E1. rewrite <- E1.
    vm_compute. eexists. split; reflexivity. }
  destruct (encode_final_message "Hello" LevelL qr t' E)
    as (dcw & ec & _ & _ & L1 & L2 & _ & _ & H1 & H2 & H3).
  rewrite Hv in L1, L2.
  exists dcw, ec. split; [exact L1|]. split; [exact L2|].
  split; [exact H1|]. split; [exact H2|]. exact H3.
Defined.

(** ** Levels and capacities *)

Lemma versionInfoAt_unknown_level ver level :
  ¬ 0 ≤ level ≤ 3 → versionInfoAt ver level = mkVersionInfo 0 0 0.
Proof.
  intros Hl. destruct (versionInfoAt_cases ver level) as [Hz | (_ & ? & _)];
    [done | lia].
Qed.

Lemma chooseVersionFrom_unknown_level n ver data level :
  ¬ 0 ≤ level ≤ 3 → chooseVersionFrom n ver data level = None.
Proof.
  intros Hl. revert ver. induction n as [|n IH]; intros ver; [done|].
  simpl. rewrite versionInfoAt_unknown_level by done. simpl.
  destruct (decide (0 > 1)); [lia|].
  destruct (decide _) as [H|_]; [unfold len in H; lia|]. apply IH.
Qed.

(** X18. A level that is none of the four constants (0..3) is not
    rejected as such: the table lookup gives the zero entry, no version
    fits, and NewQRCode returns its one error, for every content and
    whatever the tables hold. *)
Theorem NewQRCode_unknown_level (content : string) (level : Z) (t : Tables)
    (Hl : ¬ 0 ≤ level ≤ 3) :
  NewQRCode content level t = (Ok (inl ErrContentTooLong), t).
Proof.
  unfold NewQRCode, chooseVersion.
  by rewrite chooseVersionFrom_unknown_level.
Qed.

Lemma NewQRCode_unknown_level_witness :
  NewQRCode "Hello" 4 initTables = (Ok (inl ErrContentTooLong), initTables).
Proof. apply (NewQRCode_unknown_level "Hello" 4 initTables). lia. Defined.

Lemma chooseVersion_table data level :
  fst <$> chooseVersion data level = versionForLength level (len data).
Proof.
  assert (0 ≤ len data) as Hlen by (unfold len; lia).
  destruct (decide (0 ≤ level ≤ 3)) as [Hl|Hl].
  2:{ unfold chooseVersion. rewrite chooseVersionFrom_unknown_level by done.
      unfold versionForLength, LevelL, LevelM, LevelQ, LevelH.
      repeat (destruct (decide (level = _)); [lia|]). done. }
  assert (level = 0 ∨ level = 1 ∨ level = 2 ∨ level = 3) as Hd by lia.
  unfold chooseVersion, chooseVersionFrom.
  change (1 + 1) with 2. change (2 + 1) with 3. change (3 + 1) with 4.
  destruct Hd as [-> | [-> | [-> | ->]]].
  - replace (versionInfoAt 1 0) with (mkVersionInfo 26 10 1)
      by (vm_compute; reflexivity).
    replace (versionInfoAt 2 0) with (mkVersionInfo 44 16 1)
      by (vm_compute; reflexivity).
    replace (versionInfoAt 3 0) with (mkVersionInfo 70 26 1)
      by (vm_compute; reflexivity).
    replace (versionInfoAt 4 0) with (mkVersionInfo 100 36 2)
      by (vm_compute; reflexivity).
    unfold versionForLength, LevelL, LevelM, LevelQ, LevelH.
    cbn [Blocks TotalCodewords ECCodewords].
    repeat (destruct (decide _); try lia; try done).
  - replace (versionInfoAt 1 1) with (mkVersionInfo 26 7 1)
      by (vm_compute; reflexivity).
    replace (versionInfoAt 2 1) with (mkVersionInfo 44 10 1)
      by (vm_compute; reflexivity).
    replace (versionInfoAt 3 1) with (mkVersionInfo 70 15 1)
      by (vm_compute; reflexivity).
    replace (versionInfoAt 4 1) with (mkVersionInfo 100 20 1)
      by (vm_compute; reflexivity).
    unfold versionForLength, LevelL, LevelM, LevelQ, LevelH.
    cbn [Blocks TotalCodewords ECCodewords].
    repeat (destruct (decide _); try lia; try done).
  - replace (versionInfoAt 1 2) with (mkVersionInfo 26 17 1)
      by (vm_compute; reflexivity).
    replace (versionInfoAt 2 2) with (mkVersionInfo 44 28 1)
      by (vm_compute; reflexivity).
    replace (versionInfoAt 3 2) with (mkVersionInfo 70 44 2)
      by (vm_compute; reflexivity).
    replace (versionInfoAt 4 2) with (mkVersionInfo 100 64 4)
      by (vm_compute; reflexivity).
    unfold versionForLength, LevelL, LevelM, LevelQ, LevelH.
    cbn [Blocks TotalCodewords ECCodewords].
    repeat (destruct (decide _); try lia; try done).
  - replace (versionInfoAt 1 3) with (mkVersionInfo 26 13 1)
      by (vm_compute; reflexivity).
    replace (versionInfoAt 2 3) with (mkVersionInfo 44 22 1)
      by (vm_compute; reflexivity).
    replace (versionInfoAt 3 3) with (mkVersionInfo 70 36 2)
      by (vm_compute; reflexivity).
    replace (versionInfoAt 4 3) with (mkVersionInfo 100 52 2)
      by (vm_compute; reflexivity).
    unfold versionForLength, LevelL, LevelM, LevelQ, LevelH.
    cbn [Blocks TotalCodewords ECCodewords].
    repeat (destruct (decide _); try lia; try done).
Qed.

(** X19. The capacities of the encoder in bytes: NewQRCode picks version
    1, 2, 3, 4 for contents of at most 17, 32, 53, 78 bytes at level L;
    1, 2, 3 for at most 14, 26, 42 bytes at level M; 1, 2 for at most 11,
    20 bytes at level Q and for at most 7, 14 bytes at level H; anything
    longer, and any other level, gives the error. *)
Theorem NewQRCode_capacity (content : string) (level : Z) :
  ∃ r, NewQRCode content level initTables = (Ok r, initTables) ∧
       match versionForLength level (len (bytesOf content)) with
       | Some v => ∃ qr, r = inr qr ∧ Version qr = v
       | None => r = inl ErrContentTooLong
       end.
Proof.
  pose proof (NewQRCode_runs content level) as H.
  pose proof (chooseVersion_table (bytesOf content) level) as Ht.
  destruct (chooseVersion (bytesOf content) level) as [[v vInfo]|].
  - destruct H as (qr & _ & _ & R & _ & _ & _ & Hv & _).
    exists (inr qr). split; [exact R|]. rewrite <- Ht. simpl.
    by exists qr.
  - exists (inl ErrContentTooLong). split; [exact H|]. by rewrite <- Ht.
Qed.

(** X20. Shorter content never needs a larger symbol: when a content
    encodes at a level, every content that is not longer encodes at that
    level too, at a version that is not larger. *)
Theorem NewQRCode_monotone (c1 c2 : string) (level : Z)
    (qr2 : QRCode) (t2 : Tables)
    (Hlen : len (bytesOf c1) ≤ len (bytesOf c2))
    (Henc : NewQRCode c2 level initTables = (Ok (inr qr2), t2)) :
  ∃ qr1, NewQRCode c1 level initTables = (Ok (inr qr1), initTables) ∧
         Version qr1 ≤ Version qr2.
Proof.
  destruct (encode_parts c2 level qr2 t2 Henc)
    as (_ & Hv2 & _ & Hb2 & Hcap2 & _).
  pose proof (NewQRCode_runs c1 level) as H.
  pose proof (chooseVersionFrom_spec (bytesOf c1) level 4 1) as Hsel.
  fold (chooseVersion (bytesOf c1) level) in Hsel.
  destruct (chooseVersion (bytesOf c1) level) as [[v vInfo]|].
  - destruct H as (qr & _ & _ & R & _ & _ & _ & Hv & _).
    destruct Hsel as (Hr & _ & _ & _ & Hmin).
    exists qr. split; [exact R|]. rewrite Hv.
    destruct (decide (v ≤ Version qr2)) as [|Hgt]; [done|].
    exfalso. apply (Hmin (Version qr2)); [lia|]. split; [done|lia].
  - exfalso. apply (Hsel (Version qr2)); [lia|]. split; [done|lia].
Qed.

Lemma NewQRCode_monotone_witness :
  ∃ qr1, NewQRCode "Hi" LevelL initTables = (Ok (inr qr1), initTables) ∧
         Version qr1 ≤ 1.
Proof.
  destruct (NewQRCode "Hello" LevelL initTables) as [r t'] eqn:E.
  assert (∃ qr, r = Ok (inr qr) ∧ Version qr = 1) as (qr & -> & Hv).
  { pose proof (f_equal fst E) as E1. simpl in E1. rewrite <- E1.
    vm_compute. eexists. split; reflexivity. }
  destruct (NewQRCode_monotone "Hi" "Hello" LevelL qr t') as (qr1 & R & Hle).
  - vm_compute. discriminate.
  - exact E.
  - exists qr1. split; [exact R|]. by rewrite <- Hv.
Defined.

(** ** Function patterns survive data placement and format placement *)

Lemma setModule_isFunction cv r c b cv' :
  setModule cv r c b = Ok cv' → isFunction cv' = isFunction cv.
Proof.
  unfold setModule. intros H. apply obind_Ok in H as (m & _ & H).
  by injection H as <-.
Qed.

Section Keeps.
Variable size : Z.
Variable F M0 : list (list bool).

Lemma setModule_keeps cv r c b cv' :
  keeps F M0 cv → isFunctionAt cv r c = Ok false →
  setModule cv r c b = Ok cv' → keeps F M0 cv'.
Proof.
  intros [HF HM] Hf Hs. split.
  - by rewrite (setModule_isFunction _ _ _ _ _ Hs).
  - intros r' c' Ht. rewrite (setModule_get _ _ _ _ _ r' c' Hs).
    destruct (decide (r' = r ∧ c' = c)) as [[-> ->]|]; [|by apply HM].
    unfold isFunctionAt in Hf. rewrite HF in Hf. congruence.
Qed.

Lemma placeColumnPair_keeps col finalMessage cv idx :
  wfCanvas size cv → 0 ≤ idx → 1 ≤ col ≤ size - 1 → keeps F M0 cv →
  ∃ st, placeColumnPair size col finalMessage (len finalMessage * 8) (cv, idx)
        = Ok st ∧ wfCanvas size st.1 ∧ 0 ≤ st.2 ∧ keeps F M0 st.1.
Proof.
  intros Hcv Hidx Hcol Hk. unfold placeColumnPair.
  apply (oloop_inv (λ st, wfCanvas size st.1 ∧ 0 ≤ st.2 ∧ keeps F M0 st.1));
    [|done].
  intros rowIter st Hrow (Hw & Hi & Hkeep). apply elem_of_range in Hrow.
  set (r := if decide (((col + 1) `quot` 2) `rem` 2 = 0)
            then size - 1 - rowIter else rowIter).
  assert (0 ≤ r < size) as Hr by (unfold r; destruct (decide _); lia).
  apply (oloop_inv (λ st, wfCanvas size st.1 ∧ 0 ≤ st.2 ∧ keeps F M0 st.1));
    [|done].
  intros c [cv1 idx1] Hc (Hw1 & Hi1 & Hk1). apply elem_of_downRange in Hc.
  simpl in Hw1, Hi1, Hk1.
  destruct (isFunctionAt_ok size cv1 r c Hw1 Hr ltac:(lia)) as [isF EF].
  rewrite EF. simpl. destruct isF; simpl; [by eexists|].
  destruct (decide (idx1 < len finalMessage * 8)) as [Hlt|Hge].
  - destruct (getBit_ok finalMessage idx1 ltac:(lia)) as [b ->]. simpl.
    match goal with
    | |- context [setModule cv1 r c ?bit] =>
        destruct (setModule_ok size cv1 r c bit Hw1 Hr ltac:(lia))
          as (cv2 & Es & Hw2)
    end.
    rewrite Es. simpl. eexists. split; [done|]. simpl.
    split; [done|]. split; [lia|]. by eapply setModule_keeps.
  - simpl.
    match goal with
    | |- context [setModule cv1 r c ?bit] =>
        destruct (setModule_ok size cv1 r c bit Hw1 Hr ltac:(lia))
          as (cv2 & Es & Hw2)
    end.
    rewrite Es. simpl. eexists. split; [done|]. simpl.
    split; [done|]. split; [lia|]. by eapply setModule_keeps.
Qed.

Lemma placeColumns_keeps finalMessage (fuel : nat) :
  ∀ col cv idx,
    col ≤ Z.of_nat fuel → col ≤ size - 1 → wfCanvas size cv → 0 ≤ idx →
    keeps F M0 cv →
    ∃ st, placeColumns fuel size col finalMessage (len finalMessage * 8)
            (cv, idx) = Ok st ∧ wfCanvas size st.1 ∧ keeps F M0 st.1.
Proof.
  induction fuel as [|fuel IH]; intros col cv idx Hf Hc Hw Hi Hk.
  - simpl. destruct (decide (col > 0)); [lia|]. by eexists.
  - simpl. destruct (decide (col > 0)); [|by eexists].
    set (col' := if decide (col = 6) then col - 1 else col).
    assert (1 ≤ col' ≤ size - 1 ∧ col' ≤ col) as [Hc1 Hc2]
      by (unfold col'; destruct (decide _); lia).
    destruct (placeColumnPair_keeps col' finalMessage cv idx Hw Hi Hc1 Hk)
      as ([cv1 idx1] & -> & Hw1 & Hi1 & Hk1).
    simpl. apply IH; (done || lia).
Qed.

Lemma placeData_keeps finalMessage cv :
  wfCanvas size cv → keeps F M0 cv →
  ∃ cv', placeData size finalMessage cv = Ok cv' ∧ wfCanvas size cv' ∧
         keeps F M0 cv'.
Proof.
  intros Hw Hk. unfold placeData.
  destruct (placeColumns_keeps finalMessage (Z.to_nat size) (size - 1) cv 0)
    as ([cv1 idx1] & -> & Hw1 & Hk1); [lia|lia|done|lia|done|].
  simpl. by exists cv1.
Qed.

End Keeps.

Lemma placeFormat_untouched size level cv row col :
  21 ≤ size → wfCanvas size cv →
  (∀ i, 0 ≤ i < 15 → ¬ formatWrites size i row col) →
  ∃ cv', placeFormat size level cv = Ok cv' ∧ wfCanvas size cv' ∧
         get2 (modules cv') row col = get2 (modules cv) row col.
Proof.
  intros Hs Hw Hn. unfold placeFormat.
  apply (oloop_inv (λ cv', wfCanvas size cv' ∧
           get2 (modules cv') row col = get2 (modules cv) row col)); [|done].
  intros i cv1 Hi [Hw1 Hg1]. apply elem_of_range in Hi.
  destruct (placeFormatBit_ok size
              (calculateBCHFormat (Z.lor (ecBitsOf level ≪ 3) maskPattern))
              i cv1 Hs Hi Hw1) as (cv2 & E & Hw2).
  exists cv2. split; [done|]. split; [done|]. rewrite <- Hg1.
  eapply placeFormatBit_other; [exact E| |];
    intros Heq; apply (Hn i Hi); [by left | by right].
Qed.

Lemma buildMatrix_keeps v level finalMessage qr :
  1 ≤ v ≤ 4 → buildMatrix v level finalMessage = Ok qr →
  ∃ cv0, functionPatterns v (21 + 4 * (v - 1)) = Ok cv0 ∧
         wfCanvas (21 + 4 * (v - 1)) cv0 ∧
         keepsPatterns (21 + 4 * (v - 1)) cv0 (Modules qr).
Proof.
  intros Hv Hb. unfold buildMatrix in Hb.
  destruct (functionPatterns_ok v Hv) as (cv0 & E0 & Hw0).
  rewrite E0 in Hb. simpl in Hb. exists cv0. split; [done|]. split; [done|].
  destruct (placeData_keeps (21 + 4 * (v - 1)) (isFunction cv0) (modules cv0)
              finalMessage cv0 Hw0) as (cv1 & E1 & Hw1 & _ & Hk1); [by split|].
  rewrite E1 in Hb. simpl in Hb.
  intros r c Hf Hn.
  destruct (placeFormat_untouched (21 + 4 * (v - 1)) level cv1 r c
              ltac:(lia) Hw1 Hn) as (cv2 & E2 & _ & Hg).
  rewrite E2 in Hb. simpl in Hb. injection Hb as <-. simpl.
  rewrite Hg. by apply Hk1.
Qed.

(** X21. In every successful encode the function patterns are still in
    the symbol: every cell that the pattern phase marked as a function
    cell, and that no turn of the format loop writes, holds the module
    the pattern phase gave it; data placement writes no function cell. *)
Theorem function_patterns_kept (content : string) (level : Z)
    (qr : QRCode) (t' : Tables)
    (Henc : NewQRCode content level initTables = (Ok (inr qr), t')) :
  ∃ cv0, functionPatterns (Version qr) (Size qr) = Ok cv0 ∧
         ∀ r c, get2 (isFunction cv0) r c = Ok true →
                (∀ i, 0 ≤ i < 15 → ¬ formatWrites (Size qr) i r c) →
                get2 (Modules qr) r c = get2 (modules cv0) r c.
Proof.
  destruct (encode_parts content level qr t' Henc)
    as (_ & Hv & _ & _ & _ & _ & Hsz & _ & bb & ec & rest & _ & _ & _ & _ & _ &
        _ & Ebuild).
  destruct (buildMatrix_keeps _ _ _ _ Hv Ebuild) as (cv0 & E0 & _ & Hk).
  rewrite Hsz. exists cv0. split; [done|]. exact Hk.
Qed.

Lemma function_patterns_kept_witness :
  ∃ qr cv0,
    NewQRCode "Hello" LevelL initTables = (Ok (inr qr), initTables) ∧
    functionPatterns (Version qr) (Size qr) = Ok cv0 ∧
    (get2 (isFunction cv0) 0 0 = Ok true →
     (∀ i, 0 ≤ i < 15 → ¬ formatWrites (Size qr) i 0 0) →
     get2 (Modules qr) 0 0 = get2 (modules cv0) 0 0).
Proof.
  destruct (NewQRCode "Hello" LevelL initTables) as [r t'] eqn:E.
  assert (∃ qr, r = Ok (inr qr) ∧ t' = initTables) as (qr & -> & ->).
  { pose proof (NewQRCode_runs "Hello" LevelL) as H.
    change (chooseVersion (bytesOf "Hello") LevelL)
      with (Some (1, versionInfoAt 1 LevelL)) in H.
    destruct H as (qr & _ & _ & R & _). unfold runs in R.
    exists qr. split; congruence. }
  destruct (function_patterns_kept "Hello" LevelL qr initTables E)
    as (cv0 & E0 & H).
  exists qr, cv0. split; [done|]. split; [done|]. apply H.
Defined.

Lemma formatWrites_cases size i r c :
  21 ≤ size → 0 ≤ i < 15 → formatWrites size i r c →
  (c = 8 ∧ (0 ≤ r ≤ 5 ∨ r = 7 ∨ r = 8 ∨ size - 8 ≤ r ≤ size - 2)) ∨
  (r = 8 ∧ (0 ≤ c ≤ 5 ∨ c = 7 ∨ size - 8 ≤ c ≤ size - 1)).
Proof.
  intros Hs Hi [H|H].
  - assert (i = 0 ∨ i = 1 ∨ i = 2 ∨ i = 3 ∨ i = 4 ∨ i = 5 ∨ i = 6 ∨ i = 7 ∨
            i = 8 ∨ i = 9 ∨ i = 10 ∨ i = 11 ∨ i = 12 ∨ i = 13 ∨ i = 14)
      as Hcases by lia.
    repeat destruct Hcases as [-> | Hcases]; try subst i; simpl in H;
      injection H as <- <-; lia.
  - destruct (decide (i < 8)); injection H as <- <-; lia.
Qed.

Lemma okBool_eq o v : okBool o v = true → o = Ok v.
Proof.
  destruct o as [a|p]; simpl; [|done].
  intros H. apply bool_decide_eq_true in H. by subst.
Qed.

Lemma patternCell_true cv r c b :
  patternCell cv r c b = true →
  get2 (isFunction cv) r c = Ok true ∧ get2 (modules cv) r c = Ok b.
Proof.
  unfold patternCell. intros H. apply andb_prop in H as [H1 H2].
  split; by apply okBool_eq.
Qed.

Lemma functionPatterns_check v :
  1 ≤ v ≤ 4 →
  ∃ cv0, functionPatterns v (21 + 4 * (v - 1)) = Ok cv0 ∧
         patternsOkb v (21 + 4 * (v - 1)) cv0 = true.
Proof.
  intros Hv.
  assert (match functionPatterns v (21 + 4 * (v - 1)) with
          | Ok cv => patternsOkb v (21 + 4 * (v - 1)) cv
          | Panic _ => false
          end = true) as H.
  { assert (v = 1 ∨ v = 2 ∨ v = 3 ∨ v = 4) as [-> | [-> | [-> | ->]]] by lia;
      vm_compute; reflexivity. }
  destruct (functionPatterns _ _) as [cv|]; [|done]. by exists cv.
Qed.

Lemma symbol_patterns_aux (content : string) (level : Z)
    (qr : QRCode) (t' : Tables)
    (Henc : NewQRCode content level initTables = (Ok (inr qr), t')) :
  let s := Size qr in
  (∀ i j, 0 ≤ i ≤ 7 → 0 ≤ j ≤ 7 →
     get2 (Modules qr) i j = Ok (finderAt i j) ∧
     get2 (Modules qr) i (s - 1 - j) = Ok (finderAt i j) ∧
     get2 (Modules qr) (s - 1 - i) j = Ok (finderAt i j)) ∧
  (∀ k, 8 ≤ k < s - 8 →
     get2 (Modules qr) 6 k = Ok (bool_decide (k `mod` 2 = 0)) ∧
     get2 (Modules qr) k 6 = Ok (bool_decide (k `mod` 2 = 0))) ∧
  (2 ≤ Version qr → ∀ i j, -2 ≤ i ≤ 2 → -2 ≤ j ≤ 2 →
     get2 (Modules qr) (s - 7 + i) (s - 7 + j) = Ok (alignmentAt i j)).
Proof.
  destruct (encode_parts content level qr t' Henc)
    as (_ & Hv & _ & _ & _ & _ & Hsz & _ & bb & ec & rest & _ & _ & _ & _ & _ &
        _ & Ebuild).
  destruct (buildMatrix_keeps _ _ _ _ Hv Ebuild) as (cv0 & E0 & _ & Hk).
  destruct (functionPatterns_check _ Hv) as (cv0' & E0' & Hchk).
  assert (cv0' = cv0) as -> by congruence. clear E0'.
  cbv zeta. rewrite Hsz. set (s := 21 + 4 * (Version qr - 1)) in *.
  assert (21 ≤ s) as Hs by (unfold s; lia).
  assert (∀ r c b, patternCell cv0 r c b = true →
            ¬ (c = 8 ∧ (0 ≤ r ≤ 5 ∨ r = 7 ∨ r = 8 ∨ s - 8 ≤ r ≤ s - 2)) →
            ¬ (r = 8 ∧ (0 ≤ c ≤ 5 ∨ c = 7 ∨ s - 8 ≤ c ≤ s - 1)) →
            get2 (Modules qr) r c = Ok b) as Hcell.
  { intros r c b Hp H1 H2. apply patternCell_true in Hp as [Hf Hm].
    rewrite <- Hm. apply Hk; [done|]. intros i Hi Hw.
    destruct (formatWrites_cases s i r c Hs Hi Hw); tauto. }
  unfold patternsOkb in Hchk.
  apply andb_prop in Hchk as [Hchk Halign].
  apply andb_prop in Hchk as [Hfind Htime].
  split; [|split].
  - intros i j Hi Hj.
    pose proof (forallb_seqZ _ _ _ Hfind i ltac:(lia)) as H. cbv beta in H.
    pose proof (forallb_seqZ _ _ _ H j ltac:(lia)) as H'. cbv beta in H'.
    apply andb_prop in H' as [H' H3]. apply andb_prop in H' as [H1 H2].
    split; [|split]; (apply Hcell; [done|lia|lia]).
  - intros k Hk'.
    pose proof (forallb_seqZ _ _ _ Htime k ltac:(lia)) as H. cbv beta in H.
    apply andb_prop in H as [H1 H2].
    split; (apply Hcell; [done|lia|lia]).
  - intros Hv2 i j Hi Hj. destruct (decide (2 ≤ Version qr)); [|lia].
    pose proof (forallb_seqZ _ _ _ Halign i ltac:(lia)) as H. cbv beta in H.
    pose proof (forallb_seqZ _ _ _ H j ltac:(lia)) as H'. cbv beta in H'.
    apply Hcell; [done|lia|lia].
Qed.

(** X22. Every symbol NewQRCode returns shows the three finder patterns
    in its corners, each with its light separator, the two alternating
    timing lines between them (dark at even positions), and from version
    2 on the alignment pattern centred seven modules from the bottom
    right corner. *)
Theorem symbol_patterns (content : string) (level : Z)
    (qr : QRCode) (t' : Tables)
    (Henc : NewQRCode content level initTables = (Ok (inr qr), t')) :
  let s := Size qr in
  (∀ i j, 0 ≤ i ≤ 7 → 0 ≤ j ≤ 7 →
     get2 (Modules qr) i j = Ok (finderAt i j) ∧
     get2 (Modules qr) i (s - 1 - j) = Ok (finderAt i j) ∧
     get2 (Modules qr) (s - 1 - i) j = Ok (finderAt i j)) ∧
  (∀ k, 8 ≤ k < s - 8 →
     get2 (Modules qr) 6 k = Ok (bool_decide (k `mod` 2 = 0)) ∧
     get2 (Modules qr) k 6 = Ok (bool_decide (k `mod` 2 = 0))) ∧
  (2 ≤ Version qr → ∀ i j, -2 ≤ i ≤ 2 → -2 ≤ j ≤ 2 →
     get2 (Modules qr) (s - 7 + i) (s - 7 + j) = Ok (alignmentAt i j)).
Proof. exact (symbol_patterns_aux content level qr t' Henc). Qed.

Lemma symbol_patterns_witness :
  ∃ qr, NewQRCode "Hello" LevelL initTables = (Ok (inr qr), initTables) ∧
        get2 (Modules qr) 0 0 = Ok true ∧
        get2 (Modules qr) 1 1 = Ok false ∧
        get2 (Modules qr) 6 8 = Ok true ∧
        get2 (Modules qr) 6 9 = Ok false.
Proof.
  destruct (NewQRCode "Hello" LevelL initTables) as [r t'] eqn:E.
  assert (∃ qr, r = Ok (inr qr) ∧ t' = initTables ∧ Size qr = 21)
    as (qr & -> & -> & Hs).
  { pose proof (NewQRCode_runs "Hello" LevelL) as H.
    change (chooseVersion (bytesOf "Hello") LevelL)
      with (Some (1, versionInfoAt 1 LevelL)) in H.
    destruct H as (qr & _ & _ & R & _ & _ & _ & _ & _ & Hs & _).
    unfold runs in R. exists qr. split; [congruence|]. split; [congruence|].
    exact Hs. }
  destruct (symbol_patterns "Hello" LevelL qr initTables E) as (Hf & Ht & _).
  rewrite Hs in Ht.
  exists qr. split; [done|].
  split; [apply (Hf 0 0); lia|]. split; [apply (Hf 1 1); lia|].
  split; [apply (Ht 8); lia | apply (Ht 9); lia].
Defined.

(** ** Where the format bits end up *)

Lemma topLeftCell_index i r c :
  topLeftCell i = Some (r, c) →
  0 ≤ i < 15 ∧ 0 ≤ r ≤ 8 ∧ 0 ≤ c ≤ 8 ∧
  i = (if decide (c = 8) then (if decide (r ≤ 5) then r else r - 1)
       else if decide (c = 7) then 8 else 14 - c).
Proof.
  intros H. destruct i as [|p|p]; [| |simpl in H; discriminate H].
  - injection H as <- <-. simpl. lia.
  - do 4 (try destruct p as [p|p|]); simpl in H; try discriminate H;
      injection H as <- <-; simpl; lia.
Qed.

Lemma formatWrites_inv size i r c :
  formatWrites size i r c →
  (topLeftCell i = Some (r, c) ∧ 0 ≤ r ≤ 8 ∧ 0 ≤ c ≤ 8) ∨
  (i < 8 ∧ r = 8 ∧ c = size - 1 - i) ∨
  (8 ≤ i ∧ r = size - 16 + i ∧ c = 8).
Proof.
  intros [H|H].
  - left. split; [done|]. apply topLeftCell_index in H. lia.
  - right. destruct (decide (i < 8)); injection H as <- <-; [left|right]; lia.
Qed.

Lemma placeFormatBit_writes size formatPoly i cv cv' row col :
  placeFormatBit size formatPoly i cv = Ok cv' →
  formatWrites size i row col →
  get2 (modules cv') row col
  = Ok (bool_decide (Z.land (formatPoly ≫ i) 1 = 1)).
Proof.
  unfold placeFormatBit, formatWrites. intros H Hw.
  apply obind_Ok in H as (cv1 & E1 & E2).
  set (bit := bool_decide _) in *.
  assert (get2 (modules cv') row col
          = if decide ((if decide (i < 8) then (8, size - 1 - i)
                        else (size - 8 + (i - 8), 8)) = (row, col))
            then Ok bit else get2 (modules cv1) row col) as ->.
  { destruct (decide (i < 8));
      rewrite (setModule_get _ _ _ _ _ row col E2);
      destruct (decide (row = _ ∧ col = _)) as [[-> ->]|Hn];
      destruct (decide (_ = (_, _))) as [Heq|Hne]; try done;
      injection Heq as <- <-; by destruct Hn. }
  match goal with
  | |- (if decide ?P then _ else _) = _ => destruct (decide P) as [|Hne]
  end; [done|].
  destruct Hw as [Hw|Hw]; [|done]. rewrite Hw in E1.
  rewrite (setModule_get _ _ _ _ _ row col E1).
  by destruct (decide (row = row ∧ col = col)) as [|[]].
Qed.

Lemma placeFormat_last_write size level cv i0 row col :
  21 ≤ size → wfCanvas size cv → 0 ≤ i0 < 15 →
  formatWrites size i0 row col →
  (∀ i, i0 < i < 15 → ¬ formatWrites size i row col) →
  ∃ cv', placeFormat size level cv = Ok cv' ∧
         get2 (modules cv') row col = Ok (formatBit level i0).
Proof.
  intros Hs Hw Hi0 Hwr Hlater. unfold placeFormat.
  destruct (oloop_range_inv
    (λ k cv', wfCanvas size cv' ∧
              (i0 < k → get2 (modules cv') row col = Ok (formatBit level i0)))
    (placeFormatBit size
       (calculateBCHFormat (Z.lor (ecBitsOf level ≪ 3) maskPattern)))
    0 15 ltac:(lia)) with (s := cv) as (cv' & E & _ & Hg).
  - intros i cv1 Hi [Hw1 Hg1].
    destruct (placeFormatBit_ok size
                (calculateBCHFormat (Z.lor (ecBitsOf level ≪ 3) maskPattern))
                i cv1 Hs Hi Hw1) as (cv2 & E & Hw2).
    exists cv2. split; [done|]. split; [done|]. intros Hlt.
    destruct (decide (i = i0)) as [->|Hne].
    + by eapply placeFormatBit_writes.
    + rewrite <- Hg1 by lia.
      eapply placeFormatBit_other; [exact E| |];
        intros Heq; apply (Hlater i ltac:(lia)); [by left | by right].
  - split; [done|lia].
  - exists cv'. split; [done|]. apply Hg. lia.
Qed.

Lemma buildMatrix_format v level finalMessage qr i0 row col :
  1 ≤ v ≤ 4 → buildMatrix v level finalMessage = Ok qr →
  0 ≤ i0 < 15 → formatWrites (21 + 4 * (v - 1)) i0 row col →
  (∀ i, i0 < i < 15 → ¬ formatWrites (21 + 4 * (v - 1)) i row col) →
  get2 (Modules qr) row col = Ok (formatBit level i0).
Proof.
  intros Hv Hb Hi0 Hwr Hlater. unfold buildMatrix in Hb.
  destruct (functionPatterns_ok v Hv) as (cv0 & E0 & Hw0).
  rewrite E0 in Hb. simpl in Hb.
  destruct (placeData_ok _ finalMessage cv0 Hw0) as (cv1 & E1 & Hw1).
  rewrite E1 in Hb. simpl in Hb.
  destruct (placeFormat_last_write (21 + 4 * (v - 1)) level cv1 i0 row col
              ltac:(lia) Hw1 Hi0 Hwr Hlater) as (cv2 & E2 & Hg).
  rewrite E2 in Hb. simpl in Hb. by injection Hb as <-.
Qed.

Lemma reserved_corner_check v :
  1 ≤ v ≤ 4 →
  ∃ cv0, functionPatterns v (21 + 4 * (v - 1)) = Ok cv0 ∧
         patternCell cv0 (21 + 4 * (v - 1) - 1) 8 false = true.
Proof.
  intros Hv.
  assert (match functionPatterns v (21 + 4 * (v - 1)) with
          | Ok cv => patternCell cv (21 + 4 * (v - 1) - 1) 8 false
          | Panic _ => false
          end = true) as H.
  { assert (v = 1 ∨ v = 2 ∨ v = 3 ∨ v = 4) as [-> | [-> | [-> | ->]]] by lia;
      vm_compute; reflexivity. }
  destruct (functionPatterns _ _) as [cv|]; [|done]. by exists cv.
Qed.

Lemma format_bits_placed_aux (content : string) (level : Z)
    (qr : QRCode) (t' : Tables)
    (Henc : NewQRCode content level initTables = (Ok (inr qr), t')) :
  let s := Size qr in
  (∀ i r c, topLeftCell i = Some (r, c) →
     get2 (Modules qr) r c = Ok (formatBit level i)) ∧
  (∀ i, 0 ≤ i < 8 →
     get2 (Modules qr) 8 (s - 1 - i) = Ok (formatBit level i)) ∧
  (∀ i, 8 ≤ i < 15 →
     get2 (Modules qr) (s - 16 + i) 8 = Ok (formatBit level i)) ∧
  get2 (Modules qr) (s - 1) 8 = Ok false.
Proof.
  destruct (encode_parts content level qr t' Henc)
    as (_ & Hv & _ & _ & _ & _ & Hsz & _ & bb & ec & rest & _ & _ & _ & _ & _ &
        _ & Ebuild).
  cbv zeta. rewrite Hsz. set (s := 21 + 4 * (Version qr - 1)) in *.
  assert (21 ≤ s) as Hs by (unfold s; lia).
  split; [|split; [|split]].
  - intros i r c Hc. pose proof (topLeftCell_index i r c Hc) as Hix.
    apply (buildMatrix_format _ _ _ _ i r c Hv Ebuild); [lia|by left|].
    intros i' Hi' Hw. apply formatWrites_inv in Hw as [(Hc' & _)|Hw]; [|lia].
    apply topLeftCell_index in Hc'. lia.
  - intros i Hi.
    apply (buildMatrix_format _ _ _ _ i 8 (s - 1 - i) Hv Ebuild); [lia| |].
    + right. by destruct (decide (i < 8)); [|lia].
    + intros i' Hi' Hw. apply formatWrites_inv in Hw; lia.
  - intros i Hi.
    apply (buildMatrix_format _ _ _ _ i (s - 16 + i) 8 Hv Ebuild); [lia| |].
    + right. destruct (decide (i < 8)); [lia|]. f_equal. lia.
    + intros i' Hi' Hw. apply formatWrites_inv in Hw; lia.
  - destruct (buildMatrix_keeps _ _ _ _ Hv Ebuild) as (cv0 & E0 & _ & Hk).
    destruct (reserved_corner_check _ Hv) as (cv0' & E0' & Hchk).
    assert (cv0' = cv0) as -> by congruence.
    apply patternCell_true in Hchk as [Hf Hm]. fold s in Hf, Hm, Hk.
    rewrite <- Hm. apply Hk; [done|].
    intros i Hi Hw. apply formatWrites_inv in Hw; lia.
Qed.

(** X23. Where the format word of a symbol is: in every successful
    encode, bit i of the format word of the level is at the cell the
    switch gives for i around the top-left finder; bits 0..7 are also in
    row 8 at columns size-1 down to size-8; bits 8..14 are also in column
    8 at rows size-8 up to size-2, so that the last row of column 8 stays
    light. *)
Theorem format_bits_placed (content : string) (level : Z)
    (qr : QRCode) (t' : Tables)
    (Henc : NewQRCode content level initTables = (Ok (inr qr), t')) :
  let s := Size qr in
  (∀ i r c, topLeftCell i = Some (r, c) →
     get2 (Modules qr) r c = Ok (formatBit level i)) ∧
  (∀ i, 0 ≤ i < 8 →
     get2 (Modules qr) 8 (s - 1 - i) = Ok (formatBit level i)) ∧
  (∀ i, 8 ≤ i < 15 →
     get2 (Modules qr) (s - 16 + i) 8 = Ok (formatBit level i)) ∧
  get2 (Modules qr) (s - 1) 8 = Ok false.
Proof. exact (format_bits_placed_aux content level qr t' Henc). Qed.

Lemma format_bits_placed_witness :
  ∃ qr, NewQRCode "Hello" LevelL initTables = (Ok (inr qr), initTables) ∧
        get2 (Modules qr) 8 0 = Ok (formatBit LevelL 14) ∧
        get2 (Modules qr) 8 20 = Ok (formatBit LevelL 0) ∧
        get2 (Modules qr) 13 8 = Ok (formatBit LevelL 8) ∧
        get2 (Modules qr) 20 8 = Ok false.
Proof.
  destruct (NewQRCode "Hello" LevelL initTables) as [r t'] eqn:E.
  assert (∃ qr, r = Ok (inr qr) ∧ t' = initTables ∧ Size qr = 21)
    as (qr & -> & -> & Hs).
  { pose proof (NewQRCode_runs "Hello" LevelL) as H.
    change (chooseVersion (bytesOf "Hello") LevelL)
      with (Some (1, versionInfoAt 1 LevelL)) in H.
    destruct H as (qr & _ & _ & R & _ & _ & _ & _ & _ & Hs & _).
    unfold runs in R. exists qr. split; [congruence|]. split; [congruence|].
    exact Hs. }
  destruct (format_bits_placed "Hello" LevelL qr initTables E)
    as (H1 & H2 & H3 & H4).
  rewrite Hs in H2, H3, H4.
  exists qr. split; [done|]. split; [by apply (H1 14)|].
  split; [apply (H2 0); lia|]. split; [apply (H3 8); lia | exact H4].
Defined.

(** ** Where the message bits end up *)

Lemma ocells_app {S} (l1 l2 : list (Z * Z)) (body : Z * Z → S → outcome S) s :
  ocells (l1 ++ l2) body s = (s' <~ ocells l1 body s ;; ocells l2 body s').
Proof.
  revert s. induction l1 as [|i l1 IH]; intros s; simpl; [done|].
  destruct (body i s); simpl; [apply IH | done].
Qed.

Lemma downRange_pair col : downRange col (col - 1) = [col; col - 1].
Proof.
  unfold downRange. replace (col - (col - 1) + 1) with 2 by lia.
  change (seqZ (col - 1) 2)
    with [Z.of_nat 0 + (col - 1); Z.of_nat 1 + (col - 1)].
  change (reverse [?a; ?b]) with [b; a].
  replace (Z.of_nat 1 + (col - 1)) with col by lia.
  by replace (Z.of_nat 0 + (col - 1)) with (col - 1) by lia.
Qed.

Lemma oloop_pairs {S} (ix : list Z) (f : Z → Z) (a b : Z)
    (body : Z * Z → S → outcome S) s :
  oloop ix (λ i s, oloop [a; b] (λ c s, body (f i, c) s) s) s
  = ocells (mjoin ((λ i, [(f i, a); (f i, b)]) <$> ix)) body s.
Proof.
  revert s. induction ix as [|i ix IH]; intros s; [done|].
  rewrite fmap_cons.
  change (mjoin (?x :: ?xs)) with (x ++ mjoin xs).
  rewrite ocells_app. cbn [oloop ocells].
  destruct (body (f i, a) s) as [s1|]; simpl; [|done].
  destruct (body (f i, b) s1) as [s2|]; simpl; [apply IH | done].
Qed.

Lemma placeColumnPair_cells size col finalMessage totalBits st :
  placeColumnPair size col finalMessage totalBits st
  = ocells (mjoin ((λ rowIter,
              let r := if decide (((col + 1) `quot` 2) `rem` 2 = 0)
                       then size - 1 - rowIter else rowIter in
              [(r, col); (r, col - 1)]) <$> range 0 size))
      (placeCell finalMessage totalBits) st.
Proof.
  unfold placeColumnPair. rewrite downRange_pair.
  exact (oloop_pairs (range 0 size)
           (λ rowIter, if decide (((col + 1) `quot` 2) `rem` 2 = 0)
                       then size - 1 - rowIter else rowIter)
           col (col - 1) (placeCell finalMessage totalBits) st).
Qed.

Lemma placeColumns_cells size finalMessage totalBits (fuel : nat) :
  ∀ col st, col ≤ Z.of_nat fuel →
    placeColumns fuel size col finalMessage totalBits st
    = ocells (zigzagCells fuel size col) (placeCell finalMessage totalBits) st.
Proof.
  induction fuel as [|fuel IH]; intros col st Hf; simpl.
  - by destruct (decide (col > 0)); [lia|].
  - destruct (decide (col > 0)); [|done].
    rewrite ocells_app, <- placeColumnPair_cells.
    destruct (placeColumnPair _ _ _ _ _) as [st1|]; simpl; [|done].
    apply IH. destruct (decide (col = 6)); lia.
Qed.

Lemma lookup_msbBits8 c (j : nat) :
  (j < 8)%nat → msbBits 8 c !! j = Some (Z.testbit c (7 - Z.of_nat j)).
Proof.
  intros Hj. do 8 (destruct j as [|j]; [reflexivity|]). lia.
Qed.

Lemma lookup_bitStream msg (q j : nat) byte :
  msg !! q = Some byte → (j < 8)%nat →
  bitStream msg !! (8 * q + j)%nat = Some (Z.testbit byte (7 - Z.of_nat j)).
Proof.
  revert q. induction msg as [|c msg IH]; intros q Hq Hj; [done|].
  rewrite bitStream_cons. destruct q as [|q].
  - injection Hq as ->. rewrite lookup_app_l by (rewrite msbBits_length; lia).
    by apply lookup_msbBits8.
  - rewrite lookup_app_r by (rewrite msbBits_length; lia).
    rewrite msbBits_length.
    replace (8 * Datatypes.S q + j - 8)%nat with (8 * q + j)%nat by lia.
    by apply IH.
Qed.

Lemma getBit_messageBit msg k :
  0 ≤ k < len msg * 8 →
  getBit msg k = Ok (messageBit msg (Z.to_nat k)).
Proof.
  intros Hk. unfold getBit, len in *.
  assert (0 ≤ k `quot` 8 < Z.of_nat (length msg)) as Hq.
  { rewrite Z.quot_div_nonneg by lia. split; [apply Z.div_pos; lia|].
    apply Z.div_lt_upper_bound; lia. }
  destruct (lookup_lt_is_Some_2 msg (Z.to_nat (k `quot` 8)) ltac:(lia))
    as [byte Hb].
  assert (index msg (k `quot` 8) = Ok byte) as ->
    by (apply index_Ok; split; [lia|done]).
  simpl. f_equal. unfold messageBit.
  assert (0 ≤ k `rem` 8 < 8) as Hr
    by (rewrite Z.rem_mod_nonneg by lia; apply Z.mod_pos_bound; lia).
  rewrite bit_test by lia.
  replace (Z.to_nat k)
    with (8 * Z.to_nat (k `quot` 8) + Z.to_nat (k `rem` 8))%nat.
  2:{ pose proof (Z.quot_rem' k 8). lia. }
  rewrite (lookup_bitStream msg _ _ byte Hb) by lia. simpl.
  f_equal. lia.
Qed.

Lemma messageBit_past msg (k : nat) :
  len msg * 8 ≤ Z.of_nat k → messageBit msg k = false.
Proof.
  intros Hk. unfold messageBit. rewrite lookup_ge_None_2; [done|].
  rewrite bitStream_length. unfold len in Hk. lia.
Qed.

Lemma filter_snoc {A} (f : A → bool) l x :
  List.filter f (l ++ [x])
  = if f x then List.filter f l ++ [x] else List.filter f l.
Proof.
  rewrite List.filter_app. simpl. destruct (f x); [done|].
  by rewrite app_nil_r.
Qed.

Lemma placeCell_step size F msg l rc st :
  NoDup (l ++ [rc]) → inGrid size rc = true → placedInv size F msg l st →
  ∃ st', placeCell msg (len msg * 8) rc st = Ok st' ∧
         placedInv size F msg (l ++ [rc]) st'.
Proof.
  intros Hnd Hin (Hw & HF & Hidx & Hcells).
  destruct st as [cv idx]. destruct rc as [r c]. simpl in *.
  apply bool_decide_eq_true in Hin as [Hr Hc]. simpl in Hr, Hc.
  apply NoDup_app in Hnd as (_ & Hnotin & _).
  unfold placedInv. rewrite filter_snoc.
  destruct (isFunctionAt_ok size cv r c Hw Hr Hc) as [isF EF].
  rewrite EF. simpl.
  assert (dataCell F (r, c) = negb isF) as ->.
  { unfold dataCell. simpl. unfold isFunctionAt in EF. rewrite HF in EF.
    rewrite EF. by destruct isF. }
  destruct isF; simpl.
  { exists (cv, idx). simpl. split; [done|]. split; [done|].
    split; [done|]. split; [done|]. exact Hcells. }
  set (D := List.filter (dataCell F) l) in *.
  assert (0 ≤ len msg) as Hlen by (unfold len; lia).
  assert (∀ k rc', D !! k = Some rc' → rc' ≠ (r, c)) as Hne.
  { intros k rc' Hk ->. apply (Hnotin (r, c)); [|by left].
    apply list_elem_of_lookup_2 in Hk. apply list_elem_of_In in Hk.
    apply List.filter_In in Hk as [Hk _]. by apply list_elem_of_In. }
  assert (∀ b cv2, setModule cv r c (masked b r c) = Ok cv2 →
            b = messageBit msg (length D) →
            ∀ (k : nat) rc', (D ++ [(r, c)]) !! k = Some rc' →
              get2 (modules cv2) rc'.1 rc'.2
              = Ok (masked (messageBit msg k) rc'.1 rc'.2)) as Hnew.
  { intros b cv2 Es Hb k rc' Hk.
    rewrite (setModule_get _ _ _ _ _ rc'.1 rc'.2 Es).
    apply lookup_snoc_Some in Hk as [[Hlt Hk] | [-> <-]].
    - destruct (decide (rc'.1 = r ∧ rc'.2 = c)) as [[E1 E2]|_].
      + exfalso. apply (Hne k rc' Hk). destruct rc'; simpl in *. congruence.
      + by apply Hcells.
    - simpl. destruct (decide (r = r ∧ c = c)) as [_|[]]; [|done..].
      by rewrite Hb. }
  destruct (decide (idx < len msg * 8)) as [Hlt|Hge].
  - assert (idx = len D) as Ei by lia.
    rewrite getBit_messageBit by (unfold len in *; lia). simpl.
    change (if bool_decide ((r + c) `rem` 2 = 0)
            then negb (messageBit msg (Z.to_nat idx))
            else messageBit msg (Z.to_nat idx))
      with (masked (messageBit msg (Z.to_nat idx)) r c).
    destruct (setModule_ok size cv r c
                (masked (messageBit msg (Z.to_nat idx)) r c) Hw Hr Hc)
      as (cv2 & Es & Hw2).
    rewrite Es. simpl. eexists. split; [done|]. simpl.
    split; [done|]. split; [by rewrite (setModule_isFunction _ _ _ _ _ Es)|].
    split.
    + unfold len in *. rewrite length_app. simpl. lia.
    + apply (Hnew _ _ Es). f_equal. unfold len in Ei. lia.
  - simpl.
    destruct (setModule_ok size cv r c (masked false r c) Hw Hr Hc)
      as (cv2 & Es & Hw2).
    pose proof Es as Es'. unfold masked in Es'. simpl in Es'.
    rewrite Es'. simpl. eexists. split; [done|]. simpl.
    split; [done|]. split; [by rewrite (setModule_isFunction _ _ _ _ _ Es)|].
    split.
    + unfold len in *. rewrite length_app. simpl. lia.
    + apply (Hnew _ _ Es). symmetry. apply messageBit_past.
      unfold len in *. lia.
Qed.

Lemma ocells_placed size F msg cells :
  ∀ l st, NoDup (l ++ cells) → forallb (inGrid size) cells = true →
    placedInv size F msg l st →
    ∃ st', ocells cells (placeCell msg (len msg * 8)) st = Ok st' ∧
           placedInv size F msg (l ++ cells) st'.
Proof.
  induction cells as [|rc cells IH]; intros l st Hnd Hin Hinv.
  - exists st. split; [done|]. by rewrite app_nil_r.
  - simpl in Hin. apply andb_prop in Hin as [Hin1 Hin2].
    replace (l ++ rc :: cells) with ((l ++ [rc]) ++ cells) in *
      by (by rewrite <- app_assoc).
    destruct (placeCell_step size F msg l rc st) as (st1 & E1 & Hinv1);
      [by apply NoDup_app in Hnd as (? & _) | done | done |].
    simpl. rewrite E1. simpl. by apply IH.
Qed.

Lemma placement_check v :
  1 ≤ v ≤ 4 →
  ∃ cv0,
    functionPatterns v (21 + 4 * (v - 1)) = Ok cv0 ∧
    NoDup (zigzagCells (Z.to_nat (21 + 4 * (v - 1))) (21 + 4 * (v - 1))
             (21 + 4 * (v - 1) - 1)) ∧
    forallb (inGrid (21 + 4 * (v - 1)))
      (zigzagCells (Z.to_nat (21 + 4 * (v - 1))) (21 + 4 * (v - 1))
         (21 + 4 * (v - 1) - 1)) = true ∧
    formatCellsReserved (21 + 4 * (v - 1)) (isFunction cv0) = true ∧
    len (dataCells (21 + 4 * (v - 1)) (isFunction cv0)) = dataCellCount v.
Proof.
  intros Hv.
  assert (match functionPatterns v (21 + 4 * (v - 1)) with
          | Ok cv0 =>
              bool_decide
                (NoDup (zigzagCells (Z.to_nat (21 + 4 * (v - 1)))
                          (21 + 4 * (v - 1)) (21 + 4 * (v - 1) - 1))) &&
              forallb (inGrid (21 + 4 * (v - 1)))
                (zigzagCells (Z.to_nat (21 + 4 * (v - 1))) (21 + 4 * (v - 1))
                   (21 + 4 * (v - 1) - 1)) &&
              formatCellsReserved (21 + 4 * (v - 1)) (isFunction cv0) &&
              bool_decide
                (len (dataCells (21 + 4 * (v - 1)) (isFunction cv0))
                 = dataCellCount v)
          | Panic _ => false
          end = true) as H.
  { assert (v = 1 ∨ v = 2 ∨ v = 3 ∨ v = 4) as [-> | [-> | [-> | ->]]] by lia;
      vm_compute; reflexivity. }
  destruct (functionPatterns _ _) as [cv|]; [|done]. exists cv.
  apply andb_prop in H as [H H4]. apply andb_prop in H as [H H3].
  apply andb_prop in H as [H1 H2].
  apply bool_decide_eq_true in H1, H4. done.
Qed.

Lemma formatCellsReserved_spec size F i r c :
  formatCellsReserved size F = true → 0 ≤ i < 15 →
  formatWrites size i r c → get2 F r c = Ok true.
Proof.
  unfold formatCellsReserved. intros H Hi Hw.
  pose proof (forallb_seqZ _ _ _ H i ltac:(lia)) as Hc. cbv beta in Hc.
  apply andb_prop in Hc as [H1 H2]. destruct Hw as [Hw|Hw].
  - rewrite Hw in H1. by apply okBool_eq.
  - destruct (decide (i < 8)); injection Hw as <- <-; by apply okBool_eq.
Qed.

Lemma dataCellCount_enough v level :
  1 ≤ v ≤ 4 → 0 ≤ level ≤ 3 →
  TotalCodewords (versionInfoAt v level) * 8 ≤ dataCellCount v.
Proof.
  intros Hv Hl.
  assert (v = 1 ∨ v = 2 ∨ v = 3 ∨ v = 4) as Hc by lia.
  assert (level = 0 ∨ level = 1 ∨ level = 2 ∨ level = 3) as Hd by lia.
  destruct Hc as [-> | [-> | [-> | ->]]];
    destruct Hd as [-> | [-> | [-> | ->]]]; vm_compute; discriminate.
Qed.

Lemma buildMatrix_data v level finalMessage qr :
  1 ≤ v ≤ 4 → buildMatrix v level finalMessage = Ok qr →
  ∃ cv0, functionPatterns v (21 + 4 * (v - 1)) = Ok cv0 ∧
         len (dataCells (21 + 4 * (v - 1)) (isFunction cv0))
         = dataCellCount v ∧
         ∀ (k : nat) r c,
           dataCells (21 + 4 * (v - 1)) (isFunction cv0) !! k = Some (r, c) →
           get2 (Modules qr) r c
           = Ok (masked (messageBit finalMessage k) r c).
Proof.
  intros Hv Hb. set (size := 21 + 4 * (v - 1)) in *.
  destruct (placement_check v Hv) as (cv0 & E0 & Hnd & Hin & Hres & Hcount).
  destruct (functionPatterns_ok v Hv) as (cv0' & E0' & Hw0).
  fold size in E0, E0', Hw0, Hnd, Hin, Hres, Hcount.
  assert (cv0' = cv0) as -> by congruence. clear E0'.
  exists cv0. split; [done|]. split; [done|].
  unfold buildMatrix in Hb. fold size in Hb. rewrite E0 in Hb. simpl in Hb.
  unfold placeData in Hb.
  rewrite placeColumns_cells in Hb by lia.
  destruct (ocells_placed size (isFunction cv0) finalMessage
              (zigzagCells (Z.to_nat size) size (size - 1)) [] (cv0, 0))
    as ([cv1 idx1] & E1 & Hw1 & _ & _ & Hcells); [done|done| |].
  { split; [done|]. split; [done|]. split; [|done].
    unfold len. simpl. lia. }
  rewrite E1 in Hb. simpl in Hb, Hw1, Hcells.
  intros k r c Hk.
  assert (∀ i, 0 ≤ i < 15 → ¬ formatWrites size i r c) as Hn.
  { intros i Hi Hwr.
    pose proof (formatCellsReserved_spec _ _ _ _ _ Hres Hi Hwr) as Ht.
    apply list_elem_of_lookup_2, list_elem_of_In in Hk.
    apply List.filter_In in Hk as [_ Hd]. unfold dataCell in Hd.
    simpl in Hd. rewrite Ht in Hd. done. }
  destruct (placeFormat_untouched size level cv1 r c ltac:(unfold size; lia)
              Hw1 Hn) as (cv2 & E2 & _ & Hg).
  rewrite E2 in Hb. simpl in Hb. injection Hb as <-. simpl.
  rewrite Hg. exact (Hcells k (r, c) Hk).
Qed.

(** X24. Where the message is in the symbol: in every successful encode
    the final message (data codewords, then error correction codewords)
    is written over the cells that are not function cells, in the order
    the zig-zag visits them: the k-th such cell holds bit k of the
    message, most significant bit of the first codeword first, inverted
    where row + column is even (mask pattern 0); the cells left over once
    the message has ended hold a 0 bit under the same mask.  There are at
    least as many such cells as message bits, so no bit is dropped. *)
Theorem data_bits_placed (content : string) (level : Z)
    (qr : QRCode) (t' : Tables)
    (Henc : NewQRCode content level initTables = (Ok (inr qr), t')) :
  let vInfo := versionInfoAt (Version qr) level in
  ∃ cv0 dataCodewords ecCodewords,
    functionPatterns (Version qr) (Size qr) = Ok cv0 ∧
    len dataCodewords = TotalCodewords vInfo - ECCodewords vInfo ∧
    toCodewords (take (8 * length (bytesOf content))
                   (drop 12 (bitStream dataCodewords))) = bytesOf content ∧
    CalculateECCodewords dataCodewords (ECCodewords vInfo) initTables
    = (Ok ecCodewords, initTables) ∧
    let finalMessage := dataCodewords ++ ecCodewords in
    let D := dataCells (Size qr) (isFunction cv0) in
    len finalMessage * 8 ≤ len D ∧
    ∀ (k : nat) r c, D !! k = Some (r, c) →
      get2 (Modules qr) r c = Ok (masked (messageBit finalMessage k) r c).
Proof.
  cbv zeta.
  destruct (encode_parts content level qr t' Henc)
    as (_ & Hv & Hl & _ & _ & _ & Hsz & _).
  destruct (encode_message_parts content level qr t' Henc)
    as (dcw & ec & _ & _ & L1 & L2 & Rec & Ebuild & _ & _ & Hdata).
  destruct (buildMatrix_data _ _ _ _ Hv Ebuild) as (cv0 & E0 & Hcount & Hcells).
  rewrite Hsz. exists cv0, dcw, ec.
  split; [done|]. split; [done|]. split; [done|]. split; [done|].
  split; [|done].
  rewrite Hcount. pose proof (dataCellCount_enough _ _ Hv Hl) as Hen.
  unfold len in *. rewrite length_app. lia.
Qed.

Lemma data_bits_placed_witness :
  ∃ qr cv0 (dataCodewords ecCodewords : list Z),
    NewQRCode "Hello" LevelL initTables = (Ok (inr qr), initTables) ∧
    functionPatterns (Version qr) (Size qr) = Ok cv0 ∧
    len (dataCodewords ++ ecCodewords) * 8
    ≤ len (dataCells (Size qr) (isFunction cv0)) ∧
    ∀ (k : nat) r c,
      dataCells (Size qr) (isFunction cv0) !! k = Some (r, c) →
      get2 (Modules qr) r c
      = Ok (masked (messageBit (dataCodewords ++ ecCodewords) k) r c).
Proof.
  destruct (NewQRCode "Hello" LevelL initTables) as [r t'] eqn:E.
  assert (∃ qr, r = Ok (inr qr) ∧ t' = initTables) as (qr & -> & ->).
  { pose proof (NewQRCode_runs "Hello" LevelL) as H.
    change (chooseVersion (bytesOf "Hello") LevelL)
      with (Some (1, versionInfoAt 1 LevelL)) in H.
    destruct H as (qr & _ & _ & R & _). unfold runs in R.
    exists qr. split; congruence. }
  destruct (data_bits_placed "Hello" LevelL qr initTables E)
    as (cv0 & dcw & ec & E0 & _ & _ & _ & Hlen & Hcells).
  exists qr, cv0, dcw, ec. split; [done|]. split; [done|].
  split; [exact Hlen | exact Hcells].
Defined.

(** ** Shape of the symbol, and rendering it *)

(** X25. The symbol of every successful encode: the version is 1..4, the
    level is the one asked for, the size is 17 + 4 * version, and the
    grid has that many rows of that many modules, so that every module
    inside is readable and every read outside panics. *)
Theorem symbol_shape (content : string) (level : Z)
    (qr : QRCode) (t' : Tables)
    (Henc : NewQRCode content level initTables = (Ok (inr qr), t')) :
  1 ≤ Version qr ≤ 4 ∧ Level qr = level ∧ 0 ≤ level ≤ 3 ∧
  Size qr = 17 + 4 * Version qr ∧
  len (Modules qr) = Size qr ∧
  Forall (λ row, len row = Size qr) (Modules qr) ∧
  ∀ r c, (0 ≤ r < Size qr ∧ 0 ≤ c < Size qr ↔
          ∃ b, get2 (Modules qr) r c = Ok b).
Proof.
  destruct (encode_parts content level qr t' Henc)
    as (_ & Hv & Hl & _ & _ & Hlev & Hsz & Hsq & _).
  split; [done|]. split; [done|]. split; [done|]. split; [lia|].
  split; [apply Hsq|]. split; [apply Hsq|].
  intros r c. split.
  - intros [Hr Hc]. by apply (get2_Ok (Size qr)).
  - intros [b Hb]. unfold get2 in Hb.
    apply obind_Ok in Hb as (row & Er & Ec).
    apply index_Ok in Er as [Hr Er]. apply index_Ok in Ec as [Hc Ec].
    destruct Hsq as [Hlen Hrows].
    pose proof (lookup_lt_Some _ _ _ Er) as Hr'.
    pose proof (lookup_lt_Some _ _ _ Ec) as Hc'.
    eapply Forall_lookup_1 in Hrows; [|exact Er].
    unfold len in *. lia.
Qed.

Lemma symbol_shape_witness :
  ∃ qr, NewQRCode "Hello" LevelL initTables = (Ok (inr qr), initTables) ∧
        Size qr = 17 + 4 * Version qr ∧ len (Modules qr) = Size qr.
Proof.
  destruct (NewQRCode "Hello" LevelL initTables) as [r t'] eqn:E.
  assert (∃ qr, r = Ok (inr qr) ∧ t' = initTables) as (qr & -> & ->).
  { pose proof (NewQRCode_runs "Hello" LevelL) as H.
    change (chooseVersion (bytesOf "Hello") LevelL)
      with (Some (1, versionInfoAt 1 LevelL)) in H.
    destruct H as (qr & _ & _ & R & _). unfold runs in R.
    exists qr. split; congruence. }
  destruct (symbol_shape "Hello" LevelL qr initTables E)
    as (_ & _ & _ & Hs & Hl & _).
  exists qr. split; [done|]. split; [exact Hs | exact Hl].
Defined.

(** X26. Encoding and rendering compose: for every symbol NewQRCode
    returns and every scale whose image can be allocated (a scale below
    1 counts as 1), WritePNG does not panic and the PNG encoder accepts
    the image; it is a square of side (Size + 8) * scale whose pixels are
    black exactly on the dark modules, so that the quiet zone of four
    modules around the symbol is white and the top-left corner module of
    the symbol is black. *)
Theorem encode_then_render (avail : Z) (content : string) (level : Z)
    (qr : QRCode) (t' : Tables) (scale : Z)
    (Henc : NewQRCode content level initTables = (Ok (inr qr), t'))
    (Hfits : allocatable avail
               (((Size qr + 8) * Z.max 1 scale)
                * ((Size qr + 8) * Z.max 1 scale))) :
  let k := Z.max 1 scale in
  let dim := (Size qr + 8) * k in
  ∃ img, WritePNG avail qr scale = Ok (Written img) ∧
         Bounds img = Rect 0 0 dim dim ∧
         (∀ x y, 0 ≤ x < dim → 0 ≤ y < dim →
            ∃ v, ColorIndexAt img x y = Ok v ∧ (v = 0 ∨ v = 1) ∧
                 (v = 1 ↔ darkAt qr (y `div` k - 4) (x `div` k - 4))) ∧
         (∀ x y, 0 ≤ x < dim → 0 ≤ y < dim →
            x < 4 * k ∨ dim - 4 * k ≤ x ∨ y < 4 * k ∨ dim - 4 * k ≤ y →
            ColorIndexAt img x y = Ok 0) ∧
         (∀ x y, 4 * k ≤ x < 5 * k → 4 * k ≤ y < 5 * k →
            ColorIndexAt img x y = Ok 1).
Proof.
  intros k dim.
  destruct (encode_parts content level qr t' Henc)
    as (_ & Hv & _ & _ & _ & _ & Hsz & Hsq & _).
  destruct (symbol_patterns_aux content level qr t' Henc) as (Hfind & _).
  assert (1 ≤ k) as Hk by (unfold k; lia).
  assert (WritePNG avail qr scale = WritePNG avail qr k) as ->.
  { unfold WritePNG, k.
    destruct (decide (scale < 1)); destruct (decide (Z.max 1 scale < 1));
      try lia.
    - by replace (Z.max 1 scale) with 1 by lia.
    - by replace (Z.max 1 scale) with scale by lia. }
  destruct (WritePNG_paints_modules avail qr k Hk Hsq Hfits)
    as (img & E & Hp).
  pose proof (paints_modules_darkAt qr k img Hk Hp) as Hpix.
  fold dim in Hp, Hpix. destruct Hp as (_ & Hb & _).
  assert (0 ≤ dim) as Hdim by (unfold dim; nia).
  exists img. split; [done|].
  split; [rewrite Hb; unfold Rect; by destruct (decide (0 > dim)); [lia|]|].
  split; [exact Hpix|]. split.
  - intros x y Hx Hy Hq.
    destruct (Hpix x y Hx Hy) as (v & Ev & [ -> | -> ] & Hd); [done|].
    exfalso. destruct Hd as [Hd _].
    destruct (Hd eq_refl) as (Hr & Hc & _).
    assert (4 * k ≤ x < dim - 4 * k ∧ 4 * k ≤ y < dim - 4 * k); [|lia].
    unfold dim.
    pose proof (Z.div_mod x k ltac:(lia)).
    pose proof (Z.mod_pos_bound x k ltac:(lia)).
    pose proof (Z.div_mod y k ltac:(lia)).
    pose proof (Z.mod_pos_bound y k ltac:(lia)). nia.
  - intros x y Hx Hy.
    assert (0 ≤ x < dim ∧ 0 ≤ y < dim) as [Hx' Hy'] by (unfold dim; nia).
    destruct (Hpix x y Hx' Hy') as (v & Ev & _ & Hd).
    assert (x `div` k = 4 ∧ y `div` k = 4) as [Ex Ey].
    { split; symmetry.
      - apply (Z.div_unique x k 4 (x - 4 * k)); [left; lia | lia].
      - apply (Z.div_unique y k 4 (y - 4 * k)); [left; lia | lia]. }
    rewrite Ex, Ey in Hd. change (4 - 4) with 0 in Hd.
    assert (v = 1) as ->; [|done]. apply Hd.
    destruct (Hfind 0 0 ltac:(lia) ltac:(lia)) as (H00 & _).
    unfold darkAt. split; [lia|]. split; [lia|]. exact H00.
Qed.

Lemma encode_then_render_witness :
  ∃ qr img,
    NewQRCode "Hello" LevelL initTables = (Ok (inr qr), initTables) ∧
    WritePNG 841 qr 0 = Ok (Written img) ∧
    Bounds img = Rect 0 0 ((Size qr + 8) * 1) ((Size qr + 8) * 1) ∧
    ColorIndexAt img 0 0 = Ok 0 ∧ ColorIndexAt img 4 4 = Ok 1.
Proof.
  destruct (NewQRCode "Hello" LevelL initTables) as [r t'] eqn:E.
  assert (∃ qr, r = Ok (inr qr) ∧ t' = initTables ∧ Size qr = 21)
    as (qr & -> & -> & Hs).
  { pose proof (NewQRCode_runs "Hello" LevelL) as H.
    change (chooseVersion (bytesOf "Hello") LevelL)
      with (Some (1, versionInfoAt 1 LevelL)) in H.
    destruct H as (qr & _ & _ & R & _ & _ & _ & _ & _ & Hs & _).
    unfold runs in R. exists qr. split; [congruence|]. split; [congruence|].
    exact Hs. }
  destruct (encode_then_render 841 "Hello" LevelL qr initTables 0 E)
    as (img & Ei & Hb & _ & Hq & Hc).
  { rewrite Hs. split; vm_compute; discriminate. }
  change (Z.max 1 0) with 1 in *.
  exists qr, img. split; [done|]. split; [done|]. split; [done|].
  rewrite Hs in Hq. split.
  - apply Hq; lia.
  - apply Hc; lia.
Defined.

Lemma NewPaletted_swapped avail d :
  d < 0 → allocatable avail (d * d) →
  NewPaletted avail (Rect 0 0 d d)
  = Ok (mkPaletted (replicate (Z.to_nat (d * d)) 0) (- d)
          (mkRectangle d d 0 0)).
Proof.
  intros Hd [Hm Ha]. pose proof (small_side (- d) ltac:(lia)) as Hs.
  replace (- d * - d) with (d * d) in Hs by lia. specialize (Hs Hm).
  assert (0 ≤ d * d ≤ 2 ^ 24 * 2 ^ 24) as Hdd by nia.
  unfold Rect. destruct (decide (0 > d)); [|lia].
  unfold NewPaletted, pixelBufferLength, Dx, Dy. simpl.
  rewrite Z.sub_0_l, (wrap_id (- d)) by lia.
  unfold mul3NonNeg. destruct (decide (1 < 0 ∨ - d < 0 ∨ - d < 0)); [lia|].
  unfold Mul64. rewrite Z.mul_1_l.
  rewrite (Z.div_small (- d)), (Z.mod_small (- d)) by lia.
  destruct (decide (0 ≠ 0)); [done|].
  replace (- d * - d) with (d * d) by lia.
  rewrite (Z.div_small (d * d)), (Z.mod_small (d * d)) by lia.
  destruct (decide (0 ≠ 0)); [done|].
  rewrite (wrap_id (d * d)) by lia.
  destruct (decide (d * d < 0)); [lia|].
  destruct (decide (d * d < 0)); [lia|]. simpl.
  unfold makePix. unfold maxAlloc in *.
  destruct (decide (d * d < 0 ∨ 2 ^ 48 < d * d)); [lia|].
  destruct (decide (avail < d * d)); [lia|]. simpl.
  by rewrite (wrap_id (- d)) by lia.
Qed.

(** X27. WritePNG on values NewQRCode does not return, for an image that
    can be allocated (a scale below 1 counting as 1).  With a Size of -8
    the image is empty and png.Encode refuses it as of invalid size 0x0.
    With any other Size of 0 or less no module is read and the image is
    all white, whatever Modules holds: of side (Size + 8) * scale for a
    Size above -8, and for a Size below -8, where image.Rect swaps the
    corners, of side (-8 - Size) * scale with its rectangle ending at the
    origin.  With a positive Size and no rows in Modules the first read
    panics with an index out of range. *)
Theorem WritePNG_degenerate (avail : Z) (qr : QRCode) (scale : Z) :
  let k := Z.max 1 scale in
  let dim := (Size qr + 8) * k in
  allocatable avail (dim * dim) → 0 ≤ avail →
  (Size qr = -8 → WritePNG avail qr scale = Ok (InvalidImageSize 0 0)) ∧
  (-8 < Size qr ≤ 0 →
   WritePNG avail qr scale
   = Ok (Written (mkPaletted (replicate (Z.to_nat (dim * dim)) 0) dim
                    (mkRectangle 0 0 dim dim)))) ∧
  (Size qr < -8 →
   WritePNG avail qr scale
   = Ok (Written (mkPaletted (replicate (Z.to_nat (dim * dim)) 0) (- dim)
                    (mkRectangle dim dim 0 0)))) ∧
  (1 ≤ Size qr → Modules qr = [] →
   WritePNG avail qr scale = Panic IndexOutOfRange).
Proof.
  intros k dim Hfits Havail.
  assert (1 ≤ k) as Hk by (unfold k; lia).
  assert (scale < 1 → k = 1) as Hk1 by (unfold k; lia).
  assert (¬ scale < 1 → k = scale) as Hk2 by (unfold k; lia).
  assert (dim * dim = Z.abs dim * Z.abs dim) as Habs by lia.
  pose proof (small_side (Z.abs dim) ltac:(lia)) as Hsmall.
  rewrite <- Habs in Hsmall. specialize (Hsmall (proj1 Hfits)).
  assert (Z.abs (Size qr + 8) ≤ Z.abs dim) as Hside by (unfold dim; nia).
  assert (wrap (wrap (Size qr + wrap (2 * 4))
                * (if decide (scale < 1) then 1 else scale)) = dim) as Hdim.
  { change (wrap (2 * 4)) with 8. rewrite (wrap_id (Size qr + 8)) by lia.
    replace (if decide (scale < 1) then 1 else scale) with k
      by (destruct (decide (scale < 1)); [by rewrite Hk1 | by rewrite Hk2]).
    fold dim. apply wrap_id. lia. }
  assert (Size qr = -8 → dim = 0) as Hzero by (unfold dim; lia).
  assert (-8 < Size qr → 0 < dim) as Hpos by (unfold dim; nia).
  assert (Size qr < -8 → dim < 0) as Hneg by (unfold dim; nia).
  unfold WritePNG. cbv zeta. rewrite Hdim. clear Hdim Hside.
  clearbody dim k.
  split; [|split; [|split]].
  - intros Hs. rewrite (Hzero Hs) in *.
    rewrite (NewPaletted_square avail 0) by (done || lia). simpl obind.
    unfold drawModules. rewrite (range_nil 0 (Size qr)) by lia.
    reflexivity.
  - intros Hs. assert (0 < dim) as Hd by (apply Hpos; lia).
    rewrite (NewPaletted_square avail dim) by (done || lia). simpl obind.
    rewrite whiteFill_id by (apply Forall_replicate; done). simpl obind.
    unfold drawModules. rewrite (range_nil 0 (Size qr)) by lia.
    simpl. unfold pngEncode, Dx, Dy. simpl.
    rewrite Z.sub_0_r, (wrap_id dim) by lia.
    by destruct (decide _) as [?|_]; [lia|].
  - intros Hs. assert (dim < 0) as Hd by (apply Hneg; lia).
    rewrite (NewPaletted_swapped avail dim) by done. simpl obind.
    rewrite whiteFill_id by (apply Forall_replicate; done). simpl obind.
    unfold drawModules. rewrite (range_nil 0 (Size qr)) by lia.
    simpl. unfold pngEncode, Dx, Dy. simpl.
    rewrite Z.sub_0_l, (wrap_id (- dim)) by lia.
    by destruct (decide _) as [?|_]; [lia|].
  - intros Hs Hm. assert (0 < dim) as Hd by (apply Hpos; lia).
    rewrite (NewPaletted_square avail dim) by (done || lia). simpl obind.
    rewrite whiteFill_id by (apply Forall_replicate; done). simpl obind.
    unfold drawModules. rewrite (range_cons 0 (Size qr)) by lia.
    cbn [oloop]. by rewrite Hm.
Qed.

Lemma WritePNG_degenerate_witness :
  WritePNG 0 (mkQRCode 0 0 (-8) []) 2 = Ok (InvalidImageSize 0 0) ∧
  WritePNG 256 (mkQRCode 0 0 0 []) 2
  = Ok (Written (mkPaletted (replicate 256 0) 16 (mkRectangle 0 0 16 16))) ∧
  WritePNG 4 (mkQRCode 0 0 (-9) []) 2
  = Ok (Written (mkPaletted (replicate 4 0) 2 (mkRectangle (-2) (-2) 0 0))) ∧
  WritePNG 3364 (mkQRCode 1 LevelL 21 []) 2 = Panic IndexOutOfRange.
Proof.
  destruct (WritePNG_degenerate 0 (mkQRCode 0 0 (-8) []) 2)
    as (H1 & _); [split; vm_compute; discriminate | lia |].
  destruct (WritePNG_degenerate 256 (mkQRCode 0 0 0 []) 2)
    as (_ & H2 & _); [split; vm_compute; discriminate | lia |].
  destruct (WritePNG_degenerate 4 (mkQRCode 0 0 (-9) []) 2)
    as (_ & _ & H3 & _); [split; vm_compute; discriminate | lia |].
  destruct (WritePNG_degenerate 3364 (mkQRCode 1 LevelL 21 []) 2)
    as (_ & _ & _ & H4); [split; vm_compute; discriminate | lia |].
  split; [apply H1; reflexivity|].
  split; [apply H2; simpl; lia|].
  split; [apply H3; simpl; lia|].
  apply H4; [simpl; lia | reflexivity].
Defined.

(** ** The format code *)

Lemma hamming_loop_shift (P : Z → bool) ix n :
  loop ix (λ i n, if P i then n + 1 else n) n
  = n + loop ix (λ i n, if P i then n + 1 else n) 0.
Proof.
  unfold loop. revert n. induction ix as [|i ix IH]; intros n; simpl; [lia|].
  rewrite IH. rewrite (IH (if P i then 0 + 1 else 0)).
  destruct (P i); lia.
Qed.

Lemma hamming_loop_cons (P : Z → bool) i ix :
  loop (i :: ix) (λ i n, if P i then n + 1 else n) 0
  = (if P i then 1 else 0) + loop ix (λ i n, if P i then n + 1 else n) 0.
Proof.
  transitivity (loop ix (λ i n, if P i then n + 1 else n)
                  (if P i then 0 + 1 else 0)); [reflexivity|].
  rewrite hamming_loop_shift. destruct (P i); lia.
Qed.

Lemma hamming15_triangle a b c :
  hamming15 a c ≤ hamming15 a b + hamming15 b c.
Proof.
  unfold hamming15. generalize (range 0 15). intros ix.
  induction ix as [|i ix IH]; [done|].
  rewrite (hamming_loop_cons (λ i, xorb (Z.testbit a i) (Z.testbit c i))).
  rewrite (hamming_loop_cons (λ i, xorb (Z.testbit a i) (Z.testbit b i))).
  rewrite (hamming_loop_cons (λ i, xorb (Z.testbit b i) (Z.testbit c i))).
  cbv beta.
  destruct (Z.testbit a i), (Z.testbit b i), (Z.testbit c i); simpl; lia.
Qed.

Lemma hamming15_sym a b : hamming15 a b = hamming15 b a.
Proof.
  unfold hamming15. apply loop_ext. intros i n _. by rewrite xorb_comm.
Qed.

Lemma bch_distance_check :
  forallb (λ d1, forallb (λ d2,
      bool_decide (d1 = d2) ||
      bool_decide (7 ≤ hamming15 (calculateBCHFormat d1)
                         (calculateBCHFormat d2)))
    (seqZ 0 32)) (seqZ 0 32) = true.
Proof. vm_compute. reflexivity. Qed.

(** X28. The format words calculateBCHFormat produces for two different
    5-bit inputs differ in at least 7 of their 15 bits; so a word that is
    within 3 bit flips of a format word is within 3 of no other, and the
    level and mask bits can be told from a copy with up to 3 wrong
    modules. *)
Theorem bch_format_distance (d1 d2 : Z)
    (H1 : 0 ≤ d1 ≤ 31) (H2 : 0 ≤ d2 ≤ 31) :
  (d1 ≠ d2 →
   7 ≤ hamming15 (calculateBCHFormat d1) (calculateBCHFormat d2)) ∧
  (∀ w, hamming15 w (calculateBCHFormat d1) ≤ 3 →
        hamming15 w (calculateBCHFormat d2) ≤ 3 → d1 = d2).
Proof.
  assert (d1 ≠ d2 →
          7 ≤ hamming15 (calculateBCHFormat d1) (calculateBCHFormat d2)) as Hd.
  { intros Hne.
    pose proof (forallb_seqZ _ _ _ bch_distance_check d1 ltac:(lia)) as H.
    cbv beta in H.
    pose proof (forallb_seqZ _ _ _ H d2 ltac:(lia)) as H'. cbv beta in H'.
    apply orb_prop in H' as [H'|H']; apply bool_decide_eq_true in H'; done. }
  split; [exact Hd|].
  intros w Hw1 Hw2. destruct (decide (d1 = d2)) as [|Hne]; [done|].
  specialize (Hd Hne).
  pose proof (hamming15_triangle (calculateBCHFormat d1) w
                (calculateBCHFormat d2)) as Ht.
  rewrite (hamming15_sym (calculateBCHFormat d1) w) in Ht. lia.
Qed.

Lemma bch_format_distance_witness :
  7 ≤ hamming15 (calculateBCHFormat 8) (calculateBCHFormat 0).
Proof. apply (bch_format_distance 8 0); lia. Defined.

(** ** What the codewords of a block give away *)

Lemma peval_one_from p acc :
  byteVal acc → byteList p →
  foldl (hornerStep 1) acc p = Z.lxor acc (foldr Z.lxor 0 p).
Proof.
  intros Ha Hp. revert acc Ha.
  induction Hp as [|c p Hc Hp IH]; intros acc Ha; simpl.
  - by rewrite Z.lxor_0_r.
  - unfold hornerStep at 2. rewrite gmul_1_r by done.
    rewrite IH by by apply lxor_byte. by rewrite Z.lxor_assoc.
Qed.

Lemma peval_one p : byteList p → peval p 1 = foldr Z.lxor 0 p.
Proof.
  intros Hp. unfold peval. rewrite peval_one_from by done.
  apply Z.lxor_0_l.
Qed.

Lemma xor_all_insert l (pos : nat) old v :
  l !! pos = Some old →
  foldr Z.lxor 0 (<[pos := v]> l)
  = Z.lxor (foldr Z.lxor 0 l) (Z.lxor old v).
Proof.
  revert pos. induction l as [|c l IH]; intros pos Hl; [done|].
  destruct pos as [|pos]; simpl in *.
  - injection Hl as ->. xor_bits.
  - rewrite (IH pos Hl). xor_bits.
Qed.

(** X29. The codewords of an encoded block XOR to 0: for data in 0..255
    and 1 <= numECCodewords <= 255 the data codewords and the error
    correction codewords CalculateECCodewords returns for them cancel
    out, so that a block in which one codeword has been changed no longer
    does. *)
Theorem block_parity (data : list Z) (numECCodewords : Z)
    (Hdata : byteList data) (Hec : 1 ≤ numECCodewords ≤ 255) :
  ∃ ec,
    CalculateECCodewords data numECCodewords initTables
    = (Ok ec, initTables) ∧
    foldr Z.lxor 0 (data ++ ec) = 0 ∧
    ∀ (pos : nat) old v, (data ++ ec) !! pos = Some old → v ≠ old →
      foldr Z.lxor 0 (<[pos := v]> (data ++ ec)) ≠ 0.
Proof.
  destruct (CalculateECCodewords_runs data (Z.to_nat numECCodewords) Hdata
              ltac:(lia)) as (ec & Rec & Lec & Bec & Hroots).
  rewrite Z2Nat.id in Rec by lia.
  assert (foldr Z.lxor 0 (data ++ ec) = 0) as Hpar.
  { rewrite <- peval_one by by apply byteList_app.
    exact (Hroots O ltac:(lia)). }
  exists ec. split; [exact Rec|]. split; [exact Hpar|].
  intros pos old v Hpos Hne.
  rewrite (xor_all_insert _ _ _ _ Hpos), Hpar, Z.lxor_0_l.
  intros H0. apply Z.lxor_eq in H0. congruence.
Qed.

Lemma block_parity_witness :
  ∃ ec,
    CalculateECCodewords [72; 105] 7 initTables = (Ok ec, initTables) ∧
    foldr Z.lxor 0 ([72; 105] ++ ec) = 0.
Proof.
  destruct (block_parity [72; 105] 7) as (ec & R & H & _).
  - repeat (apply Forall_cons_2; [unfold byteVal; lia|]). constructor.
  - lia.
  - exists ec. split; [exact R | exact H].
Defined.

(** ** The symbol determines the content *)

Lemma bitStream_app a b : bitStream (a ++ b) = bitStream a ++ bitStream b.
Proof. unfold bitStream. by rewrite fmap_app, join_app. Qed.

Lemma messageBit_lookup msg (k : nat) :
  (k < 8 * length msg)%nat → bitStream msg !! k = Some (messageBit msg k).
Proof.
  intros Hk. unfold messageBit.
  destruct (lookup_lt_is_Some_2 (bitStream msg) k) as [b Hb];
    [rewrite bitStream_length; lia|].
  by rewrite Hb.
Qed.

Lemma masked_inj b1 b2 r c : masked b1 r c = masked b2 r c → b1 = b2.
Proof. unfold masked. by destruct (bool_decide _), b1, b2. Qed.

Lemma level_bits_inj l1 l2 :
  0 ≤ l1 ≤ 3 → 0 ≤ l2 ≤ 3 →
  formatBit l1 14 = formatBit l2 14 → formatBit l1 13 = formatBit l2 13 →
  l1 = l2.
Proof.
  intros H1 H2.
  assert (l1 = 0 ∨ l1 = 1 ∨ l1 = 2 ∨ l1 = 3) as Hc by lia.
  assert (l2 = 0 ∨ l2 = 1 ∨ l2 = 2 ∨ l2 = 3) as Hd by lia.
  destruct Hc as [-> | [-> | [-> | ->]]];
    destruct Hd as [-> | [-> | [-> | ->]]];
    try done; vm_compute; congruence.
Qed.

Lemma bytesOf_inj c1 c2 : bytesOf c1 = bytesOf c2 → c1 = c2.
Proof.
  unfold bytesOf. intros H.
  assert (String.list_ascii_of_string c1 = String.list_ascii_of_string c2)
    as Hl.
  { revert H. generalize (String.list_ascii_of_string c1),
      (String.list_ascii_of_string c2).
    intros la. induction la as [|a la IH]; intros [|b lb] H; try done.
    simpl in H. injection H as Hab Hrest. f_equal; [|by apply IH].
    apply N2Z.inj in Hab.
    rewrite <- (Ascii.ascii_N_embedding a), <- (Ascii.ascii_N_embedding b).
    by rewrite Hab. }
  rewrite <- (String.string_of_list_ascii_of_string c1).
  rewrite <- (String.string_of_list_ascii_of_string c2). by rewrite Hl.
Qed.

Lemma message_bits_agree v level m1 m2 q1 q2 :
  1 ≤ v ≤ 4 → 0 ≤ level ≤ 3 →
  len m1 = TotalCodewords (versionInfoAt v level) →
  len m2 = TotalCodewords (versionInfoAt v level) →
  buildMatrix v level m1 = Ok q1 → buildMatrix v level m2 = Ok q2 →
  Modules q1 = Modules q2 → bitStream m1 = bitStream m2.
Proof.
  intros Hv Hl L1 L2 B1 B2 Hm.
  destruct (buildMatrix_data _ _ _ _ Hv B1) as (cv0 & E0 & Hcount & Hc1).
  destruct (buildMatrix_data _ _ _ _ Hv B2) as (cv0' & E0' & _ & Hc2).
  assert (cv0' = cv0) as -> by congruence.
  pose proof (dataCellCount_enough v level Hv Hl) as Hen.
  apply list_eq. intros k.
  destruct (decide (k < 8 * length m1)%nat) as [Hk|Hk].
  - rewrite !messageBit_lookup by (unfold len in *; lia). f_equal.
    destruct (lookup_lt_is_Some_2
                (dataCells (21 + 4 * (v - 1)) (isFunction cv0)) k)
      as [[r c] Hrc]; [unfold len in *; lia|].
    specialize (Hc1 k r c Hrc). specialize (Hc2 k r c Hrc).
    rewrite Hm in Hc1. rewrite Hc1 in Hc2. injection Hc2 as Hc2.
    by eapply masked_inj.
  - rewrite !lookup_ge_None_2; [done|..];
      rewrite bitStream_length; unfold len in *; lia.
Qed.

(** X30. The symbol determines what was encoded: when two successful
    encodes return symbols with the same module grid, the contents are
    the same string and the levels are the same, and so are the two
    symbols. *)
Theorem symbol_determines_content (c1 c2 : string) (l1 l2 : Z)
    (q1 q2 : QRCode) (t1 t2 : Tables)
    (H1 : NewQRCode c1 l1 initTables = (Ok (inr q1), t1))
    (H2 : NewQRCode c2 l2 initTables = (Ok (inr q2), t2))
    (Hm : Modules q1 = Modules q2) :
  c1 = c2 ∧ l1 = l2 ∧ q1 = q2.
Proof.
  destruct (encode_parts c1 l1 q1 t1 H1)
    as (_ & Hv1 & Hl1 & _ & _ & _ & Hsz1 & [Hsq1 _] & _).
  destruct (encode_parts c2 l2 q2 t2 H2)
    as (_ & Hv2 & Hl2 & _ & _ & _ & Hsz2 & [Hsq2 _] & _).
  assert (Version q1 = Version q2) as Hv by (rewrite Hm in Hsq1; lia).
  assert (l1 = l2) as <-.
  { destruct (format_bits_placed_aux c1 l1 q1 t1 H1) as (F1 & _).
    destruct (format_bits_placed_aux c2 l2 q2 t2 H2) as (F2 & _).
    pose proof (F1 14 8 0 eq_refl) as A1. pose proof (F2 14 8 0 eq_refl) as A2.
    pose proof (F1 13 8 1 eq_refl) as B1. pose proof (F2 13 8 1 eq_refl) as B2.
    rewrite Hm in A1, B1. apply level_bits_inj; [done|done|congruence..]. }
  assert (c1 = c2) as <-; [|split; [done|]; split; [done|congruence]].
  destruct (encode_message_parts c1 l1 q1 t1 H1)
    as (d1 & e1 & _ & _ & Ld1 & Le1 & _ & B1 & _ & Hn1 & Hd1).
  destruct (encode_message_parts c2 l1 q2 t2 H2)
    as (d2 & e2 & _ & _ & Ld2 & Le2 & _ & B2 & _ & Hn2 & Hd2).
  rewrite <- Hv in Ld2, Le2, B2.
  assert (bitStream (d1 ++ e1) = bitStream (d2 ++ e2)) as Hbits.
  { apply (message_bits_agree (Version q1) l1 _ _ q1 q2); try done;
      unfold len in *; rewrite length_app; lia. }
  rewrite !bitStream_app in Hbits.
  apply app_inj_1 in Hbits as [Hbits _];
    [|rewrite !bitStream_length; unfold len in *; lia].
  rewrite <- Hbits in Hn2, Hd2.
  assert (length (bytesOf c1) = length (bytesOf c2)) as Hlen
    by (unfold len in *; rewrite Hn1 in Hn2; injection Hn2; lia).
  apply bytesOf_inj. rewrite <- Hd1, <- Hd2. by rewrite Hlen.
Qed.

Lemma symbol_determines_content_witness :
  ∃ q1 q2,
    NewQRCode "Hello" LevelL initTables = (Ok (inr q1), initTables) ∧
    NewQRCode "Hello" LevelL initTables = (Ok (inr q2), initTables) ∧
    q1 = q2.
Proof.
  destruct (NewQRCode "Hello" LevelL initTables) as [r t'] eqn:E.
  assert (∃ qr, r = Ok (inr qr) ∧ t' = initTables) as (qr & -> & ->).
  { pose proof (NewQRCode_runs "Hello" LevelL) as H.
    change (chooseVersion (bytesOf "Hello") LevelL)
      with (Some (1, versionInfoAt 1 LevelL)) in H.
    destruct H as (qr & _ & _ & R & _). unfold runs in R.
    exists qr. split; congruence. }
  destruct (symbol_determines_content "Hello" "Hello" LevelL LevelL qr qr
              initTables initTables E E eq_refl) as (_ & _ & Hq).
  exists qr, qr. split; [done|]. split; [done|]. exact Hq.
Defined.
